(** * AMRELmp: forest-road extraction from LiDAR data

    Shallow embedding of the directional scanner, the seed file writer,
    the point classes and the carriage-track detector, followed by the
    properties established about them.

    Conventions.
    - A C++ [int] is a [Z]; signed overflow is undefined in C++ and is not
      modelled, integer division is the truncating [Z.quot].
    - A C++ [float] is an IEEE-754 binary32 number, a [double] a binary64
      number, both as [spec_float] with the operations of [SpecFloat]
      (round to nearest even).
    - A [std::vector] is a [list]; [push_back] appends at the end.
    - A loop whose number of iterations is not bounded by its own test takes
      a [fuel] argument and returns [None] when it runs out; [None] is also
      the result of a null-pointer dereference. *)

From Stdlib Require Import ZArith Lia Bool List.
From Stdlib Require Import Floats.SpecFloat.
From stdpp Require Import base option list.
Import ListNotations.
Local Open Scope Z_scope.

(** ** Floating-point numbers *)

Module F32.

Definition prec : Z := 24.
Definition emax : Z := 128.

Definition zero : spec_float := S754_zero false.

(** Conversion of an [int] (or of an integer literal) to [float]. *)
Definition of_Z (z : Z) : spec_float := binary_normalize prec emax z 0 false.

(** The literal [0.5f]. *)
Definition half : spec_float := binary_normalize prec emax 1 (-1) false.

(** A decimal literal [n/d] with [n] and [d] small integers: the division of
    two exactly represented numbers is correctly rounded, as the literal is. *)
Definition of_ratio (n d : Z) : spec_float := SFdiv prec emax (of_Z n) (of_Z d).

Definition add : spec_float -> spec_float -> spec_float := SFadd prec emax.
Definition sub : spec_float -> spec_float -> spec_float := SFsub prec emax.
Definition mul : spec_float -> spec_float -> spec_float := SFmul prec emax.
Definition div : spec_float -> spec_float -> spec_float := SFdiv prec emax.
Definition opp : spec_float -> spec_float := SFopp.

(** Comparisons; each is [false] on an unordered pair, except [neq]. *)
Definition lt (x y : spec_float) : bool := SFltb x y.
Definition gt (x y : spec_float) : bool := SFltb y x.
Definition le (x y : spec_float) : bool := SFleb x y.
Definition eq (x y : spec_float) : bool := SFeqb x y.
Definition neq (x y : spec_float) : bool := negb (SFeqb x y).

Definition is_nan (x : spec_float) : bool :=
  match x with S754_nan => true | _ => false end.

Definition is_finite (x : spec_float) : bool :=
  match x with S754_zero _ | S754_finite _ _ _ => true | _ => false end.

(** Promotion [float -> double] (exact) and narrowing [(float) d]. *)
Definition to_double (x : spec_float) : spec_float :=
  match x with
  | S754_finite s m e => binary_normalize 53 1024 (cond_Zopp s (Zpos m)) e s
  | _ => x
  end.

Definition of_double (x : spec_float) : spec_float :=
  match x with
  | S754_finite s m e => binary_normalize prec emax (cond_Zopp s (Zpos m)) e s
  | _ => x
  end.

(** [(float) sqrt (x)]: the C library square root works on [double]. *)
Definition sqrt (x : spec_float) : spec_float :=
  of_double (SFsqrt 53 1024 (to_double x)).

(** [(float) sqrt (n)] for an [int] argument [n]. *)
Definition sqrt_of_int (n : Z) : spec_float :=
  of_double (SFsqrt 53 1024 (binary_normalize 53 1024 n 0 false)).

(** [(int) x]: truncation toward zero.  The conversion of a NaN, of an
    infinity or of an out-of-range value is undefined in C++; 0 here. *)
Definition to_int (x : spec_float) : Z :=
  match x with
  | S754_finite s m e =>
      cond_Zopp s (if 0 <=? e then Zpos m * 2 ^ e else Zpos m / 2 ^ (- e))
  | _ => 0
  end.

(** [floor (x)] on a [double]. *)
Definition floor64 (x : spec_float) : spec_float :=
  match x with
  | S754_finite s m e =>
      if 0 <=? e then x
      else
        let z := cond_Zopp s (Zpos m) / 2 ^ (- e) in
        if z =? 0 then S754_zero s else binary_normalize 53 1024 z 0 s
  | _ => x
  end.

(** [(int) (v < 0.0f ? v - 0.5f : v + 0.5f)]: rounding to the nearest [int]. *)
Definition round_to_int (v : spec_float) : Z :=
  to_int (if lt v zero then sub v half else add v half).

End F32.

(** ** Points and vectors *)

Record Pt2i := mkPt2i { p2i_x : Z; p2i_y : Z }.
Record Vr2i := mkVr2i { v2i_x : Z; v2i_y : Z }.
Record Pt2f := mkPt2f { p2f_x : spec_float; p2f_y : spec_float }.
Record Vr2f := mkVr2f { v2f_x : spec_float; v2f_y : spec_float }.
Record Pt3f := mkPt3f { p3f_x : spec_float; p3f_y : spec_float; p3f_z : spec_float }.

(** [Pt2i::vectorTo], [Vr2i::norm2], [Vr2i::invert], [Vr2f::scalarProduct]:
    one-line accessors of the point classes. *)
Definition Pt2i_vectorTo (p q : Pt2i) : Vr2i :=
  mkVr2i (p2i_x q - p2i_x p) (p2i_y q - p2i_y p).

Definition Vr2i_norm2 (v : Vr2i) : Z := v2i_x v * v2i_x v + v2i_y v * v2i_y v.

Definition Vr2i_invert (v : Vr2i) : Vr2i := mkVr2i (- v2i_x v) (- v2i_y v).

Definition Vr2f_scalarProduct (u v : Vr2f) : spec_float :=
  F32.add (F32.mul (v2f_x u) (v2f_x v)) (F32.mul (v2f_y u) (v2f_y v)).

(** [Pt2f::normalize] (pt2f.cpp): the division is unconditional. *)
Definition Pt2f_normalize (p : Pt2f) : Pt2f :=
  let n := F32.sqrt (F32.add (F32.mul (p2f_x p) (p2f_x p))
                             (F32.mul (p2f_y p) (p2f_y p))) in
  mkPt2f (F32.div (p2f_x p) n) (F32.div (p2f_y p) n).

(** [Pt3f::normalize] (pt3f.cpp): guarded by [n != 0.0f]. *)
Definition Pt3f_norm (p : Pt3f) : spec_float :=
  F32.sqrt (F32.add (F32.add (F32.mul (p3f_x p) (p3f_x p))
                             (F32.mul (p3f_y p) (p3f_y p)))
                    (F32.mul (p3f_z p) (p3f_z p))).

Definition Pt3f_normalize (p : Pt3f) : Pt3f :=
  let n := Pt3f_norm p in
  if F32.neq n F32.zero
  then mkPt3f (F32.div (p3f_x p) n) (F32.div (p3f_y p) n) (F32.div (p3f_z p) n)
  else p.

(** [Pt2f::distance], [Pt2f::vectorTo] (pt2f.cpp), [Pt3f::distance] and
    [Pt3f::greaterThan] (pt3f.cpp). *)
Definition Pt2f_distance (this p : Pt2f) : spec_float :=
  let dx := F32.sub (p2f_x p) (p2f_x this) in
  let dy := F32.sub (p2f_y p) (p2f_y this) in
  F32.sqrt (F32.add (F32.mul dx dx) (F32.mul dy dy)).

Definition Pt2f_vectorTo (this p : Pt2f) : Vr2f :=
  mkVr2f (F32.sub (p2f_x p) (p2f_x this)) (F32.sub (p2f_y p) (p2f_y this)).

Definition Pt3f_distance (this p : Pt3f) : spec_float :=
  let dx := F32.sub (p3f_x p) (p3f_x this) in
  let dy := F32.sub (p3f_y p) (p3f_y this) in
  let dz := F32.sub (p3f_z p) (p3f_z this) in
  F32.sqrt (F32.add (F32.add (F32.mul dx dx) (F32.mul dy dy)) (F32.mul dz dz)).

Definition Pt3f_greaterThan (this p : Pt3f) : bool :=
  if F32.gt (p3f_x this) (p3f_x p) then true
  else if F32.lt (p3f_x this) (p3f_x p) then false
  else if F32.gt (p3f_y this) (p3f_y p) then true
  else if F32.lt (p3f_y this) (p3f_y p) then false
  else F32.gt (p3f_z this) (p3f_z p).

(** [Pt3i] (pt3i.cpp): three coordinates and a counter [nb], which the
    constructors, the copy constructor too, set to 0. *)
Record Pt3i := mkPt3i { p3i_x : Z; p3i_y : Z; p3i_z : Z; p3i_nb : Z }.

Definition Pt3i_new (x y z : Z) : Pt3i := mkPt3i x y z 0.

Definition Pt3i_copy (p : Pt3i) : Pt3i :=
  mkPt3i (p3i_x p) (p3i_y p) (p3i_z p) 0.

Definition Pt3i_greaterThan (this p : Pt3i) : bool :=
  if p3i_x this >? p3i_x p then true
  else if p3i_x this <? p3i_x p then false
  else if p3i_y this >? p3i_y p then true
  else if p3i_y this <? p3i_y p then false
  else p3i_z this >? p3i_z p.

(** [find (p)]: the point afterwards and the result. *)
Definition Pt3i_find (this p : Pt3i) : Pt3i * bool :=
  if (p3i_x p =? p3i_x this) && (p3i_y p =? p3i_y this)
  then (mkPt3i (p3i_x this) (p3i_y this) (p3i_z this) (p3i_nb this + 1), true)
  else (this, false).

(** *** The order behind the comparisons of floating-point numbers

    A number that is not a NaN has a rank, a triple of integers compared
    lexicographically: the infinities at both ends, the zeros of both signs
    together in the middle, a finite number by its sign, then its exponent,
    then its mantissa. *)
Definition SFrank (x : spec_float) : Z * Z * Z :=
  match x with
  | S754_nan => (0, 0, 0)
  | S754_zero _ => (0, 0, 0)
  | S754_infinity s => (if s then -2 else 2, 0, 0)
  | S754_finite s m e =>
      if s then (-1, - e, - Zpos m) else (1, e, Zpos m)
  end.

Definition rank_lt (a b : Z * Z * Z) : Prop :=
  let '(a1, a2, a3) := a in
  let '(b1, b2, b3) := b in
  a1 < b1 \/ (a1 = b1 /\ (a2 < b2 \/ (a2 = b2 /\ a3 < b3))).

Definition Pt3f_no_nan (p : Pt3f) : Prop :=
  F32.is_nan (p3f_x p) = false /\ F32.is_nan (p3f_y p) = false /\
  F32.is_nan (p3f_z p) = false.

Definition Pt2f_finite (p : Pt2f) : Prop :=
  F32.is_finite (p2f_x p) = true /\ F32.is_finite (p2f_y p) = true.

Definition Pt3f_finite (p : Pt3f) : Prop :=
  F32.is_finite (p3f_x p) = true /\ F32.is_finite (p3f_y p) = true /\
  F32.is_finite (p3f_z p) = true.

(** ** Adaptive directional scanner, second octant (adaptivescannero2.cpp) *)

Module AdaptiveScannerO2.

(** The scanner object.  [steps] is the line pattern, an array of [nbs]
    booleans; the pointers [lst2], [rst2] into it are offsets from [steps],
    and [fs = steps + nbs] is the offset [nbs]. *)
Record t := mk {
  xmin : Z; ymin : Z; xmax : Z; ymax : Z;
  nbs : Z; steps : list bool;
  lcx : Z; lcy : Z; rcx : Z; rcy : Z;
  lst2 : Z; rst2 : Z;
  clearance : bool;
  dla : Z; dlb : Z; dlc1 : Z; dlc2 : Z;
  templ_a : Z; templ_b : Z; templ_nu : Z }.

Definition set_left (s : t) (cx cy st : Z) : t :=
  mk (xmin s) (ymin s) (xmax s) (ymax s) (nbs s) (steps s)
     cx cy (rcx s) (rcy s) st (rst2 s) (clearance s)
     (dla s) (dlb s) (dlc1 s) (dlc2 s) (templ_a s) (templ_b s) (templ_nu s).

Definition set_right (s : t) (cx cy st : Z) : t :=
  mk (xmin s) (ymin s) (xmax s) (ymax s) (nbs s) (steps s)
     (lcx s) (lcy s) cx cy (lst2 s) st (clearance s)
     (dla s) (dlb s) (dlc1 s) (dlc2 s) (templ_a s) (templ_b s) (templ_nu s).

Definition set_line (s : t) (a b c1 c2 : Z) : t :=
  mk (xmin s) (ymin s) (xmax s) (ymax s) (nbs s) (steps s)
     (lcx s) (lcy s) (rcx s) (rcy s) (lst2 s) (rst2 s) (clearance s)
     a b c1 c2 (templ_a s) (templ_b s) (templ_nu s).

(** [DirectionalScanner::releaseClearance]. *)
Definition releaseClearance (s : t) : t :=
  mk (xmin s) (ymin s) (xmax s) (ymax s) (nbs s) (steps s)
     (lcx s) (lcy s) (rcx s) (rcy s) (lst2 s) (rst2 s) false
     (dla s) (dlb s) (dlc1 s) (dlc2 s) (templ_a s) (templ_b s) (templ_nu s).

(** [*st] for a pattern pointer [st]. *)
Definition step_at (s : t) (st : Z) : bool :=
  default false (steps s !! Z.to_nat st).

(** [if (++st >= fs) st = steps;] *)
Definition fwd (s : t) (st : Z) : Z := if st + 1 >=? nbs s then 0 else st + 1.

(** [if (--st < steps) st = steps + nbs - 1;] *)
Definition bwd (s : t) (st : Z) : Z := if st - 1 <? 0 then nbs s - 1 else st - 1.

(** [dla * x + dlb * y] *)
Definition val (s : t) (x y : Z) : Z := dla s * x + dlb s * y.

(** First loop of every scan:
    [while ((y < ymin || x >= xmax) && dla * x + dlb * y >= dlc2)
       { if ( *nst) y++; x--; if (++nst >= fs) nst = steps; }] *)
Fixpoint skip_loop (s : t) (fuel : nat) (x y nst : Z) : option (Z * Z * Z) :=
  if ((y <? ymin s) || (x >=? xmax s)) && (val s x y >=? dlc2 s) then
    match fuel with
    | O => None
    | S fuel' =>
        skip_loop s fuel' (x - 1) (if step_at s nst then y + 1 else y) (fwd s nst)
    end
  else Some (x, y, nst).

(** Second loop of every scan:
    [while (dla * x + dlb * y >= dlc2 && y < ymax && x >= xmin)
       { scan.push_back (Pt2i (x, y));
         if ( *nst) y++; x--; if (++nst >= fs) nst = steps; }] *)
Fixpoint emit_loop (s : t) (fuel : nat) (x y nst : Z) (scan : list Pt2i)
  : option (list Pt2i) :=
  if (val s x y >=? dlc2 s) && (y <? ymax s) && (x >=? xmin s) then
    match fuel with
    | O => None
    | S fuel' =>
        emit_loop s fuel' (x - 1) (if step_at s nst then y + 1 else y)
                  (fwd s nst) (scan ++ [mkPt2i x y])
    end
  else Some scan.

(** "Computes the next scan": the two loops, from the cursor [(x, y, nst)]. *)
Definition scan_from (s : t) (fuel : nat) (x y nst : Z) (scan : list Pt2i)
  : option (list Pt2i) :=
  match skip_loop s fuel x y nst with
  | Some (x', y', nst') => emit_loop s fuel x' y' nst' scan
  | None => None
  end.

(** [first]: the central scan; the returned count is the size of the
    vector, which is returned itself here. *)
Definition first (fuel : nat) (s : t) (scan : list Pt2i) : option (list Pt2i) :=
  scan_from s fuel (lcx s) (lcy s) (lst2 s) scan.

(** Cursor loops of "Prepares the next scan", on the left cursor
    and on the right cursor alike:
    [while (cx > xmin && cy < ymax && dla * cx + dlb * cy > dlc1)
       { if ( *st) cy++; cx--; if (++st >= fs) st = steps; }] *)
Fixpoint back_loop (s : t) (fuel : nat) (cx cy st : Z) : option (Z * Z * Z) :=
  if (cx >? xmin s) && (cy <? ymax s) && (val s cx cy >? dlc1 s) then
    match fuel with
    | O => None
    | S fuel' =>
        back_loop s fuel' (cx - 1) (if step_at s st then cy + 1 else cy) (fwd s st)
    end
  else Some (cx, cy, st).

(** [while (cx < xmax - 1 && cy >= ymin && dla * cx + dlb * cy < dlc1)
       { if (--st < steps) st = steps + nbs - 1; if ( *st) cy--; cx++; }] *)
Fixpoint forth_loop (s : t) (fuel : nat) (cx cy st : Z) : option (Z * Z * Z) :=
  if (cx <? xmax s - 1) && (cy >=? ymin s) && (val s cx cy <? dlc1 s) then
    match fuel with
    | O => None
    | S fuel' =>
        let st' := bwd s st in
        forth_loop s fuel' (cx + 1) (if step_at s st' then cy - 1 else cy) st'
    end
  else Some (cx, cy, st).

(** [skipLeft (scan, skip)]: [lcy -= skip], the two cursor loops, the scan. *)
Definition skipLeft (fuel : nat) (s : t) (scan : list Pt2i) (skip : Z)
  : option (t * list Pt2i) :=
  let scan0 := if clearance s then [] else scan in
  match back_loop s fuel (lcx s) (lcy s - skip) (lst2 s) with
  | Some (cx, cy, st) =>
      match forth_loop s fuel cx cy st with
      | Some (cx', cy', st') =>
          let s' := set_left s cx' cy' st' in
          match scan_from s' fuel cx' cy' st' scan0 with
          | Some scan' => Some (s', scan')
          | None => None
          end
      | None => None
      end
  | None => None
  end.

(** [skipRight (scan, skip)]: [rcy += skip], then as on the left. *)
Definition skipRight (fuel : nat) (s : t) (scan : list Pt2i) (skip : Z)
  : option (t * list Pt2i) :=
  let scan0 := if clearance s then [] else scan in
  match back_loop s fuel (rcx s) (rcy s + skip) (rst2 s) with
  | Some (cx, cy, st) =>
      match forth_loop s fuel cx cy st with
      | Some (cx', cy', st') =>
          let s' := set_right s cx' cy' st' in
          match scan_from s' fuel cx' cy' st' scan0 with
          | Some scan' => Some (s', scan')
          | None => None
          end
      | None => None
      end
  | None => None
  end.

(** [nextOnLeft] ([lcy --]) and [nextOnRight] ([rcy ++]) have the body of
    [skipLeft] and [skipRight] with a step of one. *)
Definition nextOnLeft (fuel : nat) (s : t) (scan : list Pt2i)
  : option (t * list Pt2i) := skipLeft fuel s scan 1.

Definition nextOnRight (fuel : nat) (s : t) (scan : list Pt2i)
  : option (t * list Pt2i) := skipRight fuel s scan 1.

(** [bindTo (a, b, c)] *)
Definition bindTo (s : t) (a b c : Z) : t :=
  let c' := if a <? 0 then - c else c in
  let a' := if a <? 0 then - a else a in
  let b' := if a <? 0 then - b else b in
  let old_b := if templ_b s <? 0 then - templ_b s else templ_b s in
  let old_n1 := templ_a s + old_b in
  let old_ninf := if old_b >? templ_a s then old_b else templ_a s in
  let new_a := if a <? 0 then - a else a in
  let new_b := if b <? 0 then - b else b in
  let new_n1 := new_a + new_b in
  let new_ninf := if new_b >? new_a then new_b else new_a in
  let nu :=
    if new_n1 * old_ninf >? old_n1 * new_ninf
    then (templ_nu s * new_n1) ÷ old_n1
    else (templ_nu s * new_ninf) ÷ old_ninf in
  set_line s a' b' (c' + nu ÷ 2) (c' - nu ÷ 2).



(** Constructor from pattern, start point and upper bound [c].  The base
    class [DirectionalScanner] is not part of the sources at hand: its
    constructor is taken to store the rectangle and the pattern, to put both
    cursors on the start point and to set [clearance]. *)
Definition create_from_start (xmin ymin xmax ymax a b c nbs : Z)
    (steps : list bool) (sx sy : Z) : t :=
  let c1 := a * sx + b * sy in
  mk xmin ymin xmax ymax nbs steps sx sy sx sy 0 0 true
     a b c1 c a b (c1 - c).

(** Pixels a scan may report: inside the rectangle, not below the lower
    line of the strip. *)
Definition in_rect (s : t) (p : Pt2i) : Prop :=
  xmin s <= p2i_x p < xmax s /\ ymin s <= p2i_y p < ymax s.

Definition above_lower (s : t) (p : Pt2i) : Prop :=
  dlc2 s <= val s (p2i_x p) (p2i_y p).

Definition below_upper (s : t) (p : Pt2i) : Prop :=
  val s (p2i_x p) (p2i_y p) <= dlc1 s.

(** What one operation adds to the vector: [scan'] is [scan0] followed by
    pixels that all satisfy [P]. *)
Definition appended (P : Pt2i -> Prop) (scan0 scan' : list Pt2i) : Prop :=
  exists new, scan' = scan0 ++ new /\ Forall P new.

Definition reported (s : t) (p : Pt2i) : Prop := in_rect s p /\ above_lower s p.

(** [skipLeft (skip)] and [skipRight (skip)], which give no scan:
    [lcy -= skip - 1] and [rcy += skip - 1]. *)
Definition skipLeftOnly (s : t) (skip : Z) : t :=
  set_left s (lcx s) (lcy s - (skip - 1)) (lst2 s).

Definition skipRightOnly (s : t) (skip : Z) : t :=
  set_right s (rcx s) (rcy s + (skip - 1)) (rst2 s).

(** "Looking for the central scan start position", constructor from centre
    and bounds:
    [do { if (--st < steps) st = steps + nbs - 1; if ( *st) lcy --; lcx ++; }
     while (dla * lcx + dlb * lcy < c1);] *)
Fixpoint start_loop (s : t) (c1 : Z) (fuel : nat) (cx cy st : Z)
  : option (Z * Z * Z) :=
  match fuel with
  | O => None
  | S fuel' =>
      let st' := bwd s st in
      let cy' := if step_at s st' then cy - 1 else cy in
      let cx' := cx + 1 in
      if val s cx' cy' <? c1 then start_loop s c1 fuel' cx' cy' st'
      else Some (cx', cy', st')
  end.

(** Constructor from pattern, centre and bounds [c1], [c2], given in any
    order.  The base class is taken to behave as for [create_from_start]. *)
Definition create_from_bounds (fuel : nat) (xmin ymin xmax ymax a b c1 c2 nbs : Z)
    (steps : list bool) (cx cy : Z) : option t :=
  let hi := if c2 >? c1 then c2 else c1 in
  let lo := if c2 >? c1 then c1 else c2 in
  let s0 := mk xmin ymin xmax ymax nbs steps cx cy cx cy 0 0 true
               a b hi lo a b (hi - lo) in
  match start_loop s0 hi fuel cx cy nbs with
  | Some (lx, ly, st) =>
      Some (mk xmin ymin xmax ymax nbs steps lx ly lx ly st st true
               a b hi lo a b (hi - lo))
  | None => None
  end.

(** Constructor from pattern, centre and length:
    [for (int i = 0; i < w_2; i++)
       { if (--st < steps) st = steps + nbs - 1; if ( *st) lcy --; lcx ++; }]
    towards the start of the central scan, and
    [while (w_2-- > 0) { if ( *st) cy++; cx--; if (++st >= fs) st = steps; }]
    towards its end. *)
Fixpoint walk_up (s : t) (n : nat) (cx cy st : Z) : Z * Z * Z :=
  match n with
  | O => (cx, cy, st)
  | S n' =>
      let st' := bwd s st in
      walk_up s n' (cx + 1) (if step_at s st' then cy - 1 else cy) st'
  end.

Fixpoint walk_down (s : t) (n : nat) (cx cy st : Z) : Z * Z * Z :=
  match n with
  | O => (cx, cy, st)
  | S n' =>
      walk_down s n' (cx - 1) (if step_at s st then cy + 1 else cy) (fwd s st)
  end.

Definition create_from_length (xmin ymin xmax ymax a b nbs : Z)
    (steps : list bool) (cx cy length : Z) : t :=
  let w_2 := (length + 1) ÷ 2 in
  let s0 := mk xmin ymin xmax ymax nbs steps cx cy cx cy 0 0 true
               a b 0 0 a b 0 in
  let '(lx, ly, st) := walk_up s0 (Z.to_nat w_2) cx cy nbs in
  let '(ex, ey, _) := walk_down s0 (Z.to_nat w_2) cx cy 0 in
  let c1 := a * lx + b * ly in
  let c2 := a * ex + b * ey in
  mk xmin ymin xmax ymax nbs steps lx ly lx ly st st true
     a b c1 c2 a b (c1 - c2).

(** A run of pixels as a scan of the second octant lays them: from one
    pixel to the next, [x] decreases by one and [y] stays or increases by
    one. *)
Fixpoint chained (l : list Pt2i) : Prop :=
  match l with
  | p :: (q :: _) as r =>
      p2i_x q = p2i_x p - 1 /\
      (p2i_y q = p2i_y p \/ p2i_y q = p2i_y p + 1) /\
      chained r
  | _ => True
  end.

(** The pattern pointers are inside the pattern. *)
Definition pointers_inside (s : t) : Prop :=
  Z.of_nat (length (steps s)) = nbs s /\
  0 <= lst2 s < nbs s /\ 0 <= rst2 s < nbs s.

(** Where a scan stops: the pixel is below the lower line or out of the
    rectangle by its top or its left side. *)
Definition stops_at (s : t) (x y : Z) : Prop :=
  val s x y < dlc2 s \/ ymax s <= y \/ x < xmin s.

(** The pixels one scan adds from the position [(x, y)]: a chain from that
    position, of at most [x - xmin + 1] pixels, that stops only where the
    next pixel would be below the lower line or out of the rectangle. *)
Definition run_from (s : t) (x y : Z) (new : list Pt2i) : Prop :=
  chained new /\
  match new with [] => stops_at s x y | p :: _ => p = mkPt2i x y end /\
  Z.of_nat (length new) <= Z.max 0 (x - xmin s + 1) /\
  (forall p, last new = Some p ->
     exists y', (y' = p2i_y p \/ y' = p2i_y p + 1) /\
                stops_at s (p2i_x p - 1) y').

(** Two scanners with the same rectangle, pattern and strip: the loops
    read these, not the cursors stored in the scanner. *)
Definition same_frame (s1 s2 : t) : Prop :=
  xmin s1 = xmin s2 /\ ymin s1 = ymin s2 /\ xmax s1 = xmax s2 /\
  ymax s1 = ymax s2 /\ nbs s1 = nbs s2 /\ steps s1 = steps s2 /\
  dla s1 = dla s2 /\ dlb s1 = dlb s2 /\ dlc1 s1 = dlc1 s2 /\ dlc2 s1 = dlc2 s2.

End AdaptiveScannerO2.
(** ** Seed file writer (AmrelTool::saveSeeds, amreltool.cpp) *)

Module Seeds.

(** What one [write] call puts in the file: an [int], a [float], or the
    two coordinates of a [Pt2i]. *)
Inductive field :=
| Int32 (z : Z)
| Float32 (f : spec_float)
| Point (p : Pt2i).

(** The members of [AmrelTool] and of its collaborators that [saveSeeds]
    reads: raster size, cell size, the tile grid of the point set, the
    half-size switch of the configuration, and the seeds, one vector of
    points per tile, two consecutive points making one stroke. *)
Record state := mk {
  vm_width : Z;
  vm_height : Z;
  csize : spec_float;
  rowsOfTiles : Z;
  columnsOfTiles : Z;
  isHalfSizeSeedsOn : bool;
  out_seeds : list (list Pt2i) }.

Definition stroke_fields (s : Pt2i * Pt2i) : list field :=
  [Point (fst s); Point (snd s)].

(** [while (it != v.end ()) { Pt2i pt1 ( *it++); Pt2i pt2 ( *it++);
       write pt1; write pt2; }]
    A vector of odd size is read past its end: no result. *)
Fixpoint write_pairs (v : list Pt2i) : option (list field) :=
  match v with
  | [] => Some []
  | pt1 :: pt2 :: rest =>
      fs ← write_pairs rest; Some (Point pt1 :: Point pt2 :: fs)
  | [_] => None
  end.

(** [for (...) nb += (int) (arr[i].size ());] over the indices [idx]. *)
Fixpoint sum_sizes (arr : list (list Pt2i)) (idx : list nat) : option Z :=
  match idx with
  | [] => Some 0
  | i :: rest =>
      v ← arr !! i; n ← sum_sizes arr rest; Some (Z.of_nat (length v) + n)
  end.

(** The strokes of the tiles [idx], written in that order. *)
Fixpoint write_tiles (arr : list (list Pt2i)) (idx : list nat)
  : option (list field) :=
  match idx with
  | [] => Some []
  | k :: rest =>
      v ← arr !! k; fs ← write_pairs v; more ← write_tiles arr rest;
      Some (fs ++ more)
  end.

(** [for (j < rot) for (i < cot) k = j * cot + ((j % 2 != 0) ? cot - 1 - i : i)] *)
Definition tile_order (rot cot : nat) : list nat :=
  flat_map (fun j => map (fun i => j * cot + (if Nat.odd j then cot - 1 - i else i))
                         (seq 0 cot))%nat
           (seq 0 rot).

(** Half-size mode, one stroke: the tile of its middle in the finer grid,
    the doubling of its coordinates, and the push in [reseeds].  A stroke
    outside of the grid is only counted ([outl ++]) and dropped. *)
Definition retile_stroke (tw th cot rot : Z) (reseeds : list (list Pt2i))
    (pt1 pt2 : Pt2i) : list (list Pt2i) :=
  let kx := ((p2i_x pt1 + p2i_x pt2) ÷ 2) ÷ tw in
  let ky := ((p2i_y pt1 + p2i_y pt2) ÷ 2) ÷ th in
  if (kx <? 0) || (ky <? 0) || (kx >=? 2 * cot) || (ky >=? 2 * rot)
  then reseeds
  else
    let pt1 := mkPt2i (p2i_x pt1 * 2) (p2i_y pt1 * 2) in
    let pt2 := mkPt2i (p2i_x pt2 * 2) (p2i_y pt2 * 2) in
    let pt1' := if p2i_x pt2 <? p2i_x pt1
                then mkPt2i (p2i_x pt1 + 1) (p2i_y pt1) else pt1 in
    let pt2' := if p2i_x pt2 <? p2i_x pt1
                then pt2 else mkPt2i (p2i_x pt2 + 1) (p2i_y pt2) in
    let pt1'' := if p2i_y pt2' <? p2i_y pt1'
                 then mkPt2i (p2i_x pt1') (p2i_y pt1' + 1) else pt1' in
    let pt2'' := if p2i_y pt2' <? p2i_y pt1'
                 then pt2' else mkPt2i (p2i_x pt2') (p2i_y pt2' + 1) in
    alter (fun v => v ++ [pt1''; pt2'']) (Z.to_nat (ky * cot * 2 + kx)) reseeds.

(** All strokes of one tile; the division by a zero tile size has no
    result. *)
Fixpoint retile_vector (tw th cot rot : Z) (reseeds : list (list Pt2i))
    (v : list Pt2i) : option (list (list Pt2i)) :=
  match v with
  | [] => Some reseeds
  | pt1 :: pt2 :: rest =>
      if (tw =? 0) || (th =? 0) then None
      else retile_vector tw th cot rot
             (retile_stroke tw th cot rot reseeds pt1 pt2) rest
  | [_] => None
  end.

(** The tiles [numk = 0, 1, ...] in turn. *)
Fixpoint retile_all (tw th cot rot : Z) (seeds : list (list Pt2i))
    (reseeds : list (list Pt2i)) (idx : list nat) : option (list (list Pt2i)) :=
  match idx with
  | [] => Some reseeds
  | numk :: rest =>
      v ← seeds !! numk;
      reseeds' ← retile_vector tw th cot rot reseeds v;
      retile_all tw th cot rot seeds reseeds' rest
  end.

(** [saveSeeds], the output file being open: the fields written, in
    order. *)
Definition saveSeeds (t : state) : option (list field) :=
  let rot := rowsOfTiles t in
  let cot := columnsOfTiles t in
  let half := isHalfSizeSeedsOn t in
  let vmw := if half then vm_width t * 2 else vm_width t in
  let vmh := if half then vm_height t * 2 else vm_height t in
  let vmc := if half then cot * 2 else cot in
  let vmr := if half then rot * 2 else rot in
  let vms := if half then F32.div (csize t) (F32.of_Z 2) else csize t in
  let header := [Int32 vmw; Int32 vmh; Float32 vms; Int32 vmc; Int32 vmr] in
  if half then
    if (2 * cot =? 0) || (2 * rot =? 0) then None
    else
      let tw := vm_width t ÷ (2 * cot) in
      let th := vm_height t ÷ (2 * rot) in
      reseeds ← retile_all tw th cot rot (out_seeds t)
                  (replicate (Z.to_nat (rot * cot * 4)) [])
                  (seq 0 (Z.to_nat rot * Z.to_nat cot));
      nb ← sum_sizes reseeds (seq 0 (Z.to_nat (cot * rot * 4)));
      body ← write_tiles reseeds (seq 0 (Z.to_nat (rot * 2) * Z.to_nat (cot * 2)));
      Some (header ++ Int32 nb :: body)
  else
    nb ← sum_sizes (out_seeds t) (seq 0 (Z.to_nat (cot * rot)));
    body ← write_tiles (out_seeds t) (tile_order (Z.to_nat rot) (Z.to_nat cot));
    Some (header ++ Int32 nb :: body).

(** The header of the file. *)
Definition header (t : state) : list field :=
  if isHalfSizeSeedsOn t
  then [Int32 (vm_width t * 2); Int32 (vm_height t * 2);
        Float32 (F32.div (csize t) (F32.of_Z 2));
        Int32 (columnsOfTiles t * 2); Int32 (rowsOfTiles t * 2)]
  else [Int32 (vm_width t); Int32 (vm_height t); Float32 (csize t);
        Int32 (columnsOfTiles t); Int32 (rowsOfTiles t)].

(** *** Seed file reader (AmrelTool::loadSeeds) *)

(** The tile a stroke is filed in, by its middle, the tile being clamped to
    the grid ([processSeeds] and [loadSeeds] alike):
    [tilex = ((pt1.x () + pt2.x ()) / 2) / tw;
     if (tilex < 0) tilex = 0; else if (tilex >= tsw) tilex = tsw - 1;]
    and so for [tiley]; the index is [tiley * tsw + tilex]. *)
Definition clamp_tile (tile ts : Z) : Z :=
  if tile <? 0 then 0 else if tile >=? ts then ts - 1 else tile.

Definition tile_index (tw th tsw tsh : Z) (pt1 pt2 : Pt2i) : Z :=
  let tilex := clamp_tile (((p2i_x pt1 + p2i_x pt2) ÷ 2) ÷ tw) tsw in
  let tiley := clamp_tile (((p2i_y pt1 + p2i_y pt2) ÷ 2) ÷ th) tsh in
  tiley * tsw + tilex.

(** [for (int i = 0; i < nb; i += 2)
      { Pt2i pt1 = *ppts++; Pt2i pt2 = *ppts++; ...
        out_seeds[tiley * tsw + tilex].push_back (pt1);
        out_seeds[tiley * tsw + tilex].push_back (pt2); }]
    over the [nb] points read.  No result for an odd [nb] (the second point
    is read past the array), for a division by a zero tile size, or for a
    tile index outside of the array. *)
Fixpoint file_strokes (tw th tsw tsh : Z) (pts : list Pt2i)
    (seeds : list (list Pt2i)) : option (list (list Pt2i)) :=
  match pts with
  | [] => Some seeds
  | pt1 :: pt2 :: rest =>
      if (tw =? 0) || (th =? 0) then None
      else
        let k := tile_index tw th tsw tsh pt1 pt2 in
        if (0 <=? k) && (k <? Z.of_nat (length seeds))
        then file_strokes tw th tsw tsh rest
               (alter (fun v => v ++ [pt1; pt2]) (Z.to_nat k) seeds)
        else None
  | [_] => None
  end.

(** [seeds_in.read ((char * ) pts, nb * sizeof (Pt2i))]: the [nb] points
    that follow the count; no result when the file holds fewer, or holds
    something else there. *)
Fixpoint read_points (nb : nat) (file : list field) : option (list Pt2i) :=
  match nb with
  | O => Some []
  | S nb' =>
      match file with
      | Point p :: file' => pts ← read_points nb' file'; Some (p :: pts)
      | _ => None
      end
  end.

(** [loadSeeds], the input file being open.  It sets the raster size, the
    cell size and the seeds; the tile grid of the point set and the
    configuration are not touched.  No result where the file does not start
    with the six header fields, for a negative count or array size
    ([new] throws), or for a division by zero. *)
Definition loadSeeds (t : state) (file : list field) : option state :=
  match file with
  | Int32 w :: Int32 h :: Float32 cs :: Int32 tsw :: Int32 tsh :: Int32 nb
    :: body =>
      if (nb <? 0) || (tsh * tsw <? 0) || (tsw =? 0) || (tsh =? 0) then None
      else
        pts ← read_points (Z.to_nat nb) body;
        seeds ← file_strokes (w ÷ tsw) (h ÷ tsh) tsw tsh pts
                  (replicate (Z.to_nat (tsh * tsw)) []);
        Some (mk w h cs (rowsOfTiles t) (columnsOfTiles t)
                 (isHalfSizeSeedsOn t) seeds)
  | _ => None
  end.

(** A stroke is well filed in tile [k] when [k] is the tile of its
    middle; a vector of points is, when its strokes are. *)
Fixpoint filed_in (tw th tsw tsh : Z) (k : nat) (v : list Pt2i) : Prop :=
  match v with
  | [] => True
  | pt1 :: pt2 :: rest =>
      tile_index tw th tsw tsh pt1 pt2 = Z.of_nat k /\
      filed_in tw th tsw tsh k rest
  | [_] => False
  end.

End Seeds.
(** ** Carriage-track detector (ctrackdetector.cpp)

    The detector works on classes whose sources are not at hand: [Plateau]
    and [PlateauModel], [CarriageTrack], [DirectionalScanner] with its
    provider [ScannerProvider], [IPtTileSet], and [std::sort].  Their
    operations are interfaces here; the detector is defined over any
    implementation of them. *)

(** [PlateauModel]: the settings the detector reads through [pfeat]. *)
Record PlateauModel := mkPlateauModel {
  startLength : spec_float;
  firstPlateauSearchDistance : spec_float;
  plateauSearchDistance : spec_float;
  isNetBuildOn : bool;
  tailMinSize : Z;
  isDeviationPredictionOn : bool;
  isSlopePredictionOn : bool }.

(** [Plateau].  A search operation stands for [new Plateau (&pfeat, shift)]
    followed by the call of [detect] or [track] on the new object, and
    gives the object with the returned success flag.  The other operations
    are the accessors and modifiers the detector calls. *)
Class PlateauOps (Plateau : Type) := {
  PLATEAU_RES_OK : Z;
  PLATEAU_RES_OPTIMAL_HEIGHT_UNDER_USED : Z;
  (** [detect (pts)] *)
  plateau_detect : PlateauModel -> Z -> list Pt2f -> bool * Plateau;
  (** [detect (pts, all, minheight)] *)
  plateau_detect_at :
    PlateauModel -> Z -> list Pt2f -> bool -> spec_float -> bool * Plateau;
  (** [track (pts, refs, refe, refh, shift, confdist)] *)
  plateau_track :
    PlateauModel -> Z -> list Pt2f ->
    spec_float -> spec_float -> spec_float -> spec_float -> Z -> bool * Plateau;
  (** [track (pts, ref, confdist, shift, length)], [ref] possibly null *)
  plateau_track_ref :
    PlateauModel -> Z -> list Pt2f ->
    option Plateau -> Z -> spec_float -> spec_float -> bool * Plateau;
  getStatus : Plateau -> Z;
  noOptimalHeight : Plateau -> bool;
  getMinHeight : Plateau -> spec_float;
  estimatedWidth : Plateau -> spec_float;
  estimatedCenter : Plateau -> spec_float;
  estimatedStart : Plateau -> spec_float;
  estimatedEnd : Plateau -> spec_float;
  internalStart : Plateau -> spec_float;
  internalEnd : Plateau -> spec_float;
  estimatedDeviation : Plateau -> spec_float;
  estimatedSlope : Plateau -> spec_float;
  bounded : Plateau -> bool;
  reliable : Plateau -> bool;
  possible : Plateau -> bool;
  consistentHeight : Plateau -> bool;
  consistentWidth : Plateau -> bool;
  hasEnoughPoints : Plateau -> bool;
  isAccepted : Plateau -> bool;
  impassable : Plateau -> bool;
  contains : Plateau -> spec_float -> bool;
  thinerThan : Plateau -> Plateau -> bool;
  fit : Plateau -> Plateau -> Plateau -> Z -> bool;
  isConnectedTo : Plateau -> Plateau -> bool;
  acceptResult : Plateau -> Plateau;
  accept : Plateau -> Plateau;
  setDeviation : Plateau -> spec_float -> Plateau;
  setSlope : Plateau -> spec_float -> Plateau }.

(** [DirectionalScanner]: a scan operation takes the vector to complete
    and gives the completed vector, whose size is the returned count
    ("adds points ... to given vector and returns its new size",
    vhscannero8.h). *)
Class ScannerOps (DS : Type) := {
  ds_first : DS -> list Pt2i -> list Pt2i;
  ds_nextOnLeft : DS -> list Pt2i -> DS * list Pt2i;
  ds_nextOnRight : DS -> list Pt2i -> DS * list Pt2i;
  ds_bindTo : DS -> Z -> Z -> Z -> DS;
  ds_releaseClearance : DS -> DS }.

(** [ScannerProvider] *)
Class ProviderOps (SP DS : Type) := {
  getScanner : SP -> Pt2i -> Pt2i -> bool -> SP * DS;
  isLastScanReversed : SP -> bool }.

(** [IPtTileSet::collectPoints (ptcl, x, y)]: the completed vector and
    the returned flag, false when the tile of the cell is not loaded. *)
Class TileSetOps (TS : Type) := {
  collectPoints : TS -> list Pt3f -> Z -> Z -> bool * list Pt3f }.

(** [std::sort (first, last, comp)]; the order it gives to equivalent
    elements is not specified. *)
Class SortOps := {
  std_sort : (Pt2f -> Pt2f -> bool) -> list Pt2f -> list Pt2f }.

(** Modelled from the spec: [CarriageTrack], whose source is not at hand,
    is "an ordered map from integer scan index (0 = central, negative =
    right side, positive = left side) to [Plateau]" that "keeps the seed
    stroke (two integer points + cell size)".  Each scan index holds the
    plateau with the display scan and, when profiles are recorded, the
    points it was found in. *)
Record TrackSection (Plateau : Type) := mkTrackSection {
  sec_plateau : Plateau;
  sec_scan : list Pt2i;
  sec_profile : option (list Pt2f) }.

Arguments mkTrackSection {Plateau} _ _ _.
Arguments sec_plateau {Plateau} _.
Arguments sec_scan {Plateau} _.
Arguments sec_profile {Plateau} _.

Record CarriageTrack (Plateau : Type) := mkCarriageTrack {
  ct_status : Z;
  ct_seed : option (Pt2i * Pt2i * spec_float);
  ct_reversed : bool;
  ct_central : option (TrackSection Plateau);
  ct_rights : list (TrackSection Plateau);
  ct_lefts : list (TrackSection Plateau) }.

Arguments mkCarriageTrack {Plateau} _ _ _ _ _ _.
Arguments ct_status {Plateau} _.
Arguments ct_seed {Plateau} _.
Arguments ct_reversed {Plateau} _.
Arguments ct_central {Plateau} _.
Arguments ct_rights {Plateau} _.
Arguments ct_lefts {Plateau} _.

(** The operations of [CarriageTrack] that are not determined by the
    description above, and its width constant. *)
Class TrackOps (Plateau : Type) := {
  CT_MAX_WIDTH : spec_float;
  (** [prune (tailMinSize)]: the pruned track, and whether nothing
      consistent is left *)
  ct_prune : CarriageTrack Plateau -> Z -> CarriageTrack Plateau * bool;
  relativeShiftLength : CarriageTrack Plateau -> spec_float;
  nbHoles : CarriageTrack Plateau -> Z;
  spread : CarriageTrack Plateau -> Z }.

Section CarriageTrackModel.
Context {Plateau : Type} `{!PlateauOps Plateau}.

Definition section_alter (f : Plateau -> Plateau)
    (s : TrackSection Plateau) : TrackSection Plateau :=
  mkTrackSection (f (sec_plateau s)) (sec_scan s) (sec_profile s).

(** Modelled from the spec: [new CarriageTrack ()], an empty map. *)
Definition ct_new : CarriageTrack Plateau :=
  mkCarriageTrack 0 None false None [] [].

(** Modelled from the spec: [setDetectionSeed (p1, p2, cellsize)]. *)
Definition ct_setDetectionSeed (ct : CarriageTrack Plateau)
    (p1 p2 : Pt2i) (cs : spec_float) : CarriageTrack Plateau :=
  mkCarriageTrack (ct_status ct) (Some (p1, p2, cs)) (ct_reversed ct)
                  (ct_central ct) (ct_rights ct) (ct_lefts ct).

(** Modelled from the spec: [setStatus (val)]. *)
Definition ct_setStatus (ct : CarriageTrack Plateau) (val : Z)
  : CarriageTrack Plateau :=
  mkCarriageTrack val (ct_seed ct) (ct_reversed ct)
                  (ct_central ct) (ct_rights ct) (ct_lefts ct).

(** Modelled from the spec: [start (pl, dispix, [pts,] reversed)] puts the
    central plateau at index 0. *)
Definition ct_start (ct : CarriageTrack Plateau) (pl : Plateau)
    (dispix : list Pt2i) (pts : option (list Pt2f)) (reversed : bool)
  : CarriageTrack Plateau :=
  mkCarriageTrack (ct_status ct) (ct_seed ct) reversed
                  (Some (mkTrackSection pl dispix pts)) (ct_rights ct) (ct_lefts ct).

(** Modelled from the spec: [clear (onright)] empties one side. *)
Definition ct_clear (ct : CarriageTrack Plateau) (onright : bool)
  : CarriageTrack Plateau :=
  mkCarriageTrack (ct_status ct) (ct_seed ct) (ct_reversed ct) (ct_central ct)
                  (if onright then [] else ct_rights ct)
                  (if onright then ct_lefts ct else []).

(** Modelled from the spec: [add (onright, pl, dispix [, pts])] puts the
    plateau at the next index of its side, [-1, -2, ...] on the right and
    [1, 2, ...] on the left. *)
Definition ct_add (ct : CarriageTrack Plateau) (onright : bool) (pl : Plateau)
    (dispix : list Pt2i) (pts : option (list Pt2f)) : CarriageTrack Plateau :=
  mkCarriageTrack (ct_status ct) (ct_seed ct) (ct_reversed ct) (ct_central ct)
    (if onright then ct_rights ct ++ [mkTrackSection pl dispix pts] else ct_rights ct)
    (if onright then ct_lefts ct else ct_lefts ct ++ [mkTrackSection pl dispix pts]).

(** Modelled from the spec: [plateau (num)], null where the map has no
    plateau. *)
Definition ct_plateau (ct : CarriageTrack Plateau) (num : Z) : option Plateau :=
  sec_plateau <$>
    (if num =? 0 then ct_central ct
     else if num <? 0 then ct_rights ct !! Z.to_nat (- num - 1)
     else ct_lefts ct !! Z.to_nat (num - 1)).

(** A modification of the plateau object held at index [num]: the track
    holds pointers, so that a modifier called on a plateau after it was
    added changes the plateau of the track. *)
Definition ct_modify (ct : CarriageTrack Plateau) (num : Z)
    (f : Plateau -> Plateau) : CarriageTrack Plateau :=
  mkCarriageTrack (ct_status ct) (ct_seed ct) (ct_reversed ct)
    (if num =? 0 then section_alter f <$> ct_central ct else ct_central ct)
    (if num <? 0 then alter (section_alter f) (Z.to_nat (- num - 1)) (ct_rights ct)
     else ct_rights ct)
    (if 0 <? num then alter (section_alter f) (Z.to_nat (num - 1)) (ct_lefts ct)
     else ct_lefts ct).

(** Modelled from the spec: [accept (num)] marks the plateau at index
    [num] as accepted. *)
Definition ct_accept (ct : CarriageTrack Plateau) (num : Z)
  : CarriageTrack Plateau := ct_modify ct num accept.

End CarriageTrackModel.

(** *** Constants of [CTrackDetector] *)

Definition RESULT_NONE : Z := 0.
Definition RESULT_OK : Z := 1.
Definition RESULT_FAIL_TOO_NARROW_INPUT : Z := -1.
Definition RESULT_FAIL_NO_AVAILABLE_SCAN : Z := -2.
Definition RESULT_FAIL_NO_CENTRAL_PLATEAU : Z := -3.
Definition RESULT_FAIL_NO_CONSISTENT_SEQUENCE : Z := -4.
Definition RESULT_FAIL_NO_BOUNDS : Z := -5.
Definition RESULT_FAIL_TOO_HECTIC_PLATEAUX : Z := -6.
Definition RESULT_FAIL_TOO_SPARSE_PLATEAUX : Z := -7.
Definition RESULT_FAIL_DISCONNECT : Z := -8.

Definition MAX_TRACK_WIDTH : spec_float := F32.of_Z 6.
Definition DEFAULT_PLATEAU_LACK_TOLERANCE : Z := 11.
Definition NOBOUNDS_TOLERANCE : Z := 10.
Definition INITIAL_TRACK_EXTENT : Z := 6.
Definition DEFAULT_POS_AND_HEIGHT_REGISTER_SIZE : Z := 8.
Definition DEFAULT_UNSTABILITY_REGISTER_SIZE : Z := 6.
Definition DEFAULT_MIN_DENSITY : Z := 60.
Definition DEFAULT_MAX_SHIFT_LENGTH : spec_float := F32.of_ratio 165 100.
Definition NB_SIDE_TRIALS : Z := 5.

(** *** The detector object *)

(** The members a detection only reads.  [ptset] is taken to be set
    ([setPointsGrid]). *)
Record Settings (TS : Type) := mkSettings {
  auto_p : bool;
  connect_on : bool;
  ptset : TS;
  subdiv : Z;
  csize : spec_float;
  profileRecordOn : bool;
  plateau_lack_tolerance : Z;
  initial_track_extent : Z;
  density_insensitive : bool;
  density_pruning : bool;
  min_density : Z;
  shift_length_pruning : bool;
  max_shift_length : spec_float;
  pfeat : PlateauModel;
  posht_nb : Z;
  unstab_nb : Z }.

Arguments mkSettings {TS} _ _ _ _ _ _ _ _ _ _ _ _ _ _ _ _.
Arguments auto_p {TS} _.
Arguments connect_on {TS} _.
Arguments ptset {TS} _.
Arguments subdiv {TS} _.
Arguments csize {TS} _.
Arguments profileRecordOn {TS} _.
Arguments plateau_lack_tolerance {TS} _.
Arguments initial_track_extent {TS} _.
Arguments density_insensitive {TS} _.
Arguments density_pruning {TS} _.
Arguments min_density {TS} _.
Arguments shift_length_pruning {TS} _.
Arguments max_shift_length {TS} _.
Arguments pfeat {TS} _.
Arguments posht_nb {TS} _.
Arguments unstab_nb {TS} _.

(** The members of [CTrackDetector] that a detection modifies, with its
    settings [cfg]. *)
Record Detector (Plateau SP TS : Type) := mkDetector {
  cfg : Settings TS;
  scanp : SP;
  discanp : SP;
  fct : option (CarriageTrack Plateau);
  fstatus : Z;
  ict : option (CarriageTrack Plateau);
  istatus : Z;
  lpok : list bool;
  lpos : list spec_float;
  lhok : list bool;
  lht : list spec_float;
  initial_ref : Z;
  initial_refs : spec_float;
  initial_refe : spec_float;
  initial_refh : spec_float;
  initial_unbounded : bool;
  spos : list spec_float;
  epos : list spec_float;
  spok : list bool;
  epok : list bool;
  ip1 : Pt2i;
  ip2 : Pt2i;
  fp1 : Pt2i;
  fp2 : Pt2i;
  out_count : Z }.

Arguments mkDetector {Plateau SP TS} _ _ _ _ _ _ _ _ _ _ _ _ _ _ _ _ _ _ _ _ _ _ _ _ _.
Arguments cfg {Plateau SP TS} _.
Arguments scanp {Plateau SP TS} _.
Arguments discanp {Plateau SP TS} _.
Arguments fct {Plateau SP TS} _.
Arguments fstatus {Plateau SP TS} _.
Arguments ict {Plateau SP TS} _.
Arguments istatus {Plateau SP TS} _.
Arguments lpok {Plateau SP TS} _.
Arguments lpos {Plateau SP TS} _.
Arguments lhok {Plateau SP TS} _.
Arguments lht {Plateau SP TS} _.
Arguments initial_ref {Plateau SP TS} _.
Arguments initial_refs {Plateau SP TS} _.
Arguments initial_refe {Plateau SP TS} _.
Arguments initial_refh {Plateau SP TS} _.
Arguments initial_unbounded {Plateau SP TS} _.
Arguments spos {Plateau SP TS} _.
Arguments epos {Plateau SP TS} _.
Arguments spok {Plateau SP TS} _.
Arguments epok {Plateau SP TS} _.
Arguments ip1 {Plateau SP TS} _.
Arguments ip2 {Plateau SP TS} _.
Arguments fp1 {Plateau SP TS} _.
Arguments fp2 {Plateau SP TS} _.
Arguments out_count {Plateau SP TS} _.

Section DetectorSetters.
Context {Plateau SP TS : Type}.
Implicit Type d : Detector Plateau SP TS.

Definition set_scanp d (v : SP) : Detector Plateau SP TS :=
  mkDetector (cfg d) v (discanp d) (fct d) (fstatus d) (ict d) (istatus d)
    (lpok d) (lpos d) (lhok d) (lht d) (initial_ref d) (initial_refs d)
    (initial_refe d) (initial_refh d) (initial_unbounded d) (spos d) (epos d)
    (spok d) (epok d) (ip1 d) (ip2 d) (fp1 d) (fp2 d) (out_count d).

Definition set_discanp d (v : SP) : Detector Plateau SP TS :=
  mkDetector (cfg d) (scanp d) v (fct d) (fstatus d) (ict d) (istatus d)
    (lpok d) (lpos d) (lhok d) (lht d) (initial_ref d) (initial_refs d)
    (initial_refe d) (initial_refh d) (initial_unbounded d) (spos d) (epos d)
    (spok d) (epok d) (ip1 d) (ip2 d) (fp1 d) (fp2 d) (out_count d).

Definition set_fct d (v : option (CarriageTrack Plateau)) : Detector Plateau SP TS :=
  mkDetector (cfg d) (scanp d) (discanp d) v (fstatus d) (ict d) (istatus d)
    (lpok d) (lpos d) (lhok d) (lht d) (initial_ref d) (initial_refs d)
    (initial_refe d) (initial_refh d) (initial_unbounded d) (spos d) (epos d)
    (spok d) (epok d) (ip1 d) (ip2 d) (fp1 d) (fp2 d) (out_count d).

Definition set_fstatus d (v : Z) : Detector Plateau SP TS :=
  mkDetector (cfg d) (scanp d) (discanp d) (fct d) v (ict d) (istatus d)
    (lpok d) (lpos d) (lhok d) (lht d) (initial_ref d) (initial_refs d)
    (initial_refe d) (initial_refh d) (initial_unbounded d) (spos d) (epos d)
    (spok d) (epok d) (ip1 d) (ip2 d) (fp1 d) (fp2 d) (out_count d).

Definition set_ict d (v : option (CarriageTrack Plateau)) : Detector Plateau SP TS :=
  mkDetector (cfg d) (scanp d) (discanp d) (fct d) (fstatus d) v (istatus d)
    (lpok d) (lpos d) (lhok d) (lht d) (initial_ref d) (initial_refs d)
    (initial_refe d) (initial_refh d) (initial_unbounded d) (spos d) (epos d)
    (spok d) (epok d) (ip1 d) (ip2 d) (fp1 d) (fp2 d) (out_count d).

Definition set_istatus d (v : Z) : Detector Plateau SP TS :=
  mkDetector (cfg d) (scanp d) (discanp d) (fct d) (fstatus d) (ict d) v
    (lpok d) (lpos d) (lhok d) (lht d) (initial_ref d) (initial_refs d)
    (initial_refe d) (initial_refh d) (initial_unbounded d) (spos d) (epos d)
    (spok d) (epok d) (ip1 d) (ip2 d) (fp1 d) (fp2 d) (out_count d).

Definition set_lpok d (v : list bool) : Detector Plateau SP TS :=
  mkDetector (cfg d) (scanp d) (discanp d) (fct d) (fstatus d) (ict d)
    (istatus d) v (lpos d) (lhok d) (lht d) (initial_ref d) (initial_refs d)
    (initial_refe d) (initial_refh d) (initial_unbounded d) (spos d) (epos d)
    (spok d) (epok d) (ip1 d) (ip2 d) (fp1 d) (fp2 d) (out_count d).

Definition set_lpos d (v : list spec_float) : Detector Plateau SP TS :=
  mkDetector (cfg d) (scanp d) (discanp d) (fct d) (fstatus d) (ict d)
    (istatus d) (lpok d) v (lhok d) (lht d) (initial_ref d) (initial_refs d)
    (initial_refe d) (initial_refh d) (initial_unbounded d) (spos d) (epos d)
    (spok d) (epok d) (ip1 d) (ip2 d) (fp1 d) (fp2 d) (out_count d).

Definition set_lhok d (v : list bool) : Detector Plateau SP TS :=
  mkDetector (cfg d) (scanp d) (discanp d) (fct d) (fstatus d) (ict d)
    (istatus d) (lpok d) (lpos d) v (lht d) (initial_ref d) (initial_refs d)
    (initial_refe d) (initial_refh d) (initial_unbounded d) (spos d) (epos d)
    (spok d) (epok d) (ip1 d) (ip2 d) (fp1 d) (fp2 d) (out_count d).

Definition set_lht d (v : list spec_float) : Detector Plateau SP TS :=
  mkDetector (cfg d) (scanp d) (discanp d) (fct d) (fstatus d) (ict d)
    (istatus d) (lpok d) (lpos d) (lhok d) v (initial_ref d) (initial_refs d)
    (initial_refe d) (initial_refh d) (initial_unbounded d) (spos d) (epos d)
    (spok d) (epok d) (ip1 d) (ip2 d) (fp1 d) (fp2 d) (out_count d).

Definition set_initial_ref d (v : Z) : Detector Plateau SP TS :=
  mkDetector (cfg d) (scanp d) (discanp d) (fct d) (fstatus d) (ict d)
    (istatus d) (lpok d) (lpos d) (lhok d) (lht d) v (initial_refs d)
    (initial_refe d) (initial_refh d) (initial_unbounded d) (spos d) (epos d)
    (spok d) (epok d) (ip1 d) (ip2 d) (fp1 d) (fp2 d) (out_count d).

Definition set_initial_refs d (v : spec_float) : Detector Plateau SP TS :=
  mkDetector (cfg d) (scanp d) (discanp d) (fct d) (fstatus d) (ict d)
    (istatus d) (lpok d) (lpos d) (lhok d) (lht d) (initial_ref d) v
    (initial_refe d) (initial_refh d) (initial_unbounded d) (spos d) (epos d)
    (spok d) (epok d) (ip1 d) (ip2 d) (fp1 d) (fp2 d) (out_count d).

Definition set_initial_refe d (v : spec_float) : Detector Plateau SP TS :=
  mkDetector (cfg d) (scanp d) (discanp d) (fct d) (fstatus d) (ict d)
    (istatus d) (lpok d) (lpos d) (lhok d) (lht d) (initial_ref d)
    (initial_refs d) v (initial_refh d) (initial_unbounded d) (spos d)
    (epos d) (spok d) (epok d) (ip1 d) (ip2 d) (fp1 d) (fp2 d) (out_count d).

Definition set_initial_refh d (v : spec_float) : Detector Plateau SP TS :=
  mkDetector (cfg d) (scanp d) (discanp d) (fct d) (fstatus d) (ict d)
    (istatus d) (lpok d) (lpos d) (lhok d) (lht d) (initial_ref d)
    (initial_refs d) (initial_refe d) v (initial_unbounded d) (spos d)
    (epos d) (spok d) (epok d) (ip1 d) (ip2 d) (fp1 d) (fp2 d) (out_count d).

Definition set_initial_unbounded d (v : bool) : Detector Plateau SP TS :=
  mkDetector (cfg d) (scanp d) (discanp d) (fct d) (fstatus d) (ict d)
    (istatus d) (lpok d) (lpos d) (lhok d) (lht d) (initial_ref d)
    (initial_refs d) (initial_refe d) (initial_refh d) v (spos d) (epos d)
    (spok d) (epok d) (ip1 d) (ip2 d) (fp1 d) (fp2 d) (out_count d).

Definition set_spos d (v : list spec_float) : Detector Plateau SP TS :=
  mkDetector (cfg d) (scanp d) (discanp d) (fct d) (fstatus d) (ict d)
    (istatus d) (lpok d) (lpos d) (lhok d) (lht d) (initial_ref d)
    (initial_refs d) (initial_refe d) (initial_refh d) (initial_unbounded d) v
    (epos d) (spok d) (epok d) (ip1 d) (ip2 d) (fp1 d) (fp2 d) (out_count d).

Definition set_epos d (v : list spec_float) : Detector Plateau SP TS :=
  mkDetector (cfg d) (scanp d) (discanp d) (fct d) (fstatus d) (ict d)
    (istatus d) (lpok d) (lpos d) (lhok d) (lht d) (initial_ref d)
    (initial_refs d) (initial_refe d) (initial_refh d) (initial_unbounded d)
    (spos d) v (spok d) (epok d) (ip1 d) (ip2 d) (fp1 d) (fp2 d) (out_count d).

Definition set_spok d (v : list bool) : Detector Plateau SP TS :=
  mkDetector (cfg d) (scanp d) (discanp d) (fct d) (fstatus d) (ict d)
    (istatus d) (lpok d) (lpos d) (lhok d) (lht d) (initial_ref d)
    (initial_refs d) (initial_refe d) (initial_refh d) (initial_unbounded d)
    (spos d) (epos d) v (epok d) (ip1 d) (ip2 d) (fp1 d) (fp2 d) (out_count d).

Definition set_epok d (v : list bool) : Detector Plateau SP TS :=
  mkDetector (cfg d) (scanp d) (discanp d) (fct d) (fstatus d) (ict d)
    (istatus d) (lpok d) (lpos d) (lhok d) (lht d) (initial_ref d)
    (initial_refs d) (initial_refe d) (initial_refh d) (initial_unbounded d)
    (spos d) (epos d) (spok d) v (ip1 d) (ip2 d) (fp1 d) (fp2 d) (out_count d).

Definition set_ip1 d (v : Pt2i) : Detector Plateau SP TS :=
  mkDetector (cfg d) (scanp d) (discanp d) (fct d) (fstatus d) (ict d)
    (istatus d) (lpok d) (lpos d) (lhok d) (lht d) (initial_ref d)
    (initial_refs d) (initial_refe d) (initial_refh d) (initial_unbounded d)
    (spos d) (epos d) (spok d) (epok d) v (ip2 d) (fp1 d) (fp2 d)
    (out_count d).

Definition set_ip2 d (v : Pt2i) : Detector Plateau SP TS :=
  mkDetector (cfg d) (scanp d) (discanp d) (fct d) (fstatus d) (ict d)
    (istatus d) (lpok d) (lpos d) (lhok d) (lht d) (initial_ref d)
    (initial_refs d) (initial_refe d) (initial_refh d) (initial_unbounded d)
    (spos d) (epos d) (spok d) (epok d) (ip1 d) v (fp1 d) (fp2 d)
    (out_count d).

Definition set_fp1 d (v : Pt2i) : Detector Plateau SP TS :=
  mkDetector (cfg d) (scanp d) (discanp d) (fct d) (fstatus d) (ict d)
    (istatus d) (lpok d) (lpos d) (lhok d) (lht d) (initial_ref d)
    (initial_refs d) (initial_refe d) (initial_refh d) (initial_unbounded d)
    (spos d) (epos d) (spok d) (epok d) (ip1 d) (ip2 d) v (fp2 d)
    (out_count d).

Definition set_fp2 d (v : Pt2i) : Detector Plateau SP TS :=
  mkDetector (cfg d) (scanp d) (discanp d) (fct d) (fstatus d) (ict d)
    (istatus d) (lpok d) (lpos d) (lhok d) (lht d) (initial_ref d)
    (initial_refs d) (initial_refe d) (initial_refh d) (initial_unbounded d)
    (spos d) (epos d) (spok d) (epok d) (ip1 d) (ip2 d) (fp1 d) v
    (out_count d).

Definition set_out_count d (v : Z) : Detector Plateau SP TS :=
  mkDetector (cfg d) (scanp d) (discanp d) (fct d) (fstatus d) (ict d)
    (istatus d) (lpok d) (lpos d) (lhok d) (lht d) (initial_ref d)
    (initial_refs d) (initial_refe d) (initial_refh d) (initial_unbounded d)
    (spos d) (epos d) (spok d) (epok d) (ip1 d) (ip2 d) (fp1 d) (fp2 d) v.

End DetectorSetters.

Section DetectorModel.
Context {Plateau DS SP TS : Type}.
Context `{!PlateauOps Plateau} `{!TrackOps Plateau} `{!ScannerOps DS}.
Context `{!ProviderOps SP DS} `{!TileSetOps TS} {sorting : SortOps}.

Local Abbreviation Det := (Detector Plateau SP TS).
Local Abbreviation Track := (CarriageTrack Plateau).

(** [clear] *)
Definition clear (d : Det) : Det :=
  set_istatus (set_ict (set_fstatus (set_fct d None) RESULT_NONE) None) RESULT_NONE.

(** [getInputStroke (p1, p2, initial)]: the input stroke [ip1, ip2] of an
    initial detection, the final stroke [fp1, fp2] otherwise. *)
Definition getInputStroke (d : Det) (initial : bool) : Pt2i * Pt2i :=
  if initial then (ip1 d, ip2 d) else (fp1 d, fp2 d).

(** The track a detection works on: [exlimit != 0 ? ict : fct]. *)
Definition get_track (initial : bool) (d : Det) : option Track :=
  if initial then ict d else fct d.

Definition put_track (initial : bool) (d : Det) (ct : Track) : Det :=
  if initial then set_ict d (Some ct) else set_fct d (Some ct).

(** [if (exlimit != 0) istatus = val; else fstatus = val;] *)
Definition set_status (initial : bool) (d : Det) (val : Z) : Det :=
  if initial then set_istatus d val else set_fstatus d val.

(** [Vr2f p12 (csize * (p2.x () - p1.x ()), csize * (p2.y () - p1.y ()))] *)
Definition stroke_vector (cs : spec_float) (p1 p2 : Pt2i) : Vr2f :=
  mkVr2f (F32.mul cs (F32.of_Z (p2i_x p2 - p2i_x p1)))
         (F32.mul cs (F32.of_Z (p2i_y p2 - p2i_y p1))).

(** [(float) sqrt (p12.x () * p12.x () + p12.y () * p12.y ())] *)
Definition stroke_length (p12 : Vr2f) : spec_float :=
  F32.sqrt (F32.add (F32.mul (v2f_x p12) (v2f_x p12))
                    (F32.mul (v2f_y p12) (v2f_y p12))).

(** [Pt2f p1f (csize * (p1.x () + 0.5f), csize * (p1.y () + 0.5f))] *)
Definition stroke_origin (cs : spec_float) (p1 : Pt2i) : Pt2f :=
  mkPt2f (F32.mul cs (F32.add (F32.of_Z (p2i_x p1)) F32.half))
         (F32.mul cs (F32.add (F32.of_Z (p2i_y p1)) F32.half)).

(** [Vr2i dss_n (p1.vectorTo (p2)); if (dss_n.x () < 0) dss_n.invert ();] *)
Definition stroke_normal (p1 p2 : Pt2i) : Vr2i :=
  let n := Pt2i_vectorTo p1 p2 in
  if v2i_x n <? 0 then Vr2i_invert n else n.

(** The shift of the central scan:
    [dss_pos (p1.x () + (p2.x () - p1.x ()) * 0.5f, ...)],
    [valc = dss_n.x () * dss_pos.x () + dss_n.y () * dss_pos.y ()],
    [(int) (valc < 0.0f ? valc - 0.5f : valc + 0.5f)]. *)
Definition central_shift (p1 p2 : Pt2i) : Z :=
  let posx := F32.add (F32.of_Z (p2i_x p1))
                (F32.mul (F32.of_Z (p2i_x p2 - p2i_x p1)) F32.half) in
  let posy := F32.add (F32.of_Z (p2i_y p1))
                (F32.mul (F32.of_Z (p2i_y p2 - p2i_y p1)) F32.half) in
  let n := stroke_normal p1 p2 in
  F32.round_to_int (F32.add (F32.mul (F32.of_Z (v2i_x n)) posx)
                            (F32.mul (F32.of_Z (v2i_y n)) posy)).

(** [compIFurther (p1, p2)] *)
Definition milli (x : spec_float) : spec_float :=
  F32.floor64 (F32.to_double (F32.mul x (F32.of_Z 1000))).

Definition compIFurther (p1 p2 : Pt2f) : bool :=
  SFltb (milli (p2f_x p1)) (milli (p2f_x p2))
  || (SFeqb (milli (p2f_x p2)) (milli (p2f_x p1))
      && SFltb (milli (p2f_y p1)) (milli (p2f_y p2))).

(** One point of a scan, by its position along the stroke and its height:
    [Vr2f pcl (pit->x () - p1f.x (), pit->y () - p1f.y ());
     Pt2f (pcl.scalarProduct (p12) / l12, pit->z ())] *)
Definition project_point (p1f : Pt2f) (p12 : Vr2f) (l12 : spec_float)
    (pit : Pt3f) : Pt2f :=
  let pcl := mkVr2f (F32.sub (p3f_x pit) (p2f_x p1f))
                    (F32.sub (p3f_y pit) (p2f_y p1f)) in
  mkPt2f (F32.div (Vr2f_scalarProduct pcl p12) l12) (p3f_z pit).

(** "Gets ... scanned points": the loop over the pixels of a scan,
    [if (! ptset->collectPoints (ptcl, it->x (), it->y ())) out_count ++;]
    then the loop over [ptcl]. *)
Fixpoint collect_scan (ts : TS) (p1f : Pt2f) (p12 : Vr2f) (l12 : spec_float)
    (pix : list Pt2i) (pts : list Pt2f) (out : Z) : list Pt2f * Z :=
  match pix with
  | [] => (pts, out)
  | it :: rest =>
      let '(loaded, ptcl) := collectPoints ts [] (p2i_x it) (p2i_y it) in
      collect_scan ts p1f p12 l12 rest
        (pts ++ map (project_point p1f p12 l12) ptcl)
        (if loaded then out else out + 1)
  end.

Definition collect (d : Det) (p1f : Pt2f) (p12 : Vr2f) (l12 : spec_float)
    (pix : list Pt2i) : list Pt2f * Det :=
  let '(pts, out) :=
    collect_scan (ptset (cfg d)) p1f p12 l12 pix [] (out_count d) in
  (pts, set_out_count d out).

(** Cells of the register arrays; a read outside of an array is undefined
    in C++ and gives the default here. *)
Definition ok_cell (l : list bool) (i : Z) : bool :=
  default false (l !! Z.to_nat i).

Definition val_cell (l : list spec_float) (i : Z) : spec_float :=
  default F32.zero (l !! Z.to_nat i).

(** [resetRegisters (ok, pos, ht)]; the arrays keep their allocated sizes
    [posht_nb] and [unstab_nb]. *)
Definition resetRegisters (d : Det) (ok : bool) (pos ht : spec_float) : Det :=
  let d := set_spos d (replicate (length (spos d)) F32.zero) in
  let d := set_epos d (replicate (length (epos d)) F32.zero) in
  let d := set_spok d (replicate (length (spok d)) false) in
  let d := set_epok d (replicate (length (epok d)) false) in
  let d := set_lpok d (<[0%nat := ok]> (replicate (length (lpok d)) false)) in
  let d := set_lpos d (<[0%nat := pos]> (replicate (length (lpos d)) F32.zero)) in
  let d := set_lhok d (<[0%nat := ok]> (replicate (length (lhok d)) false)) in
  set_lht d (<[0%nat := ht]> (replicate (length (lht d)) F32.zero)).

(** First loop of [updatePosition] and [updateHeight], from [i] down to 1:
    [oks[i] = oks[i-1]; vals[i] = vals[i-1];
     if (oks[i]) { if (nbok != 0) last = i; else first = i; nbok ++; }] *)
Fixpoint register_shift (i : nat) (oks : list bool) (vals : list spec_float)
    (nbok last first : Z) : list bool * list spec_float * (Z * Z * Z) :=
  match i with
  | O => (oks, vals, (nbok, last, first))
  | S j =>
      let oks' := <[i := ok_cell oks (Z.of_nat j)]> oks in
      let vals' := <[i := val_cell vals (Z.of_nat j)]> vals in
      if ok_cell oks' (Z.of_nat i)
      then register_shift j oks' vals' (nbok + 1)
             (if nbok =? 0 then last else Z.of_nat i)
             (if nbok =? 0 then Z.of_nat i else first)
      else register_shift j oks' vals' nbok last first
  end.

(** Last loop, on [i = last + k] down to [last + 1], and the final
    [return]. *)
Fixpoint register_trend (k : nat) (oks : list bool) (vals : list spec_float)
    (last : Z) (trend dtrend : spec_float) (last2 : Z) : spec_float :=
  match k with
  | O => F32.div (F32.sub (val_cell vals last) (val_cell vals last2))
                 (F32.of_Z (last2 - last))
  | S k' =>
      let i := last + Z.of_nat k in
      if ok_cell oks i then
        let slope := F32.sub (F32.div (F32.sub (val_cell vals last) (val_cell vals i))
                                      (F32.of_Z (i - last))) trend in
        if F32.eq dtrend F32.zero
        then register_trend k' oks vals last trend slope i
        else if F32.lt (F32.mul slope dtrend) F32.zero
             then trend
             else register_trend k' oks vals last trend dtrend i
      else register_trend k' oks vals last trend dtrend last2
  end.

(** The body shared by [updatePosition (ok, pos)] and
    [updateHeight (ok, ht)], on the registers [(lpok, lpos)] and
    [(lhok, lht)]: the new registers and the returned trend. *)
Definition update_register (nb : Z) (oks : list bool) (vals : list spec_float)
    (ok : bool) (v : spec_float) : list bool * list spec_float * spec_float :=
  let '(oks, vals, (nbok, last, first)) :=
    register_shift (Z.to_nat (nb - 1)) oks vals 0 (-1) (-1) in
  let oks := <[0%nat := ok]> oks in
  let vals := <[0%nat := v]> vals in
  let '(nbok, last, first) :=
    if ok then (nbok + 1, (if nbok =? 0 then last else 0),
                (if nbok =? 0 then 0 else first))
    else (nbok, last, first) in
  if nbok <=? 1 then (oks, vals, F32.zero)
  else
    let trend := F32.div (F32.sub (val_cell vals last) (val_cell vals first))
                         (F32.of_Z (first - last)) in
    if nbok =? 2 then (oks, vals, trend)
    else (oks, vals,
          register_trend (Z.to_nat (first - 1 - last)) oks vals last
                         trend F32.zero (-1)).

Definition updatePosition (d : Det) (ok : bool) (pos : spec_float)
  : spec_float * Det :=
  let '(oks, vals, r) :=
    update_register (posht_nb (cfg d)) (lpok d) (lpos d) ok pos in
  (r, set_lpos (set_lpok d oks) vals).

Definition updateHeight (d : Det) (ok : bool) (ht : spec_float)
  : spec_float * Det :=
  let '(oks, vals, r) :=
    update_register (posht_nb (cfg d)) (lhok d) (lht d) ok ht in
  (r, set_lht (set_lhok d oks) vals).

(** *** Side walks: [track] *)

(** "Detects the plateau" of one scan: the candidates constructed, in
    order, and the one that is kept.
    [pl->track (pts, refs, refe, refh, 0.0f, confdist);
     if (pl->getStatus () != PLATEAU_RES_OK) { pl2 ... plateauSearchDistance
       if (pl2->getStatus () != PLATEAU_RES_OK) { delete pl2; pl3 ... - plateauSearchDistance
         if (pl3->getStatus () != PLATEAU_RES_OK) delete pl3;
         else { delete pl; pl = pl3; } }
       else { delete pl; pl = pl2; } }] *)
Definition track_candidate (pm : PlateauModel) (scan_shift : Z)
    (pts : list Pt2f) (refs refe refh : spec_float) (confdist : Z)
    (shift : spec_float) : Plateau :=
  snd (plateau_track pm scan_shift pts refs refe refh shift confdist).

Definition select_plateau (pm : PlateauModel) (scan_shift : Z)
    (pts : list Pt2f) (refs refe refh : spec_float) (confdist : Z)
  : Plateau * list Plateau :=
  let trial := track_candidate pm scan_shift pts refs refe refh confdist in
  let pl := trial F32.zero in
  if negb (getStatus pl =? PLATEAU_RES_OK) then
    let pl2 := trial (plateauSearchDistance pm) in
    if negb (getStatus pl2 =? PLATEAU_RES_OK) then
      let pl3 := trial (F32.opp (plateauSearchDistance pm)) in
      if negb (getStatus pl3 =? PLATEAU_RES_OK)
      then (pl, [pl; pl2; pl3])
      else (pl3, [pl; pl2; pl3])
    else (pl2, [pl; pl2])
  else (pl, [pl]).

(** The local variables of [track] that change along the walk, with the
    two scanners and the detector. *)
Record Walk := mkWalk {
  w_search : bool;
  w_nbfail : Z;
  w_num : Z;
  w_confdist : Z;
  w_refs : spec_float;
  w_refe : spec_float;
  w_refh : spec_float;
  w_ds : DS;
  w_disp : DS;
  w_det : Det }.

(** "Adaptive scan recentering on reference pattern": the shift bound to
    the scanners, from the centre [pcenter] of the reference. *)
Definition recentred_shift (cs : spec_float) (ss_p1 : Pt2i) (ss_p12 : Vr2i)
    (ss_l12 : spec_float) (dss_n : Vr2i) (pcenter : spec_float) : Z :=
  let posx := F32.add (F32.of_Z (p2i_x ss_p1))
                (F32.div (F32.mul (F32.div (F32.of_Z (v2i_x ss_p12)) ss_l12) pcenter) cs) in
  let posy := F32.add (F32.of_Z (p2i_y ss_p1))
                (F32.div (F32.mul (F32.div (F32.of_Z (v2i_y ss_p12)) ss_l12) pcenter) cs) in
  F32.round_to_int (F32.add (F32.mul (F32.of_Z (v2i_x dss_n)) posx)
                            (F32.mul (F32.of_Z (v2i_y dss_n)) posy)).

(** [for (int i = 0; search && i < subdiv; i++)
      if (ds->next... (pix) == 0) search = false;] *)
Fixpoint sub_scans (n : nat) (next : DS -> list Pt2i -> DS * list Pt2i)
    (ds : DS) (pix : list Pt2i) (search : bool) : DS * list Pt2i * bool :=
  match n with
  | O => (ds, pix, search)
  | S n' =>
      if search then
        let '(ds', pix') := next ds pix in
        sub_scans n' next ds' pix' (negb (Z.of_nat (length pix') =? 0))
      else (ds, pix, search)
  end.

(** "Collects next scan points": both scanners rebound and advanced, the
    display scan, the pixels of the point-cloud scans, and [search]. *)
Definition next_scans (c : Settings TS) (onright reversed : bool)
    (dss_n : Vr2i) (scan_shift : Z) (ds disp : DS)
  : DS * DS * list Pt2i * list Pt2i * bool :=
  let disp := ds_bindTo disp (v2i_x dss_n) (v2i_y dss_n) scan_shift in
  let ds := ds_bindTo ds (v2i_x dss_n) (v2i_y dss_n)
                      (scan_shift * subdiv c + subdiv c ÷ 2) in
  let rightward := (onright && negb reversed) || (reversed && negb onright) in
  let next := if rightward then ds_nextOnRight else ds_nextOnLeft in
  let '(disp, dispix) := next disp [] in
  match dispix with
  | [] => (ds, disp, [], dispix, false)
  | _ :: _ =>
      let '(ds, pix, search) := sub_scans (Z.to_nat (subdiv c)) next ds [] true in
      (ds, disp, pix, dispix, search)
  end.

(** "Ends tracking after a given amount of failures (point lacks apart)". *)
Definition lack_update (c : Settings TS) (pl : Plateau) (nbfail : Z)
    (search : bool) : Z * bool :=
  if getStatus pl =? PLATEAU_RES_OK then (0, search)
  else if density_insensitive c || hasEnoughPoints pl
       then (nbfail + 1,
             if nbfail + 1 >=? plateau_lack_tolerance c then false else search)
       else (nbfail, search).

(** "Manages start bounds setting", standard version. *)
Definition bounds_update (initial : bool) (num : Z) (pl : Plateau)
    (search : bool) (ct : Track) (d : Det) : bool * Track * Det :=
  if search && initial_unbounded d then
    if bounded pl && isAccepted pl then
      (search, ct,
       set_initial_refe
         (set_initial_refs (set_initial_unbounded d false) (internalStart pl))
         (internalEnd pl))
    else if (num =? NOBOUNDS_TOLERANCE) || (num =? - NOBOUNDS_TOLERANCE) then
      (false, ct_setStatus ct RESULT_FAIL_NO_BOUNDS,
       set_status initial d RESULT_FAIL_NO_BOUNDS)
    else (search, ct, d)
  else (search, ct, d).

(** "Estimates deviation and slope": the plateau with both set, and the
    registers updated. *)
Definition estimate_trends (pl : Plateau) (d : Det) : Plateau * Det :=
  let '(dev, d) := updatePosition d (possible pl) (estimatedCenter pl) in
  let pl := setDeviation pl dev in
  let '(slo, d) := updateHeight d (consistentHeight pl) (getMinHeight pl) in
  (setSlope pl slo, d).

(** "Updates reference pattern for next plateau detection". *)
Definition next_reference (pm : PlateauModel) (pl : Plateau)
    (refs refe refh : spec_float) : spec_float * spec_float * spec_float :=
  let refs := if possible pl then estimatedStart pl else refs in
  let refe := if possible pl then estimatedEnd pl else refe in
  let shifted := isDeviationPredictionOn pm || negb (possible pl) in
  let refs := if shifted then F32.add refs (estimatedDeviation pl) else refs in
  let refe := if shifted then F32.add refe (estimatedDeviation pl) else refe in
  let refh := if consistentHeight pl then getMinHeight pl else refh in
  let refh := if isSlopePredictionOn pm || negb (consistentHeight pl)
              then F32.add refh (estimatedSlope pl) else refh in
  (refs, refe, refh).

(** [for (int i = 1; i < confdist; i ++)
      { int locnum = (num < 0 ? num + i : num - i); lpl = ct->plateau (locnum);
        if (lpl->contains (c1 + dc * i)) ct->accept (locnum); }],
    [k] iterations from [i]. *)
Fixpoint accept_between (k : nat) (i : Z) (num : Z) (c1 dc : spec_float)
    (ct : Track) : option Track :=
  match k with
  | O => Some ct
  | S k' =>
      let locnum := if num <? 0 then num + i else num - i in
      lpl ← ct_plateau ct locnum;
      accept_between k' (i + 1) num c1 dc
        (if contains lpl (F32.add c1 (F32.mul dc (F32.of_Z i)))
         then ct_accept ct locnum else ct)
  end.

(** "Conditionally accepts the plateau and former consistent ones",
    standard version: the track and the new [confdist]. *)
Definition accept_update (num confdist : Z) (ct : Track) : option (Track * Z) :=
  pl ← ct_plateau ct num;
  if (getStatus pl =? PLATEAU_RES_OK) && reliable pl then
    let ct := ct_accept ct num in
    pl ← ct_plateau ct num;
    let c1 := estimatedCenter pl in
    lpl ← ct_plateau ct (if num <? 0 then num + confdist else num - confdist);
    let dc := F32.div (F32.sub (estimatedCenter lpl) c1) (F32.of_Z confdist) in
    ct ← accept_between (Z.to_nat (confdist - 1)) 1 num c1 dc ct;
    Some (ct, 1)
  else Some (ct, confdist + 1).

(** The work of one iteration when the scan has pixels ([pix] not empty),
    in the order of the source: points, plateau, [ct->add], failure count,
    start bounds, trends and reference, acceptance. *)
Definition track_scan (onright : bool) (initial : bool)
    (p1f : Pt2f) (p12 : Vr2f) (l12 : spec_float) (scan_shift : Z)
    (pix dispix : list Pt2i) (search : bool) (w : Walk)
  : option (bool * Z * Z * (spec_float * spec_float * spec_float) * Det) :=
  let c := cfg (w_det w) in
  let num := w_num w in
  let '(pts, d) := collect (w_det w) p1f p12 l12 pix in
  let pts := std_sort compIFurther pts in
  let pl := fst (select_plateau (pfeat c) scan_shift pts
                   (w_refs w) (w_refe w) (w_refh w) (w_confdist w)) in
  ct ← get_track initial d;
  let ct := ct_add ct onright pl dispix
                   (if profileRecordOn c then Some pts else None) in
  let '(nbfail, search) := lack_update c pl (w_nbfail w) search in
  let '(search, ct, d) := bounds_update initial num pl search ct d in
  let '(pl, refs, d) :=
    if search then
      let '(pl, d) := estimate_trends pl d in
      (pl, next_reference (pfeat c) pl (w_refs w) (w_refe w) (w_refh w), d)
    else (pl, (w_refs w, w_refe w, w_refh w), d) in
  let ct := ct_modify ct num (fun _ => pl) in
  '(ct, confdist) ← accept_update num (w_confdist w) ct;
  Some (search, nbfail, confdist, refs, put_track initial d ct).

(** The body of the loop of [track]. *)
Definition track_step (onright reversed : bool) (exlimit : Z)
    (p1f : Pt2f) (p12 : Vr2f) (l12 : spec_float)
    (ss_p1 : Pt2i) (ss_p12 : Vr2i) (ss_l12 : spec_float) (dss_n : Vr2i)
    (w : Walk) : option Walk :=
  let c := cfg (w_det w) in
  let initial := negb (exlimit =? 0) in
  let pcenter := F32.div (F32.add (w_refs w) (w_refe w)) (F32.of_Z 2) in
  let scan_shift := recentred_shift (csize c) ss_p1 ss_p12 ss_l12 dss_n pcenter in
  let '(ds, disp, pix, dispix, search) :=
    next_scans c onright reversed dss_n scan_shift (w_ds w) (w_disp w) in
  let num' := w_num w + (if onright then -1 else 1) in
  match pix with
  | [] =>
      Some (mkWalk false (w_nbfail w) num' (w_confdist w)
                   (w_refs w) (w_refe w) (w_refh w) ds disp (w_det w))
  | _ :: _ =>
      '(search, nbfail, confdist, refs, d) ←
        track_scan onright initial p1f p12 l12 scan_shift pix dispix search w;
      let '(refs, refe, refh) := refs in
      Some (mkWalk search nbfail num' confdist refs refe refh ds disp d)
  end.

(** [while (search && num != exlimit) { ... }] *)
Fixpoint track_loop (fuel : nat) (onright reversed : bool) (exlimit : Z)
    (p1f : Pt2f) (p12 : Vr2f) (l12 : spec_float)
    (ss_p1 : Pt2i) (ss_p12 : Vr2i) (ss_l12 : spec_float) (dss_n : Vr2i)
    (w : Walk) : option Walk :=
  if w_search w && negb (w_num w =? exlimit) then
    match fuel with
    | O => None
    | S fuel' =>
        w' ← track_step onright reversed exlimit p1f p12 l12
                        ss_p1 ss_p12 ss_l12 dss_n w;
        track_loop fuel' onright reversed exlimit p1f p12 l12
                   ss_p1 ss_p12 ss_l12 dss_n w'
    end
  else Some w.

(** [track (onright, reversed, exlimit, ds, disp, p1f, p12, l12,
           refs, refe, refh)]: the scanners and the detector after the
    walk. *)
Definition track (fuel : nat) (onright reversed : bool) (exlimit : Z)
    (ds disp : DS) (p1f : Pt2f) (p12 : Vr2f) (l12 : spec_float)
    (refs refe refh : spec_float) (d : Det) : option (DS * DS * Det) :=
  let num := if onright then -1 else 1 in
  let exlimit := if onright then - exlimit else exlimit in
  let initial := negb (exlimit =? 0) in
  ct ← get_track initial d;
  let d := put_track initial d (ct_clear ct onright) in
  let '(ss_p1, ss_p2) := getInputStroke d initial in
  let ss_p12 := Pt2i_vectorTo ss_p1 ss_p2 in
  let ss_l12 := F32.sqrt_of_int (Vr2i_norm2 ss_p12) in
  let dss_n := if v2i_x ss_p12 <? 0 then Vr2i_invert ss_p12 else ss_p12 in
  w ← track_loop fuel onright reversed exlimit p1f p12 l12
                 ss_p1 ss_p12 ss_l12 dss_n
                 (mkWalk true 0 num 1 refs refe refh ds disp d);
  Some (w_ds w, w_disp w, w_det w).

(** *** Side walks, AMRELnet version: [track (..., Plateau *ref)] *)

(** [retests[2 * i] = dist * (i + 1); retests[2 * i + 1] = - dist * (i + 1);]
    for [i] from 0 to [NB_SIDE_TRIALS - 1]. *)
Definition side_shifts (dist : spec_float) : list spec_float :=
  flat_map (fun i => [F32.mul dist (F32.of_Z (Z.of_nat i + 1));
                      F32.mul (F32.opp dist) (F32.of_Z (Z.of_nat i + 1))])
           (seq 0 (Z.to_nat NB_SIDE_TRIALS)).

(** [for (int i = 0; tracking && i < NB_SIDE_TRIALS * 2; i++)
      { pl2->track (pts, ref, confdist, retests[i], 0.0f);
        if (pl2->getStatus () > pl->getStatus ())
          { delete pl; pl = pl2;
            if (pl->getStatus () == PLATEAU_RES_OK) tracking = false; }
        else delete pl2; }] *)
Fixpoint net_retries (pm : PlateauModel) (scan_shift : Z) (pts : list Pt2f)
    (ref : Plateau) (confdist : Z) (retests : list spec_float)
    (pl : Plateau) : Plateau :=
  match retests with
  | [] => pl
  | shift :: rest =>
      let pl2 := snd (plateau_track_ref pm scan_shift pts (Some ref) confdist
                                        shift F32.zero) in
      if getStatus pl2 >? getStatus pl then
        if getStatus pl2 =? PLATEAU_RES_OK then pl2
        else net_retries pm scan_shift pts ref confdist rest pl2
      else net_retries pm scan_shift pts ref confdist rest pl
  end.

Definition net_select_plateau (pm : PlateauModel) (scan_shift : Z)
    (pts : list Pt2f) (ref : Plateau) (confdist : Z) : Plateau :=
  let pl := snd (plateau_track_ref pm scan_shift pts (Some ref) confdist
                                   F32.zero F32.zero) in
  if negb (getStatus pl =? PLATEAU_RES_OK)
  then net_retries pm scan_shift pts ref confdist
                   (side_shifts (plateauSearchDistance pm)) pl
  else pl.

(** "Manages start bounds setting", AMRELnet version. *)
Definition net_bounds_update (initial : bool) (num : Z) (pl : Plateau)
    (search : bool) (ct : Track) (d : Det) : bool * Track * Det :=
  if search && initial_unbounded d then
    if bounded pl && isAccepted pl then
      (search, ct, set_initial_ref (set_initial_unbounded d false) num)
    else if (num =? NOBOUNDS_TOLERANCE) || (num =? - NOBOUNDS_TOLERANCE) then
      (false, ct_setStatus ct RESULT_FAIL_NO_BOUNDS,
       set_status initial d RESULT_FAIL_NO_BOUNDS)
    else (search, ct, d)
  else (search, ct, d).

(** [while (cleaning && cdist != 1)
      { locnum += (locnum < 0 ? 1 : -1); lpl = ct->plateau (locnum);
        cleaning = lpl->fit (hpl, fpl, cdist); hpl = lpl; cdist --; }],
    [k] being the number of iterations left when [cleaning] holds. *)
Fixpoint fit_chain (k : nat) (ct : Track) (locnum : Z) (hpl fpl : Plateau)
    (cdist : Z) (cleaning : bool) : option bool :=
  match k with
  | O => Some cleaning
  | S k' =>
      if cleaning then
        let locnum := locnum + (if locnum <? 0 then 1 else -1) in
        lpl ← ct_plateau ct locnum;
        fit_chain k' ct locnum lpl fpl (cdist - 1) (fit lpl hpl fpl cdist)
      else Some cleaning
  end.

(** [for (int i = 1; i < confdist; i++) ct->accept (num < 0 ? num + i : num - i);] *)
Fixpoint accept_run (k : nat) (i : Z) (num : Z) (ct : Track) : Track :=
  match k with
  | O => ct
  | S k' => accept_run k' (i + 1) num
                       (ct_accept ct (if num <? 0 then num + i else num - i))
  end.

(** [for (int i = 1; ok && i < confdist; i ++)
      { locnum += (locnum < 0 ? 1 : -1); lpl = ct->plateau (locnum);
        if (lpl->contains (c1 + dc * i)) ct->accept (locnum); }] *)
Fixpoint net_accept_between (k : nat) (i : Z) (locnum : Z)
    (c1 dc : spec_float) (ct : Track) : option Track :=
  match k with
  | O => Some ct
  | S k' =>
      let locnum := locnum + (if locnum <? 0 then 1 else -1) in
      lpl ← ct_plateau ct locnum;
      net_accept_between k' (i + 1) locnum c1 dc
        (if contains lpl (F32.add c1 (F32.mul dc (F32.of_Z i)))
         then ct_accept ct locnum else ct)
  end.

(** The two ways of accepting, [connect_on] set or not: [search], the
    track and the detector. *)
Definition net_accept_run (initial : bool) (num confdist back : Z)
    (search : bool) (ct : Track) (d : Det) : option (bool * Track * Det) :=
  pl ← ct_plateau ct num;
  if connect_on (cfg d) then
    fpl ← ct_plateau ct back;
    match fit_chain (Z.to_nat (confdist - 1)) ct num pl fpl confdist true with
    | Some true =>
        Some (search,
              ct_accept (accept_run (Z.to_nat (confdist - 1)) 1 num ct) num, d)
    | Some false =>
        Some (false, ct_setStatus ct RESULT_FAIL_DISCONNECT,
              set_status initial d RESULT_FAIL_DISCONNECT)
    | None => None
    end
  else
    let ct := ct_accept ct num in
    pl ← ct_plateau ct num;
    let c1 := estimatedCenter pl in
    lpl ← ct_plateau ct back;
    let dc := F32.div (F32.sub (estimatedCenter lpl) c1) (F32.of_Z confdist) in
    ct ← net_accept_between (Z.to_nat (confdist - 1)) 1 num c1 dc ct;
    Some (search, ct, d).

(** "Conditionally accepts the plateau and former consistent ones",
    AMRELnet version: [search], the track, [confdist] and the detector. *)
Definition net_accept_update (initial : bool) (num confdist : Z)
    (search : bool) (ct : Track) (d : Det) : option (bool * Track * Z * Det) :=
  pl ← ct_plateau ct num;
  let back := if num <? 0 then num + confdist else num - confdist in
  if (getStatus pl =? PLATEAU_RES_OK) && reliable pl then
    '(search, ct, d) ← net_accept_run initial num confdist back search ct d;
    pl ← ct_plateau ct num;
    prev ← ct_plateau ct (if num <? 0 then num + 1 else num - 1);
    if negb (isConnectedTo pl prev)
    then Some (false, ct_setStatus ct RESULT_FAIL_DISCONNECT, 1,
               set_status initial d RESULT_FAIL_DISCONNECT)
    else Some (search, ct, 1, d)
  else Some (search, ct, confdist + 1, d).

(** The local variables of the AMRELnet [track]; the pointer [ref] is the
    index [n_ref] of the plateau it points to in the track. *)
Record NetWalk := mkNetWalk {
  n_search : bool;
  n_nbfail : Z;
  n_num : Z;
  n_confdist : Z;
  n_ref : Z;
  n_ds : DS;
  n_disp : DS;
  n_det : Det }.

Definition net_track_scan (onright : bool) (initial : bool)
    (p1f : Pt2f) (p12 : Vr2f) (l12 : spec_float) (scan_shift : Z)
    (ref : Plateau) (pix dispix : list Pt2i) (search : bool) (w : NetWalk)
  : option (bool * Z * Z * Det) :=
  let c := cfg (n_det w) in
  let num := n_num w in
  let '(pts, d) := collect (n_det w) p1f p12 l12 pix in
  let pts := std_sort compIFurther pts in
  let pl := net_select_plateau (pfeat c) scan_shift pts ref (n_confdist w) in
  ct ← get_track initial d;
  let ct := ct_add ct onright pl dispix
                   (if profileRecordOn c then Some pts else None) in
  let search := if isNetBuildOn (pfeat c) && impassable pl then false else search in
  let '(nbfail, search) := lack_update c pl (n_nbfail w) search in
  let '(search, ct, d) := net_bounds_update initial num pl search ct d in
  let '(pl, d) := if search then estimate_trends pl d else (pl, d) in
  let ct := ct_modify ct num (fun _ => pl) in
  '(search, ct, confdist, d) ←
    net_accept_update initial num (n_confdist w) search ct d;
  Some (search, nbfail, confdist, put_track initial d ct).

Definition net_track_step (onright reversed : bool) (exlimit : Z)
    (p1f : Pt2f) (p12 : Vr2f) (l12 : spec_float)
    (ss_p1 : Pt2i) (ss_p12 : Vr2i) (ss_l12 : spec_float) (dss_n : Vr2i)
    (w : NetWalk) : option NetWalk :=
  let c := cfg (n_det w) in
  let initial := negb (exlimit =? 0) in
  ct ← get_track initial (n_det w);
  ref ← ct_plateau ct (n_ref w);
  let scan_shift := recentred_shift (csize c) ss_p1 ss_p12 ss_l12 dss_n
                                    (estimatedCenter ref) in
  let '(ds, disp, pix, dispix, search) :=
    next_scans c onright reversed dss_n scan_shift (n_ds w) (n_disp w) in
  let num' := n_num w + (if onright then -1 else 1) in
  match pix with
  | [] =>
      Some (mkNetWalk false (n_nbfail w) num' (n_confdist w) (n_ref w)
                      ds disp (n_det w))
  | _ :: _ =>
      '(search, nbfail, confdist, d) ←
        net_track_scan onright initial p1f p12 l12 scan_shift ref
                       pix dispix search w;
      Some (mkNetWalk search nbfail num' confdist (n_num w) ds disp d)
  end.

Fixpoint net_track_loop (fuel : nat) (onright reversed : bool) (exlimit : Z)
    (p1f : Pt2f) (p12 : Vr2f) (l12 : spec_float)
    (ss_p1 : Pt2i) (ss_p12 : Vr2i) (ss_l12 : spec_float) (dss_n : Vr2i)
    (w : NetWalk) : option NetWalk :=
  if n_search w && negb (n_num w =? exlimit) then
    match fuel with
    | O => None
    | S fuel' =>
        w' ← net_track_step onright reversed exlimit p1f p12 l12
                            ss_p1 ss_p12 ss_l12 dss_n w;
        net_track_loop fuel' onright reversed exlimit p1f p12 l12
                       ss_p1 ss_p12 ss_l12 dss_n w'
    end
  else Some w.

(** [track (onright, reversed, exlimit, ds, disp, p1f, p12, l12, ref)],
    [ref] being the plateau of index [refnum]. *)
Definition net_track (fuel : nat) (onright reversed : bool) (exlimit : Z)
    (ds disp : DS) (p1f : Pt2f) (p12 : Vr2f) (l12 : spec_float)
    (refnum : Z) (d : Det) : option (DS * DS * Det) :=
  let num := if onright then -1 else 1 in
  let exlimit := if onright then - exlimit else exlimit in
  let initial := negb (exlimit =? 0) in
  ct ← get_track initial d;
  let d := put_track initial d (ct_clear ct onright) in
  let '(ss_p1, ss_p2) := getInputStroke d initial in
  let ss_p12 := Pt2i_vectorTo ss_p1 ss_p2 in
  let ss_l12 := F32.sqrt_of_int (Vr2i_norm2 ss_p12) in
  let dss_n := if v2i_x ss_p12 <? 0 then Vr2i_invert ss_p12 else ss_p12 in
  w ← net_track_loop fuel onright reversed exlimit p1f p12 l12
                     ss_p1 ss_p12 ss_l12 dss_n
                     (mkNetWalk true 0 num 1 refnum ds disp d);
  Some (n_ds w, n_disp w, n_det w).

(** *** Detection from the seed scan: [detect (exlimit)] and [detect ()] *)

(** [for (int i = 0; nbp != 0 && i < n; i++) nbp = ds->next... (pix);] *)
Fixpoint repeat_scan (n : nat) (next : DS -> list Pt2i -> DS * list Pt2i)
    (ds : DS) (pix : list Pt2i) (nbp : Z) : DS * list Pt2i :=
  match n with
  | O => (ds, pix)
  | S n' =>
      if nbp =? 0 then (ds, pix)
      else let '(ds', pix') := next ds pix in
           repeat_scan n' next ds' pix' (Z.of_nat (length pix'))
  end.

(** "Creates adaptive directional scanners for point cloud and display" and
    "Gets the central scan of the point cloud". *)
Definition central_scan (d : Det) (p1 p2 : Pt2i)
  : Det * DS * DS * list Pt2i :=
  let sd := subdiv (cfg d) in
  let '(sp, ds) :=
    getScanner (scanp d)
      (mkPt2i (p2i_x p1 * sd + sd ÷ 2) (p2i_y p1 * sd + sd ÷ 2))
      (mkPt2i (p2i_x p2 * sd + sd ÷ 2) (p2i_y p2 * sd + sd ÷ 2)) true in
  let ds := ds_releaseClearance ds in
  let '(dsp, disp) := getScanner (discanp d) p1 p2 true in
  let d := set_discanp (set_scanp d sp) dsp in
  let pix := ds_first ds [] in
  let '(ds, pix) :=
    repeat_scan (Z.to_nat (sd ÷ 2)) ds_nextOnRight ds pix (Z.of_nat (length pix)) in
  let '(ds, pix) :=
    repeat_scan (Z.to_nat (sd - 1 - sd ÷ 2)) ds_nextOnLeft ds pix 1 in
  (d, ds, disp, pix).

(** "Detects the central plateau", standard mode: the plateau kept and the
    success flag. *)
Definition central_plateau (pm : PlateauModel) (scan0_shift : Z)
    (cpts : list Pt2f) : bool * Plateau :=
  let '(success, cpl) := plateau_detect pm scan0_shift cpts in
  if negb success && negb (noOptimalHeight cpl) then
    let '(success2, cpl2) :=
      plateau_detect_at pm scan0_shift cpts false (getMinHeight cpl) in
    if success2 then
      let dw := F32.sub (estimatedWidth cpl) (startLength pm) in
      let dw := if F32.lt dw F32.zero then F32.opp dw else dw in
      let dw2 := F32.sub (estimatedWidth cpl2) (startLength pm) in
      let dw2 := if F32.lt dw2 F32.zero then F32.opp dw2 else dw2 in
      if (getStatus cpl =? PLATEAU_RES_OPTIMAL_HEIGHT_UNDER_USED) && F32.le dw dw2
      then (success2, acceptResult cpl)
      else (success2, cpl2)
    else (success2, cpl)
  else (success, cpl).

(** "Updates reference pattern and detects next plateaux on each side",
    standard version, with the second chance of the first side and the
    pruning of the tail. *)
Definition side_walks (fuel : nat) (exlimit : Z) (ds disp : DS)
    (p1f : Pt2f) (p12 : Vr2f) (l12 : spec_float) (d : Det) : option Det :=
  let initial := negb (exlimit =? 0) in
  let reversed := isLastScanReversed (scanp d) in
  ct ← get_track initial d;
  cpl ← ct_plateau ct 0;
  let d := if bounded cpl then set_initial_unbounded d false else d in
  let d := set_initial_refh
             (set_initial_refe (set_initial_refs d (internalStart cpl))
                               (internalEnd cpl))
             (getMinHeight cpl) in
  let ds2 := ds in
  let disp2 := disp in
  let d := resetRegisters d (reliable cpl) (estimatedCenter cpl) (getMinHeight cpl) in
  '(ds, disp, d) ← track fuel true reversed exlimit ds disp p1f p12 l12
                         (initial_refs d) (initial_refe d) (initial_refh d) d;
  let firstUnbounded := initial_unbounded d in
  ct ← get_track initial d;
  cpl ← ct_plateau ct 0;
  let d := resetRegisters d (reliable cpl) (estimatedCenter cpl) (getMinHeight cpl) in
  '(_, _, d) ← track fuel false reversed exlimit ds2 disp2 p1f p12 l12
                     (initial_refs d) (initial_refe d) (initial_refh d) d;
  d ← (if firstUnbounded && negb (initial_unbounded d) then
         ct ← get_track initial d;
         cpl ← ct_plateau ct 0;
         let d := resetRegisters d (reliable cpl) (estimatedCenter cpl)
                                 (getMinHeight cpl) in
         '(_, _, d) ← track fuel true reversed exlimit ds disp p1f p12 l12
                            (initial_refs d) (initial_refe d) (initial_refh d) d;
         Some d
       else Some d);
  ct ← get_track initial d;
  if negb (tailMinSize (pfeat (cfg d)) =? 0) then
    let '(ct, failed) := ct_prune ct (tailMinSize (pfeat (cfg d))) in
    if failed
    then Some (set_status initial
                 (put_track initial d
                    (ct_setStatus ct RESULT_FAIL_NO_CONSISTENT_SEQUENCE))
                 RESULT_FAIL_NO_CONSISTENT_SEQUENCE)
    else Some (put_track initial d ct)
  else Some d.

(** [detect (exlimit)] *)
Definition detect_limited (fuel : nat) (exlimit : Z) (d : Det) : option Det :=
  let initial := negb (exlimit =? 0) in
  let c := cfg d in
  let '(p1, p2) := getInputStroke d initial in
  let p12 := stroke_vector (csize c) p1 p2 in
  let p1f := stroke_origin (csize c) p1 in
  let l12 := stroke_length p12 in
  let scan0_shift := central_shift p1 p2 in
  let '(d, ds, disp, pix) := central_scan d p1 p2 in
  match pix with
  | [] => Some (set_status initial d RESULT_FAIL_NO_AVAILABLE_SCAN)
  | _ :: _ =>
      let dispix := ds_first disp [] in
      let '(cpts, d) := collect d p1f p12 l12 pix in
      let cpts := std_sort compIFurther cpts in
      let ct := ct_setDetectionSeed ct_new p1 p2 (csize c) in
      let '(success, cpl) := central_plateau (pfeat c) scan0_shift cpts in
      let ct := ct_start ct cpl dispix
                  (if profileRecordOn c then Some cpts else None)
                  (isLastScanReversed (scanp d)) in
      if success then
        side_walks fuel exlimit ds disp p1f p12 l12
                   (put_track initial d (ct_accept ct 0))
      else
        Some (set_status initial
                (put_track initial d
                   (ct_setStatus ct RESULT_FAIL_NO_CENTRAL_PLATEAU))
                RESULT_FAIL_NO_CENTRAL_PLATEAU)
  end.

(** One trial of the central plateau in automatic mode, with a lateral
    shift:
    [pfeat.isNetBuildOn () ? cpl->track (cpts, NULL, 0, shift, l12)
                            : cpl->track (cpts, 0.0f, l12, 0.0f, shift, 0)] *)
Definition auto_trial (pm : PlateauModel) (scan0_shift : Z) (cpts : list Pt2f)
    (l12 : spec_float) (shift : spec_float) : bool * Plateau :=
  if isNetBuildOn pm
  then plateau_track_ref pm scan0_shift cpts None 0 shift l12
  else plateau_track pm scan0_shift cpts F32.zero l12 F32.zero shift 0.

(** [for (int ptest = 0; ptest != NB_SIDE_TRIALS * 2; ptest++)
      { ... success = cpl2->track (...tests[ptest]...);
        if (success) found = true;
        if (success && cpl2->thinerThan (cpl)) { delete cpl; cpl = cpl2; }
        else delete cpl2; }] *)
Fixpoint auto_probes (trial : spec_float -> bool * Plateau)
    (tests : list spec_float) (cpl : Plateau) (found : bool) : Plateau * bool :=
  match tests with
  | [] => (cpl, found)
  | shift :: rest =>
      let '(success, cpl2) := trial shift in
      auto_probes trial rest
        (if success && thinerThan cpl2 cpl then cpl2 else cpl)
        (if success then true else found)
  end.

(** The central plateau of the automatic mode and the flag [found]. *)
Definition auto_central (pm : PlateauModel) (scan0_shift : Z)
    (cpts : list Pt2f) (l12 : spec_float) : Plateau * bool :=
  let trial := auto_trial pm scan0_shift cpts l12 in
  let '(found, cpl) := trial F32.zero in
  auto_probes trial (side_shifts (firstPlateauSearchDistance pm)) cpl found.

(** One side walk of the automatic mode, by the AMRELnet [track] from the
    plateau of index [refnum] or by the standard [track]. *)
Definition auto_track (fuel : nat) (onright reversed : bool) (ds disp : DS)
    (p1f : Pt2f) (p12 : Vr2f) (l12 : spec_float) (refnum : Z) (d : Det)
  : option (DS * DS * Det) :=
  if isNetBuildOn (pfeat (cfg d))
  then net_track fuel onright reversed 0 ds disp p1f p12 l12 refnum d
  else track fuel onright reversed 0 ds disp p1f p12 l12
             (initial_refs d) (initial_refe d) (initial_refh d) d.

Definition auto_side_walks (fuel : nat) (ds disp : DS)
    (p1f : Pt2f) (p12 : Vr2f) (l12 : spec_float) (d : Det) : option Det :=
  let reversed := isLastScanReversed (scanp d) in
  ct ← fct d;
  cpl ← ct_plateau ct 0;
  let d := if bounded cpl then set_initial_unbounded d false else d in
  let d := set_initial_refh
             (set_initial_refe
                (set_initial_refs (set_initial_ref d 0) (internalStart cpl))
                (internalEnd cpl))
             (getMinHeight cpl) in
  let ds2 := ds in
  let disp2 := disp in
  let d := resetRegisters d (reliable cpl) (estimatedCenter cpl) (getMinHeight cpl) in
  '(ds, disp, d) ← auto_track fuel true reversed ds disp p1f p12 l12 0 d;
  let firstUnbounded := initial_unbounded d in
  ct ← fct d;
  cpl ← ct_plateau ct 0;
  let d := resetRegisters d (reliable cpl) (estimatedCenter cpl) (getMinHeight cpl) in
  '(_, _, d) ← auto_track fuel false reversed ds2 disp2 p1f p12 l12
                          (initial_ref d) d;
  d ← (if firstUnbounded && negb (initial_unbounded d) then
         ct ← fct d;
         cpl ← ct_plateau ct 0;
         let d := resetRegisters d (reliable cpl) (estimatedCenter cpl)
                                 (getMinHeight cpl) in
         '(_, _, d) ← auto_track fuel true reversed ds disp p1f p12 l12
                                 (initial_ref d) d;
         Some d
       else Some d);
  ct ← fct d;
  if negb (tailMinSize (pfeat (cfg d)) =? 0) then
    let '(ct, failed) := ct_prune ct (tailMinSize (pfeat (cfg d))) in
    if failed
    then Some (set_fstatus
                 (set_fct d (Some (ct_setStatus ct RESULT_FAIL_NO_CONSISTENT_SEQUENCE)))
                 RESULT_FAIL_NO_CONSISTENT_SEQUENCE)
    else Some (set_fct d (Some ct))
  else Some d.

(** [detect ()], the detection of the automatic mode. *)
Definition detect_auto (fuel : nat) (d : Det) : option Det :=
  let c := cfg d in
  let '(p1, p2) := getInputStroke d false in
  let p12 := stroke_vector (csize c) p1 p2 in
  let p1f := stroke_origin (csize c) p1 in
  let l12 := stroke_length p12 in
  let scan0_shift := central_shift p1 p2 in
  let '(d, ds, disp, pix) := central_scan d p1 p2 in
  match pix with
  | [] => Some (set_fstatus d RESULT_FAIL_NO_AVAILABLE_SCAN)
  | _ :: _ =>
      let dispix := ds_first disp [] in
      let '(cpts, d) := collect d p1f p12 l12 pix in
      let cpts := std_sort compIFurther cpts in
      let ct := ct_setDetectionSeed ct_new p1 p2 (csize c) in
      let '(cpl, found) := auto_central (pfeat c) scan0_shift cpts l12 in
      let ct := ct_start ct cpl dispix
                  (if profileRecordOn c then Some cpts else None)
                  (isLastScanReversed (scanp d)) in
      let ct := if isNetBuildOn (pfeat c)
                then (if consistentWidth cpl then ct_accept ct 0 else ct)
                else (if found then ct_accept ct 0 else ct) in
      if negb found then
        Some (set_fstatus
                (set_fct d (Some (ct_setStatus ct RESULT_FAIL_NO_CENTRAL_PLATEAU)))
                RESULT_FAIL_NO_CENTRAL_PLATEAU)
      else auto_side_walks fuel ds disp p1f p12 l12 (set_fct d (Some ct))
  end.

(** *** Detection from a stroke: [detect (p1, p2)] *)

(** "Checks input stroke length": [l12 < MAX_TRACK_WIDTH]. *)
Definition stroke_too_narrow (cs : spec_float) (p1 p2 : Pt2i) : bool :=
  F32.lt (stroke_length (stroke_vector cs p1 p2)) MAX_TRACK_WIDTH.

(** The lateral shift between two scans, by the octant of the stroke. *)
Definition scan_lateral_shift (p12 : Vr2f) (fact : spec_float) : Vr2f :=
  let x := v2f_x p12 in
  let y := v2f_y p12 in
  let xx := F32.mul x x in
  let xy := F32.mul x y in
  let yy := F32.mul y y in
  let shift u v := mkVr2f (F32.mul u fact) (F32.mul v fact) in
  if F32.gt x F32.zero then
    if F32.gt y F32.zero then
      if F32.gt x y then shift (F32.opp xy) xx else shift (F32.opp yy) xy
    else
      if F32.gt x (F32.opp y) then shift (F32.opp xy) xx else shift yy (F32.opp xy)
  else
    if F32.gt y F32.zero then
      if F32.gt (F32.opp x) y then shift xy (F32.opp xx) else shift (F32.opp yy) xy
    else
      if F32.lt x y then shift xy (F32.opp xx) else shift yy (F32.opp xy).

(** The centre of the reliable plateau [rpl] of index [k > 0] of the
    initial track:
    [rplc = (rpl->internalEnd () + rpl->internalStart ()) / (2 * l12);
     Pt2f (p1f.x () + k * lshift.x () + p12.x () * rplc, ...)] *)
Definition plateau_centre (p1f : Pt2f) (p12 lshift : Vr2f) (l12 : spec_float)
    (k : Z) (rpl : Plateau) : Pt2f :=
  let rplc := F32.div (F32.add (internalEnd rpl) (internalStart rpl))
                      (F32.mul (F32.of_Z 2) l12) in
  mkPt2f (F32.add (F32.add (p2f_x p1f) (F32.mul (F32.of_Z k) (v2f_x lshift)))
                  (F32.mul (v2f_x p12) rplc))
         (F32.add (F32.add (p2f_y p1f) (F32.mul (F32.of_Z k) (v2f_y lshift)))
                  (F32.mul (v2f_y p12) rplc)).

(** [for (int i = 1; i < initial_track_extent; i++)
      { rpl = ict->plateau (i);
        if (rpl != NULL && rpl->reliable ()) pc.push_back (...);
        rpl = ict->plateau (-i);
        if (rpl != NULL && rpl->reliable ()) pc.push_back (...); }],
    [k] iterations from [i]; on the right side the shift is subtracted. *)
Fixpoint reliable_centres (k : nat) (i : Z) (ict : Track)
    (p1f : Pt2f) (p12 lshift : Vr2f) (l12 : spec_float) (pc : list Pt2f)
  : list Pt2f :=
  match k with
  | O => pc
  | S k' =>
      let pc :=
        match ct_plateau ict i with
        | Some rpl =>
            if reliable rpl
            then pc ++ [plateau_centre p1f p12 lshift l12 i rpl]
            else pc
        | None => pc
        end in
      let pc :=
        match ct_plateau ict (- i) with
        | Some rpl =>
            if reliable rpl
            then pc ++ [mkPt2f
                   (F32.add (F32.sub (p2f_x p1f) (F32.mul (F32.of_Z i) (v2f_x lshift)))
                            (F32.mul (v2f_x p12)
                               (F32.div (F32.add (internalEnd rpl) (internalStart rpl))
                                        (F32.mul (F32.of_Z 2) l12))))
                   (F32.add (F32.sub (p2f_y p1f) (F32.mul (F32.of_Z i) (v2f_y lshift)))
                            (F32.mul (v2f_y p12)
                               (F32.div (F32.add (internalEnd rpl) (internalStart rpl))
                                        (F32.mul (F32.of_Z 2) l12))))]
            else pc
        | None => pc
        end in
      reliable_centres k' (i + 1) ict p1f p12 lshift l12 pc
  end.

(** [alignInput (pts)]; [pts] is read from its first element. *)
Definition alignInput (d : Det) (pts : list Pt2f) : option Det :=
  match pts with
  | [] => None
  | p0 :: rest =>
      let cs := csize (cfg d) in
      let n := F32.of_Z (Z.of_nat (length pts)) in
      (* coordinates expectation *)
      let '(xm, ym, (xmin, xmax), (ymin, ymax)) :=
        fold_left
          (fun '(xm, ym, (xmin, xmax), (ymin, ymax)) it =>
             (F32.add xm (p2f_x it), F32.add ym (p2f_y it),
              (if F32.lt (p2f_x it) xmin then (p2f_x it, xmax)
               else if F32.gt (p2f_x it) xmax then (xmin, p2f_x it)
               else (xmin, xmax)),
              (if F32.lt (p2f_y it) ymin then (p2f_y it, ymax)
               else if F32.gt (p2f_y it) ymax then (ymin, p2f_y it)
               else (ymin, ymax))))
          rest
          (p2f_x p0, p2f_y p0, (p2f_x p0, p2f_x p0), (p2f_y p0, p2f_y p0)) in
      let xm := F32.div xm n in
      let ym := F32.div ym n in
      (* coordinates variance, from the last point back to the first *)
      let '(xv, yv, xyv) :=
        fold_left
          (fun '(xv, yv, xyv) it =>
             let dx := F32.sub (p2f_x it) xm in
             let dy := F32.sub (p2f_y it) ym in
             (F32.add xv (F32.mul dx dx), F32.add yv (F32.mul dy dy),
              F32.add xyv (F32.mul dx dy)))
          (rev pts) (F32.zero, F32.zero, F32.zero) in
      let xv := F32.div xv n in
      let yv := F32.div yv n in
      let xyv := F32.div xyv n in
      (* linear approximation a x - b y = c *)
      let one := F32.of_Z 1 in
      let '(a, b, c) :=
        if F32.gt (F32.sub xmax xmin) (F32.sub ymax ymin)
        then let a := F32.div xyv xv in (a, one, F32.sub (F32.mul a xm) ym)
        else let b := F32.div xyv yv in (one, b, F32.sub xm (F32.mul b ym)) in
      (* new stroke *)
      let dd := F32.add (F32.mul b (p2f_x p0)) (F32.mul a (p2f_y p0)) in
      let den := F32.add (F32.mul a a) (F32.mul b b) in
      let x := F32.div (F32.add (F32.mul a c) (F32.mul b dd)) den in
      let y := F32.div (F32.sub (F32.mul a dd) (F32.mul b c)) den in
      let dir :=
        if F32.lt (F32.sub (F32.mul a (F32.of_Z (p2i_x (ip2 d) - p2i_x (ip1 d))))
                           (F32.mul b (F32.of_Z (p2i_y (ip2 d) - p2i_y (ip1 d)))))
                  F32.zero
        then -1 else 1 in
      let len := F32.mul CT_MAX_WIDTH (F32.of_Z dir) in
      let d := set_fp1 d
                 (mkPt2i (F32.to_int (F32.div (F32.sub x (F32.mul a len)) cs))
                         (F32.to_int (F32.div (F32.add y (F32.mul b len)) cs))) in
      Some (set_fp2 d
              (mkPt2i (F32.to_int (F32.div (F32.add x (F32.mul a len)) cs))
                      (F32.to_int (F32.div (F32.sub y (F32.mul b len)) cs))))
  end.

(** "Aligns input stroke orthogonally to detected carriage track" and
    "redetection using aligned stroke". *)
Definition realign (fuel : nat) (p1 p2 : Pt2i) (d : Det) : option Det :=
  match ict d with
  | Some it =>
      if negb (istatus d =? RESULT_FAIL_NO_CENTRAL_PLATEAU) then
        let cs := csize (cfg d) in
        let p12 := stroke_vector cs p1 p2 in
        let l12 := stroke_length p12 in
        let fact := F32.div cs (F32.add (F32.mul (v2f_x p12) (v2f_x p12))
                                        (F32.mul (v2f_y p12) (v2f_y p12))) in
        let p1f := stroke_origin cs p1 in
        let lshift := scan_lateral_shift p12 fact in
        rpl ← ct_plateau it 0;
        let rplc := F32.div (F32.add (internalEnd rpl) (internalStart rpl))
                            (F32.mul (F32.of_Z 2) l12) in
        let pc := [mkPt2f (F32.add (p2f_x p1f) (F32.mul (v2f_x p12) rplc))
                          (F32.add (p2f_y p1f) (F32.mul (v2f_y p12) rplc))] in
        let pc := reliable_centres (Z.to_nat (initial_track_extent (cfg d) - 1)) 1
                                   it p1f p12 lshift l12 pc in
        if Z.of_nat (length pc) >? initial_track_extent (cfg d) then
          d ← alignInput d pc;
          detect_limited fuel 0 d
        else Some d
      else Some d
  | None => Some d
  end.

(** The pruning of the final track, and the returned pointer. *)
Definition final_pruning (d : Det) : Det * option Track :=
  match fct d with
  | Some ft =>
      let c := cfg d in
      if fstatus d =? RESULT_FAIL_NO_CONSISTENT_SEQUENCE then (d, None)
      else if shift_length_pruning c
              && F32.gt (relativeShiftLength ft) (max_shift_length c) then
        (set_fstatus
           (set_fct d (Some (ct_setStatus ft RESULT_FAIL_TOO_HECTIC_PLATEAUX)))
           RESULT_FAIL_TOO_HECTIC_PLATEAUX,
         None)
      else if density_pruning c
              && (nbHoles ft * 100 >? spread ft * (100 - min_density c)) then
        (set_fstatus
           (set_fct d (Some (ct_setStatus ft RESULT_FAIL_TOO_SPARSE_PLATEAUX)))
           RESULT_FAIL_TOO_SPARSE_PLATEAUX,
         None)
      else (d, Some ft)
  | None => (d, None)
  end.

(** What [detect (p1, p2)] does once the stroke is long enough. *)
Definition detect_long_stroke (fuel : nat) (p1 p2 : Pt2i) (d : Det)
  : option (Det * option Track) :=
  d ← (if auto_p (cfg d) then detect_auto fuel d
       else detect_limited fuel (initial_track_extent (cfg d)) d);
  d ← realign fuel p1 p2 d;
  Some (final_pruning d).

(** "Cleans up former detection" and the setting of the strokes:
    [clear (); ip1.set (p1); ip2.set (p2); fp1.set (p1); fp2.set (p2);] *)
Definition on_stroke (d : Det) (p1 p2 : Pt2i) : Det :=
  set_fp2 (set_fp1 (set_ip2 (set_ip1 (clear d) p1) p2) p1) p2.

(** [detect (p1, p2)]: the detector afterwards and the returned pointer,
    [None] for [NULL]. *)
Definition detect (fuel : nat) (d : Det) (p1 p2 : Pt2i)
  : option (Det * option Track) :=
  let d := on_stroke d p1 p2 in
  if stroke_too_narrow (csize (cfg d)) p1 p2 then
    let d := set_fstatus d RESULT_FAIL_TOO_NARROW_INPUT in
    Some (if negb (initial_track_extent (cfg d) =? 0)
          then set_istatus d RESULT_FAIL_TOO_NARROW_INPUT else d,
          None)
  else detect_long_stroke fuel p1 p2 d.

(** [CTrackDetector ()] followed by [setPointsGrid]: the detector before
    its first detection, for given scanner providers, point set, plateau
    model, subdivision and cell size. *)
Definition new_detector (ts : TS) (sp dsp : SP) (pm : PlateauModel)
    (sd : Z) (cs : spec_float) : Det :=
  let nb := Z.to_nat DEFAULT_POS_AND_HEIGHT_REGISTER_SIZE in
  let un := Z.to_nat DEFAULT_UNSTABILITY_REGISTER_SIZE in
  mkDetector
    (mkSettings false false ts sd cs false
                DEFAULT_PLATEAU_LACK_TOLERANCE INITIAL_TRACK_EXTENT
                false true DEFAULT_MIN_DENSITY true DEFAULT_MAX_SHIFT_LENGTH
                pm DEFAULT_POS_AND_HEIGHT_REGISTER_SIZE
                DEFAULT_UNSTABILITY_REGISTER_SIZE)
    sp dsp None RESULT_NONE None RESULT_NONE
    (replicate nb false) (replicate nb F32.zero)
    (replicate nb false) (replicate nb F32.zero)
    0 F32.zero F32.zero F32.zero true
    (replicate un F32.zero) (replicate un F32.zero)
    (replicate un false) (replicate un false)
    (mkPt2i 0 0) (mkPt2i 0 0) (mkPt2i 0 0) (mkPt2i 0 0)
    0.

(** [setAutomatic], [switchInitialization] (off), [setTailMinSize] and the
    two pruning bounds, as [AmrelTool] sets them. *)
Definition with_settings (d : Det) (auto : bool) (extent : Z)
    (max_shift : spec_float) (density : Z) : Det :=
  let c := cfg d in
  mkDetector
    (mkSettings auto (connect_on c) (ptset c) (subdiv c) (csize c)
                (profileRecordOn c) (plateau_lack_tolerance c) extent
                (density_insensitive c) (density_pruning c) density
                (shift_length_pruning c) max_shift
                (pfeat c) (posht_nb c) (unstab_nb c))
    (scanp d) (discanp d) (fct d) (fstatus d) (ict d) (istatus d)
    (lpok d) (lpos d) (lhok d) (lht d)
    (initial_ref d) (initial_refs d) (initial_refe d) (initial_refh d)
    (initial_unbounded d)
    (spos d) (epos d) (spok d) (epok d)
    (ip1 d) (ip2 d) (fp1 d) (fp2 d) (out_count d).

(** *** What a detection step may change of the final track and status

    [same3 d d']: the settings, the final track and the final status are
    those of [d].  [evolves d d']: the settings are kept, a final track is
    never dropped, and the final status is kept or becomes a failure of
    the detection proper, which but for "no available scan" comes with a
    final track. *)
Definition same3 (d d' : Det) : Prop :=
  cfg d' = cfg d /\ fct d' = fct d /\ fstatus d' = fstatus d.

Definition tracked_failure (s : Z) : Prop :=
  s = RESULT_FAIL_NO_CENTRAL_PLATEAU \/ s = RESULT_FAIL_NO_CONSISTENT_SEQUENCE \/
  s = RESULT_FAIL_NO_BOUNDS \/ s = RESULT_FAIL_DISCONNECT.

Definition evolves (d d' : Det) : Prop :=
  cfg d' = cfg d /\
  (is_Some (fct d) -> is_Some (fct d')) /\
  (fstatus d' = fstatus d \/
   fstatus d' = RESULT_FAIL_NO_AVAILABLE_SCAN \/
   (tracked_failure (fstatus d') /\ is_Some (fct d'))).


(** [moves initial d d']: what a step of the detection in progress, initial
    or final, may change of the final track and status: nothing, but for
    a failure status when the detection is the final one. *)
Definition moves (initial : bool) (d d' : Det) : Prop :=
  cfg d' = cfg d /\ fct d' = fct d /\
  (fstatus d' = fstatus d \/
   (initial = false /\ tracked_failure (fstatus d'))).

End DetectorModel.

(** ** Concrete inputs used by the examples below *)

Module Fixtures.

(** A scanner for the direction [(a, b) = (2, -1)], pattern [true; false],
    in a 10 x 10 raster, started at [(7, 4)] with lower bound [c = 2]. *)
Definition scanner_2_1 : AdaptiveScannerO2.t :=
  AdaptiveScannerO2.create_from_start 0 0 10 10 2 (-1) 2 2 [true; false] 7 4.

(** A scanner for the horizontal direction [(a, b) = (1, 0)], of thickness
    [templ_nu = 10]. *)
Definition scanner_1_0 : AdaptiveScannerO2.t :=
  AdaptiveScannerO2.create_from_start 0 0 20 20 1 0 0 1 [false] 10 5.

(** A raster of one tile holding one stroke, and a raster of 2 x 2 tiles
    holding three. *)
Definition one_stroke : Seeds.state :=
  Seeds.mk 100 100 (F32.of_ratio 1 2) 1 1 false
           [[mkPt2i 10 10; mkPt2i 22 10]].

Definition three_strokes (half : bool) : Seeds.state :=
  Seeds.mk 100 100 (F32.of_ratio 1 2) 2 2 half
           [[mkPt2i 10 10; mkPt2i 22 10]; [];
            [mkPt2i 10 60; mkPt2i 10 72; mkPt2i 30 80; mkPt2i 42 80];
            []].

End Fixtures.

(** A small world for the detector: plateaux reduced to the attributes the
    detector reads, a scanner giving one pixel per scan, a tile set given
    by the predicate "the tile of the cell is loaded", the sort of a list
    of at most one point. *)
Module Toy.

Record plateau := mkPlateau {
  status : Z;
  found : bool;
  width : Z;
  has_bounds : bool;
  accepted : bool;
  first_pos : spec_float;
  last_pos : spec_float }.

Definition ok_status : Z := 1.

(** The plateau a search gives depends on the lateral shift only. *)
Definition plateau_ops (behave : spec_float -> plateau) : PlateauOps plateau :=
  {| PLATEAU_RES_OK := ok_status;
     PLATEAU_RES_OPTIMAL_HEIGHT_UNDER_USED := -1;
     plateau_detect := fun _ _ _ => (found (behave F32.zero), behave F32.zero);
     plateau_detect_at := fun _ _ _ _ _ => (found (behave F32.zero), behave F32.zero);
     plateau_track := fun _ _ _ _ _ _ shift _ => (found (behave shift), behave shift);
     plateau_track_ref := fun _ _ _ _ _ shift _ => (found (behave shift), behave shift);
     getStatus := status;
     noOptimalHeight := fun _ => false;
     getMinHeight := fun _ => F32.zero;
     estimatedWidth := fun p => F32.of_Z (width p);
     estimatedCenter := fun p => F32.div (F32.add (first_pos p) (last_pos p)) (F32.of_Z 2);
     estimatedStart := first_pos;
     estimatedEnd := last_pos;
     internalStart := first_pos;
     internalEnd := last_pos;
     estimatedDeviation := fun _ => F32.zero;
     estimatedSlope := fun _ => F32.zero;
     bounded := has_bounds;
     reliable := fun p => status p =? ok_status;
     possible := fun _ => true;
     consistentHeight := fun _ => true;
     consistentWidth := fun _ => true;
     hasEnoughPoints := fun _ => true;
     isAccepted := accepted;
     impassable := fun _ => false;
     contains := fun _ _ => true;
     thinerThan := fun p q => width p <? width q;
     fit := fun _ _ _ _ => true;
     isConnectedTo := fun _ _ => true;
     acceptResult := fun p => p;
     accept := fun p => mkPlateau (status p) (found p) (width p) (has_bounds p)
                                  true (first_pos p) (last_pos p);
     setDeviation := fun p _ => p;
     setSlope := fun p _ => p |}.

(** A scanner is the number of scans left on its way out of the raster. *)
Definition scanner_ops : ScannerOps nat :=
  {| ds_first := fun _ scan => scan ++ [mkPt2i 0 0];
     ds_nextOnLeft := fun n scan =>
       match n with
       | O => (O, scan)
       | S n' => (n', scan ++ [mkPt2i 0 (Z.of_nat n)])
       end;
     ds_nextOnRight := fun n scan =>
       match n with
       | O => (O, scan)
       | S n' => (n', scan ++ [mkPt2i 0 (- Z.of_nat n)])
       end;
     ds_bindTo := fun n _ _ _ => n;
     ds_releaseClearance := fun n => n |}.

Definition provider_ops (scans : nat) : ProviderOps unit nat :=
  {| getScanner := fun _ _ _ _ => (tt, scans);
     isLastScanReversed := fun _ => false |}.

Definition tileset_ops : TileSetOps (Z -> Z -> bool) :=
  {| collectPoints := fun (loaded : Z -> Z -> bool) ptcl x y =>
       if loaded x y
       then (true, ptcl ++ [mkPt3f (F32.of_Z x) (F32.of_Z y) F32.zero])
       else (false, ptcl) |}.

Definition sort_ops : SortOps := {| std_sort := fun _ l => l |}.

Definition track_ops (shift_length : spec_float) (holes extent : Z)
    (inconsistent : bool) : TrackOps plateau :=
  {| CT_MAX_WIDTH := F32.of_Z 6;
     ct_prune := fun ct _ => (ct, inconsistent);
     relativeShiftLength := fun _ => shift_length;
     nbHoles := fun _ => holes;
     spread := fun _ => extent |}.

Definition model (tail : Z) : PlateauModel :=
  mkPlateauModel (F32.of_Z 3) (F32.of_Z 1) (F32.of_ratio 1 2) false tail false false.

(** A found plateau of status [ok_status] spanning [0, 3], bounded or not. *)
Definition good (bnd : bool) (w : Z) : plateau :=
  mkPlateau ok_status true w bnd false F32.zero (F32.of_Z 3).


(** The detector of [AmrelTool]: automatic mode, no initial detection,
    cells of one meter, all tiles loaded. *)
Definition detector (tail : Z) : Detector plateau unit (Z -> Z -> bool) :=
  with_settings
    (new_detector (fun _ _ => true) tt tt (model tail) 1 (F32.of_Z 1))
    true 0 DEFAULT_MAX_SHIFT_LENGTH DEFAULT_MIN_DENSITY.

(** [detect (p1, p2)] in the world where every search gives [behave shift],
    the raster has [scans] scans on each side of the stroke, and the final
    track has the given statistics. *)
Abbreviation run behave scans shift_length holes extent inconsistent :=
  (@detect plateau nat unit (Z -> Z -> bool) (plateau_ops behave)
           (track_ops shift_length holes extent inconsistent)
           scanner_ops (provider_ops scans) tileset_ops sort_ops 40%nat).

(** The worlds of the examples.  Every search finds the same plateau,
    bounded or never bounded; the final track is consistent and calm, or
    too hectic with a tail that is consistent or not, or too sparse. *)
Abbreviation bounded_world :=
  (run (fun _ => good true 3) 15%nat F32.zero 0 1 false (detector 0)).

Abbreviation unbounded_world :=
  (run (fun _ => good false 3) 30%nat F32.zero 0 1 false (detector 0)).

Abbreviation hectic_world inconsistent :=
  (run (fun _ => good true 3) 15%nat (F32.of_Z 2) 0 1 inconsistent (detector 3)).

Abbreviation sparse_world :=
  (run (fun _ => good true 3) 15%nat (F32.of_Z 1) 50 100 false (detector 3)).


(** The trials of the automatic mode on a seed scan, and the central
    plateau kept with the flag [found]. *)
Abbreviation trial behave :=
  (@auto_trial plateau (plateau_ops behave) (model 0) 0 [] (F32.of_Z 7)).

Abbreviation central behave :=
  (@auto_central plateau (plateau_ops behave) (model 0) 0 [] (F32.of_Z 7)).

End Toy.

(** * Properties *)

(** ** Point classes *)

Lemma F32_sqrt_zero (s : bool) : F32.sqrt (S754_zero s) = S754_zero s.
Proof. reflexivity. Qed.

(** C10. [Pt3f::normalize] leaves a zero vector unchanged, whatever the
    signs of its zero components, since it divides only when the norm is
    not zero; [Pt2f::normalize] divides unconditionally, and on a zero
    point both components become NaN, which is not finite. *)
Theorem C10_normalize_zero_vector :
  (forall sx sy sz : bool,
     let p := mkPt3f (S754_zero sx) (S754_zero sy) (S754_zero sz) in
     F32.neq (Pt3f_norm p) F32.zero = false /\ Pt3f_normalize p = p) /\
  (forall sx sy : bool,
     let q := Pt2f_normalize (mkPt2f (S754_zero sx) (S754_zero sy)) in
     q = mkPt2f S754_nan S754_nan /\
     F32.is_finite (p2f_x q) = false /\ F32.is_finite (p2f_y q) = false).
Proof.
  split.
  - intros sx sy sz; destruct sx, sy, sz; split; reflexivity.
  - intros sx sy; destruct sx, sy; repeat split; reflexivity.
Qed.

(** ** Floating-point comparisons *)

Lemma SFltb_irrefl (x : spec_float) : SFltb x x = false.
Proof.
  unfold SFltb, SFcompare. destruct x as [s|s| |s m e]; try destruct s; try reflexivity.
  all: rewrite Z.compare_refl, Pos.compare_cont_refl; reflexivity.
Qed.

(** Without NaN, "not greater" is "at most". *)
Lemma SFltb_false_SFleb (x y : spec_float) :
  F32.is_nan x = false -> F32.is_nan y = false ->
  SFltb y x = false -> SFleb x y = true.
Proof.
  unfold SFltb, SFleb, SFcompare.
  destruct x as [sx|sx| |sx mx ex], y as [sy|sy| |sy my ey]; cbn [F32.is_nan];
    try discriminate; intros _ _;
    try destruct sx; try destruct sy; try reflexivity; try discriminate.
  all: rewrite (Z.compare_antisym ex ey);
    destruct (Z.compare ex ey) eqn:Ec; cbn [CompOpp]; try reflexivity; try discriminate.
  all: change (Pos.compare_cont Eq my mx) with (Pos.compare my mx);
    change (Pos.compare_cont Eq mx my) with (Pos.compare mx my);
    rewrite (Pos.compare_antisym mx my);
    destruct (Pos.compare mx my); cbn [CompOpp]; try reflexivity; discriminate.
Qed.

(** The product by an opposite is the opposite of the product. *)
Lemma binary_round_aux_opp (prec emax : Z) (s : bool) (m e : Z) (l : location) :
  binary_round_aux prec emax (negb s) m e l
  = SFopp (binary_round_aux prec emax s m e l).
Proof.
  unfold binary_round_aux.
  destruct (shr_fexp prec emax m e l) as [mrs' e'].
  destruct (shr_fexp prec emax _ e' loc_Exact) as [mrs'' e''].
  destruct (shr_m mrs''); try reflexivity.
  destruct (e'' <=? emax - prec); reflexivity.
Qed.


Lemma SFleb_true_SFltb (x y : spec_float) : SFleb x y = true -> SFltb y x = false.
Proof.
  unfold SFltb, SFleb, SFcompare.
  destruct x as [sx|sx| |sx mx ex], y as [sy|sy| |sy my ey];
    try discriminate; try reflexivity;
    try destruct sx; try destruct sy; try reflexivity; try discriminate.
  all: rewrite (Z.compare_antisym ex ey);
    destruct (Z.compare ex ey) eqn:Ec; cbn [CompOpp]; try reflexivity; try discriminate.
  all: change (Pos.compare_cont Eq my mx) with (Pos.compare my mx);
    change (Pos.compare_cont Eq mx my) with (Pos.compare mx my);
    rewrite (Pos.compare_antisym mx my);
    destruct (Pos.compare mx my); cbn [CompOpp]; try reflexivity; discriminate.
Qed.

(** ** Adaptive directional scanner *)

Section ScannerFacts.
Import AdaptiveScannerO2.

Implicit Types (s : t) (scan : list Pt2i).

Lemma skip_loop_exit s fuel : forall x y nst x' y' nst',
  skip_loop s fuel x y nst = Some (x', y', nst') ->
  (ymin s <= y' /\ x' < xmax s) \/ val s x' y' < dlc2 s.
Proof.
  induction fuel as [|fuel IH]; intros x y nst x' y' nst'; cbn [skip_loop];
    destruct (((y <? ymin s) || (x >=? xmax s)) && (val s x y >=? dlc2 s)) eqn:C;
    try discriminate; eauto.
  all: intros [= <- <- <-]; rewrite Z.geb_leb in C.
  all: destruct (Z.ltb_spec y (ymin s)); destruct (Z.leb_spec (xmax s) x);
    destruct (Z.leb_spec (dlc2 s) (val s x y)); simpl in C; try discriminate; lia.
Qed.

Lemma emit_loop_stops s fuel x y nst scan :
  val s x y < dlc2 s -> emit_loop s fuel x y nst scan = Some scan.
Proof.
  intros H. destruct fuel; cbn [emit_loop];
    destruct (Z.geb_spec (val s x y) (dlc2 s)); try lia; reflexivity.
Qed.

Lemma emit_loop_spec s fuel : forall x y nst scan scan',
  emit_loop s fuel x y nst scan = Some scan' ->
  x < xmax s -> ymin s <= y ->
  appended (reported s) scan scan'.
Proof.
  induction fuel as [|fuel IH]; intros x y nst scan scan'; cbn [emit_loop];
    destruct ((val s x y >=? dlc2 s) && (y <? ymax s) && (x >=? xmin s)) eqn:C;
    try discriminate.
  1,3: intros [= <-] _ _; exists []; rewrite app_nil_r; auto.
  intros E Hx Hy.
  apply andb_prop in C as [C Cx]. apply andb_prop in C as [Cv Cy].
  rewrite Z.geb_leb in Cv, Cx. apply Z.leb_le in Cv, Cx. apply Z.ltb_lt in Cy.
  apply IH in E as (new & -> & Hnew); [ | lia | destruct (step_at s nst); lia ].
  exists (mkPt2i x y :: new); split.
  - rewrite <- app_assoc; reflexivity.
  - constructor; [ | exact Hnew ].
    unfold reported, in_rect, above_lower; simpl; lia.
Qed.

Lemma scan_from_spec s fuel x y nst scan scan' :
  scan_from s fuel x y nst scan = Some scan' ->
  appended (reported s) scan scan'.
Proof.
  unfold scan_from.
  destruct (skip_loop s fuel x y nst) as [[[x' y'] nst']|] eqn:E; [ | discriminate ].
  apply skip_loop_exit in E as [[Hy Hx] | Hv]; intros E.
  - eapply emit_loop_spec; eauto.
  - rewrite emit_loop_stops in E by assumption. injection E as <-.
    exists []; rewrite app_nil_r; auto.
Qed.

Lemma reported_set_left s cx cy st p : reported (set_left s cx cy st) p <-> reported s p.
Proof. reflexivity. Qed.

Lemma reported_set_right s cx cy st p : reported (set_right s cx cy st) p <-> reported s p.
Proof. reflexivity. Qed.

Lemma skipLeft_spec s fuel scan skip s' scan' :
  skipLeft fuel s scan skip = Some (s', scan') ->
  appended (reported s') (if clearance s then [] else scan) scan' /\
  dlc1 s' = dlc1 s /\ dlc2 s' = dlc2 s /\ dla s' = dla s /\ dlb s' = dlb s.
Proof.
  unfold skipLeft.
  destruct (back_loop _ _ _ _ _) as [[[cx cy] st]|]; [ | discriminate ].
  destruct (forth_loop _ _ _ _ _) as [[[cx' cy'] st']|]; [ | discriminate ].
  destruct (scan_from _ _ _ _ _ _) as [sc|] eqn:E; [ | discriminate ].
  intros [= <- <-]. split; [ | repeat split ].
  eapply scan_from_spec; eassumption.
Qed.

Lemma skipRight_spec s fuel scan skip s' scan' :
  skipRight fuel s scan skip = Some (s', scan') ->
  appended (reported s') (if clearance s then [] else scan) scan' /\
  dlc1 s' = dlc1 s /\ dlc2 s' = dlc2 s /\ dla s' = dla s /\ dlb s' = dlb s.
Proof.
  unfold skipRight.
  destruct (back_loop _ _ _ _ _) as [[[cx cy] st]|]; [ | discriminate ].
  destruct (forth_loop _ _ _ _ _) as [[[cx' cy'] st']|]; [ | discriminate ].
  destruct (scan_from _ _ _ _ _ _) as [sc|] eqn:E; [ | discriminate ].
  intros [= <- <-]. split; [ | repeat split ].
  eapply scan_from_spec; eassumption.
Qed.

End ScannerFacts.

Section ScannerUpperLine.
Import AdaptiveScannerO2.

Implicit Types (s : t) (scan : list Pt2i).

(** Along one scan the value [a x + b y] does not increase when
    [0 <= a] and [b <= 0], the shape of a second-octant direction: the
    pixels of a scan are below its start cursor. *)
Lemma skip_loop_below s fuel : forall x y nst x' y' nst',
  0 <= dla s -> dlb s <= 0 ->
  skip_loop s fuel x y nst = Some (x', y', nst') ->
  val s x' y' <= val s x y /\ x' <= x.
Proof.
  induction fuel as [|fuel IH]; intros x y nst x' y' nst' Ha Hb; cbn [skip_loop];
    destruct (((y <? ymin s) || (x >=? xmax s)) && (val s x y >=? dlc2 s));
    try discriminate; try (intros [= <- <- <-]; lia).
  intros E. apply IH in E as [E1 E2]; try assumption.
  unfold val in *. destruct (step_at s nst); nia.
Qed.

Lemma emit_loop_below s fuel : forall x y nst scan scan',
  0 <= dla s -> dlb s <= 0 ->
  emit_loop s fuel x y nst scan = Some scan' ->
  appended (fun p => val s (p2i_x p) (p2i_y p) <= val s x y) scan scan'.
Proof.
  induction fuel as [|fuel IH]; intros x y nst scan scan' Ha Hb; cbn [emit_loop];
    destruct ((val s x y >=? dlc2 s) && (y <? ymax s) && (x >=? xmin s));
    try discriminate.
  1,3: intros [= <-]; exists []; rewrite app_nil_r; auto.
  intros E. apply IH in E as (new & -> & Hnew); try assumption.
  exists (mkPt2i x y :: new); split; [ rewrite <- app_assoc; reflexivity | ].
  constructor; [ simpl; lia | ].
  eapply Forall_impl; [ exact Hnew | ]. cbv beta. intros p Hp.
  unfold val in *. destruct (step_at s nst); nia.
Qed.

Lemma scan_from_below_start s fuel x y nst scan scan' :
  0 <= dla s -> dlb s <= 0 ->
  scan_from s fuel x y nst scan = Some scan' ->
  appended (fun p => val s (p2i_x p) (p2i_y p) <= val s x y) scan scan'.
Proof.
  intros Ha Hb. unfold scan_from.
  destruct (skip_loop s fuel x y nst) as [[[x' y'] nst']|] eqn:E; [ | discriminate ].
  apply skip_loop_below in E as [E _]; try assumption.
  intros E'. apply emit_loop_below in E' as (new & -> & Hnew); try assumption.
  exists new; split; [ reflexivity | ].
  eapply Forall_impl; [ exact Hnew | ]. cbv beta. intros p Hp. lia.
Qed.

End ScannerUpperLine.

Section ScannerTermination.
Import AdaptiveScannerO2.

Implicit Types (s : t) (scan : list Pt2i).

(** More fuel does not change a result. *)
Lemma skip_loop_mono s fuel : forall fuel' x y nst r,
  (fuel <= fuel')%nat ->
  skip_loop s fuel x y nst = Some r -> skip_loop s fuel' x y nst = Some r.
Proof.
  induction fuel as [|fuel IH]; intros fuel' x y nst r Hle;
    destruct fuel' as [|fuel']; try (exfalso; lia); cbn [skip_loop];
    destruct (((y <? ymin s) || (x >=? xmax s)) && (val s x y >=? dlc2 s));
    try discriminate; auto.
  apply IH; lia.
Qed.

Lemma emit_loop_mono s fuel : forall fuel' x y nst scan r,
  (fuel <= fuel')%nat ->
  emit_loop s fuel x y nst scan = Some r -> emit_loop s fuel' x y nst scan = Some r.
Proof.
  induction fuel as [|fuel IH]; intros fuel' x y nst scan r Hle;
    destruct fuel' as [|fuel']; try (exfalso; lia); cbn [emit_loop];
    destruct ((val s x y >=? dlc2 s) && (y <? ymax s) && (x >=? xmin s));
    try discriminate; auto.
  apply IH; lia.
Qed.

Lemma back_loop_mono s fuel : forall fuel' x y st r,
  (fuel <= fuel')%nat ->
  back_loop s fuel x y st = Some r -> back_loop s fuel' x y st = Some r.
Proof.
  induction fuel as [|fuel IH]; intros fuel' x y st r Hle;
    destruct fuel' as [|fuel']; try (exfalso; lia); cbn [back_loop];
    destruct ((x >? xmin s) && (y <? ymax s) && (val s x y >? dlc1 s));
    try discriminate; auto.
  apply IH; lia.
Qed.

Lemma forth_loop_mono s fuel : forall fuel' x y st r,
  (fuel <= fuel')%nat ->
  forth_loop s fuel x y st = Some r -> forth_loop s fuel' x y st = Some r.
Proof.
  induction fuel as [|fuel IH]; intros fuel' x y st r Hle;
    destruct fuel' as [|fuel']; try (exfalso; lia); cbn [forth_loop];
    destruct ((x <? xmax s - 1) && (y >=? ymin s) && (val s x y <? dlc1 s));
    try discriminate; auto.
  cbv zeta. apply IH; lia.
Qed.

(** Each loop ends: the cursor loops and the pixel loop because [x] runs
    to a border of the rectangle, the first loop of a scan because
    [a x + b y] decreases when [0 < a] and [b <= 0]. *)
Lemma emit_loop_total s fuel : forall x y nst scan,
  (Z.to_nat (x - xmin s + 1) <= fuel)%nat ->
  is_Some (emit_loop s fuel x y nst scan).
Proof.
  induction fuel as [|fuel IH]; intros x y nst scan Hf; cbn [emit_loop];
    destruct ((val s x y >=? dlc2 s) && (y <? ymax s) && (x >=? xmin s)) eqn:C;
    eauto.
  all: apply andb_prop in C as [_ C]; rewrite Z.geb_leb in C; apply Z.leb_le in C.
  - exfalso; lia.
  - apply IH; lia.
Qed.

Lemma back_loop_total s fuel : forall x y st,
  (Z.to_nat (x - xmin s) <= fuel)%nat -> is_Some (back_loop s fuel x y st).
Proof.
  induction fuel as [|fuel IH]; intros x y st Hf; cbn [back_loop];
    destruct ((x >? xmin s) && (y <? ymax s) && (val s x y >? dlc1 s)) eqn:C;
    eauto.
  all: apply andb_prop in C as [C _]; apply andb_prop in C as [C _];
    rewrite Z.gtb_ltb in C; apply Z.ltb_lt in C.
  - exfalso; lia.
  - apply IH; lia.
Qed.

Lemma forth_loop_total s fuel : forall x y st,
  (Z.to_nat (xmax s - 1 - x) <= fuel)%nat -> is_Some (forth_loop s fuel x y st).
Proof.
  induction fuel as [|fuel IH]; intros x y st Hf; cbn [forth_loop];
    destruct ((x <? xmax s - 1) && (y >=? ymin s) && (val s x y <? dlc1 s)) eqn:C;
    eauto.
  all: apply andb_prop in C as [C _]; apply andb_prop in C as [C _];
    apply Z.ltb_lt in C.
  - exfalso; lia.
  - cbv zeta. apply IH; lia.
Qed.

Lemma skip_loop_total s fuel : forall x y nst,
  0 < dla s -> dlb s <= 0 ->
  (Z.to_nat (val s x y - dlc2 s + 1) <= fuel)%nat ->
  is_Some (skip_loop s fuel x y nst).
Proof.
  induction fuel as [|fuel IH]; intros x y nst Ha Hb Hf; cbn [skip_loop];
    destruct (((y <? ymin s) || (x >=? xmax s)) && (val s x y >=? dlc2 s)) eqn:C;
    eauto.
  all: apply andb_prop in C as [_ C]; rewrite Z.geb_leb in C; apply Z.leb_le in C.
  - exfalso; lia.
  - apply IH; try assumption. unfold val in *. destruct (step_at s nst); nia.
Qed.

Lemma scan_from_total s x y nst scan :
  0 < dla s -> dlb s <= 0 ->
  exists fuel0, forall fuel, (fuel0 <= fuel)%nat ->
    is_Some (scan_from s fuel x y nst scan).
Proof.
  intros Ha Hb.
  destruct (skip_loop_total s (Z.to_nat (val s x y - dlc2 s + 1)) x y nst Ha Hb)
    as [[[x' y'] nst'] E1]; [ lia | ].
  destruct (emit_loop_total s (Z.to_nat (x' - xmin s + 1)) x' y' nst' scan)
    as [r E2]; [ lia | ].
  exists (Nat.max (Z.to_nat (val s x y - dlc2 s + 1)) (Z.to_nat (x' - xmin s + 1))).
  intros fuel Hf. unfold scan_from.
  apply (skip_loop_mono _ _ fuel) in E1; [ rewrite E1 | lia ].
  apply (emit_loop_mono _ _ fuel) in E2; [ rewrite E2 | lia ]. eauto.
Qed.

Lemma first_total s scan :
  0 < dla s -> dlb s <= 0 ->
  exists fuel0, forall fuel, (fuel0 <= fuel)%nat -> is_Some (first fuel s scan).
Proof. intros; apply scan_from_total; assumption. Qed.

Lemma skipLeft_total s scan skip :
  0 < dla s -> dlb s <= 0 ->
  exists fuel0, forall fuel, (fuel0 <= fuel)%nat ->
    is_Some (skipLeft fuel s scan skip).
Proof.
  intros Ha Hb.
  destruct (back_loop_total s (Z.to_nat (lcx s - xmin s)) (lcx s) (lcy s - skip) (lst2 s))
    as [[[cx cy] st] E1]; [ lia | ].
  destruct (forth_loop_total s (Z.to_nat (xmax s - 1 - cx)) cx cy st)
    as [[[cx' cy'] st'] E2]; [ lia | ].
  destruct (scan_from_total (set_left s cx' cy' st') cx' cy' st'
              (if clearance s then [] else scan) Ha Hb) as [f3 E3].
  exists (Nat.max (Z.to_nat (lcx s - xmin s)) (Nat.max (Z.to_nat (xmax s - 1 - cx)) f3)).
  intros fuel Hf. unfold skipLeft.
  apply (back_loop_mono _ _ fuel) in E1; [ rewrite E1 | lia ].
  apply (forth_loop_mono _ _ fuel) in E2; [ rewrite E2 | lia ].
  destruct (E3 fuel ltac:(lia)) as [r ->]. eauto.
Qed.

Lemma skipRight_total s scan skip :
  0 < dla s -> dlb s <= 0 ->
  exists fuel0, forall fuel, (fuel0 <= fuel)%nat ->
    is_Some (skipRight fuel s scan skip).
Proof.
  intros Ha Hb.
  destruct (back_loop_total s (Z.to_nat (rcx s - xmin s)) (rcx s) (rcy s + skip) (rst2 s))
    as [[[cx cy] st] E1]; [ lia | ].
  destruct (forth_loop_total s (Z.to_nat (xmax s - 1 - cx)) cx cy st)
    as [[[cx' cy'] st'] E2]; [ lia | ].
  destruct (scan_from_total (set_right s cx' cy' st') cx' cy' st'
              (if clearance s then [] else scan) Ha Hb) as [f3 E3].
  exists (Nat.max (Z.to_nat (rcx s - xmin s)) (Nat.max (Z.to_nat (xmax s - 1 - cx)) f3)).
  intros fuel Hf. unfold skipRight.
  apply (back_loop_mono _ _ fuel) in E1; [ rewrite E1 | lia ].
  apply (forth_loop_mono _ _ fuel) in E2; [ rewrite E2 | lia ].
  destruct (E3 fuel ltac:(lia)) as [r ->]. eauto.
Qed.

End ScannerTermination.

Section ScannerClaims.
Import AdaptiveScannerO2.

(** C3, as the code has it.  Every pixel added to the vector by [first],
    [nextOnLeft], [nextOnRight], [skipLeft] or [skipRight] lies inside the
    rectangle ([xmin <= x < xmax], [ymin <= y < ymax]) and satisfies
    [dlc2 <= a x + b y] for the strip of the scanner; the vector is
    emptied first when [clearance] is set.  No upper bound [a x + b y <= dlc1]
    is part of the statement.  For a direction of the octant ([a > 0],
    [b <= 0]) the five operations do return, whatever the cursors. *)
Theorem C3_scan_pixels_in_rectangle_above_lower_line
    (fuel : nat) (s : t) (scan : list Pt2i) (skip : Z) :
  (forall scan', first fuel s scan = Some scan' ->
     appended (reported s) scan scan') /\
  (forall s' scan', nextOnLeft fuel s scan = Some (s', scan') ->
     appended (reported s') (if clearance s then [] else scan) scan') /\
  (forall s' scan', nextOnRight fuel s scan = Some (s', scan') ->
     appended (reported s') (if clearance s then [] else scan) scan') /\
  (forall s' scan', skipLeft fuel s scan skip = Some (s', scan') ->
     appended (reported s') (if clearance s then [] else scan) scan') /\
  (forall s' scan', skipRight fuel s scan skip = Some (s', scan') ->
     appended (reported s') (if clearance s then [] else scan) scan') /\
  (0 < dla s -> dlb s <= 0 ->
   exists fuel0, forall fuel', (fuel0 <= fuel')%nat ->
     is_Some (first fuel' s scan) /\
     is_Some (nextOnLeft fuel' s scan) /\
     is_Some (nextOnRight fuel' s scan) /\
     is_Some (skipLeft fuel' s scan skip) /\
     is_Some (skipRight fuel' s scan skip)).
Proof.
  split; [ | split; [ | split; [ | split; [ | split ] ] ] ].
  - intros scan'. apply scan_from_spec.
  - intros s' scan' E. apply skipLeft_spec in E as [E _]. exact E.
  - intros s' scan' E. apply skipRight_spec in E as [E _]. exact E.
  - intros s' scan' E. apply skipLeft_spec in E as [E _]. exact E.
  - intros s' scan' E. apply skipRight_spec in E as [E _]. exact E.
  - intros Ha Hb.
    destruct (first_total s scan Ha Hb) as [f1 H1].
    destruct (skipLeft_total s scan 1 Ha Hb) as [f2 H2].
    destruct (skipRight_total s scan 1 Ha Hb) as [f3 H3].
    destruct (skipLeft_total s scan skip Ha Hb) as [f4 H4].
    destruct (skipRight_total s scan skip Ha Hb) as [f5 H5].
    exists (Nat.max f1 (Nat.max f2 (Nat.max f3 (Nat.max f4 f5)))).
    intros fuel' Hf. unfold nextOnLeft, nextOnRight.
    repeat split; [ apply H1 | apply H2 | apply H3 | apply H4 | apply H5 ]; lia.
Qed.

(** The central scan of the example scanner, through the theorem. *)
Lemma C3_scan_pixels_witness :
  first 20 Fixtures.scanner_2_1 []
  = Some [mkPt2i 7 4; mkPt2i 6 5; mkPt2i 5 5; mkPt2i 4 6] /\
  appended (reported Fixtures.scanner_2_1) []
    [mkPt2i 7 4; mkPt2i 6 5; mkPt2i 5 5; mkPt2i 4 6].
Proof.
  split; [ reflexivity | ].
  apply (proj1 (C3_scan_pixels_in_rectangle_above_lower_line
                  20 Fixtures.scanner_2_1 [] 1)).
  reflexivity.
Defined.

(** C3 as stated fails on the upper line: the scan on the left of the
    central scan of the example scanner starts at [(7, 3)], where
    [a x + b y = 11] exceeds [dlc1 = 10]. *)
Lemma C3_counterexample_upper_line :
  exists s' scan',
    nextOnLeft 20 Fixtures.scanner_2_1 [] = Some (s', scan') /\
    dlc1 s' = 10 /\
    In (mkPt2i 7 3) scan' /\
    ~ below_upper s' (mkPt2i 7 3).
Proof.
  eexists _, _. split; [ reflexivity | ].
  split; [ reflexivity | ].
  split; [ left; reflexivity | ].
  unfold below_upper, val; simpl. lia.
Qed.






End ScannerClaims.
(** ** Seed file *)

Section SeedFile.
Import Seeds.

Lemma write_pairs_strokes (v : list Pt2i) : forall fs,
  write_pairs v = Some fs ->
  exists strokes, fs = flat_map stroke_fields strokes /\
                  Z.of_nat (length v) = 2 * Z.of_nat (length strokes).
Proof.
  assert (Hle : (length v <= length v)%nat) by lia.
  revert Hle. generalize (length v) at 2. intros n. revert v.
  induction n as [|n IH]; intros v Hle fs;
    destruct v as [|pt1 [|pt2 rest]]; cbn [write_pairs];
    try discriminate; try (cbn [length] in Hle; exfalso; lia).
  1,2: intros [= <-]; exists []; split; reflexivity.
  destruct (write_pairs rest) as [fs'|] eqn:E; [ | discriminate ].
  intros [= <-].
  destruct (IH rest ltac:(cbn [length] in Hle; lia) fs' E) as (strokes & -> & Hlen).
  exists ((pt1, pt2) :: strokes). split; [ reflexivity | ].
  cbn [length]. lia.
Qed.

Lemma write_tiles_strokes (arr : list (list Pt2i)) (idx : list nat) : forall body,
  write_tiles arr idx = Some body ->
  exists strokes, body = flat_map stroke_fields strokes /\
                  sum_sizes arr idx = Some (2 * Z.of_nat (length strokes)).
Proof.
  induction idx as [|k idx IH]; intros body; cbn [write_tiles sum_sizes].
  - intros [= <-]. exists []. split; reflexivity.
  - destruct (arr !! k) as [v|]; [ | discriminate ]. cbn [mbind option_bind].
    destruct (write_pairs v) as [fs|] eqn:Ev; [ | discriminate ].
    cbn [mbind option_bind].
    destruct (write_tiles arr idx) as [more|] eqn:Em; [ | discriminate ].
    intros [= <-].
    apply write_pairs_strokes in Ev as (s1 & -> & H1).
    destruct (IH more eq_refl) as (s2 & -> & H2).
    exists (s1 ++ s2). split.
    + rewrite flat_map_app. reflexivity.
    + rewrite H2. cbn [mbind option_bind mret option_ret].
      f_equal. rewrite length_app. lia.
Qed.

(** The sum of the sizes does not depend on the order of the tiles. *)
Lemma sum_sizes_perm (arr : list (list Pt2i)) (idx idx' : list nat) :
  Permutation idx idx' -> sum_sizes arr idx = sum_sizes arr idx'.
Proof.
  induction 1 as [|i l l' _ IH|i j l|l l' l'' _ IH1 _ IH2]; cbn [sum_sizes].
  - reflexivity.
  - rewrite IH. reflexivity.
  - destruct (arr !! i), (arr !! j); cbn [mbind option_bind]; try reflexivity.
    destruct (sum_sizes arr l); cbn [mbind option_bind]; [ | reflexivity ].
    f_equal. lia.
  - congruence.
Qed.

Lemma row_forward_from (base cot : nat) : forall start,
  map (fun i => base + i)%nat (seq start cot) = seq (base + start) cot.
Proof.
  induction cot as [|cot IH]; intros start; [ reflexivity | ].
  cbn [seq map]. f_equal. rewrite IH. f_equal. lia.
Qed.

Lemma row_forward (base cot : nat) :
  map (fun i => base + i)%nat (seq 0 cot) = seq base cot.
Proof. rewrite row_forward_from. f_equal. lia. Qed.

Lemma row_backward (base cot : nat) :
  Permutation (map (fun i => base + (cot - 1 - i))%nat (seq 0 cot)) (seq base cot).
Proof.
  induction cot as [|cot IH]; [ reflexivity | ].
  rewrite (seq_S cot base). cbn [seq map].
  rewrite <- Permutation_cons_append.
  replace (base + (S cot - 1 - 0))%nat with (base + cot)%nat by lia.
  constructor. rewrite <- IH, <- seq_shift, map_map.
  erewrite map_ext; [ reflexivity | ]. intros i; cbv beta. f_equal; lia.
Qed.

Lemma tile_order_perm (rot cot : nat) :
  Permutation (tile_order rot cot) (seq 0 (rot * cot)).
Proof.
  unfold tile_order. induction rot as [|rot IH]; [ reflexivity | ].
  rewrite seq_S, flat_map_app. cbn [flat_map]. rewrite app_nil_r.
  replace (S rot * cot)%nat with (rot * cot + cot)%nat by lia.
  rewrite seq_app. apply Permutation_app; [ exact IH | ].
  cbn [Nat.add].
  destruct (Nat.odd rot); [ apply row_backward | rewrite row_forward; reflexivity ].
Qed.

(** C5, as the code has it.  For a grid of [rot >= 0] by [cot >= 0] tiles,
    the file written by [saveSeeds] is the five header fields, then the
    count, then the strokes as pairs of points, and the count is the number
    of points that follow, twice the number of stroke pairs; in both the
    plain and the half-size mode. *)
Theorem C5_seed_count_is_twice_the_stroke_pairs (t : state) (file : list field) :
  0 <= rowsOfTiles t -> 0 <= columnsOfTiles t ->
  saveSeeds t = Some file ->
  exists strokes : list (Pt2i * Pt2i),
    file = header t
           ++ Int32 (2 * Z.of_nat (length strokes))
           :: flat_map stroke_fields strokes.
Proof.
  intros Hrot Hcot. unfold saveSeeds, header.
  destruct (isHalfSizeSeedsOn t).
  - destruct ((2 * columnsOfTiles t =? 0) || (2 * rowsOfTiles t =? 0));
      [ discriminate | ].
    destruct (retile_all _ _ _ _ _ _ _) as [reseeds|]; [ | discriminate ].
    cbn [mbind option_bind].
    replace (Z.to_nat (columnsOfTiles t * rowsOfTiles t * 4))
      with (Z.to_nat (rowsOfTiles t * 2) * Z.to_nat (columnsOfTiles t * 2))%nat
      by (rewrite <- Z2Nat.inj_mul by lia; f_equal; lia).
    destruct (sum_sizes reseeds _) as [nb|] eqn:Enb; [ | discriminate ].
    cbn [mbind option_bind].
    destruct (write_tiles reseeds _) as [body|] eqn:Eb; [ | discriminate ].
    intros [= <-].
    apply write_tiles_strokes in Eb as (strokes & -> & Hsum).
    rewrite Hsum in Enb. injection Enb as <-.
    exists strokes. reflexivity.
  - destruct (sum_sizes (out_seeds t) _) as [nb|] eqn:Enb; [ | discriminate ].
    cbn [mbind option_bind].
    destruct (write_tiles (out_seeds t) _) as [body|] eqn:Eb; [ | discriminate ].
    intros [= <-].
    apply write_tiles_strokes in Eb as (strokes & -> & Hsum).
    rewrite (sum_sizes_perm _ _ _ (tile_order_perm _ _)) in Hsum.
    rewrite <- Z2Nat.inj_mul, Z.mul_comm in Hsum by lia.
    rewrite Hsum in Enb. injection Enb as <-.
    exists strokes. reflexivity.
Qed.

(** The file of the raster of 2 x 2 tiles, in half-size mode. *)
Lemma C5_seed_count_witness :
  exists strokes : list (Pt2i * Pt2i),
    [Int32 200; Int32 200; Float32 (S754_finite false 8388608 (-25));
     Int32 4; Int32 4; Int32 6;
     Point (mkPt2i 20 20); Point (mkPt2i 45 21);
     Point (mkPt2i 20 120); Point (mkPt2i 21 145);
     Point (mkPt2i 60 160); Point (mkPt2i 85 161)]
    = header (Fixtures.three_strokes true)
      ++ Int32 (2 * Z.of_nat (length strokes))
      :: flat_map stroke_fields strokes.
Proof.
  apply (C5_seed_count_is_twice_the_stroke_pairs (Fixtures.three_strokes true));
    [ simpl; lia | simpl; lia | reflexivity ].
Defined.

(** C5 as stated fails: for one stroke the count field is 2, and one
    stroke pair follows it. *)
Lemma C5_counterexample_count_of_pairs :
  exists (count : Z) (p1 p2 : Pt2i),
    saveSeeds Fixtures.one_stroke
    = Some (header Fixtures.one_stroke ++ [Int32 count; Point p1; Point p2]) /\
    count <> 1.
Proof.
  exists 2, (mkPt2i 10 10), (mkPt2i 22 10). split; [ reflexivity | lia ].
Qed.

End SeedFile.
(** ** Carriage-track detector *)

Section DetectorFrames.
Context {Plateau DS SP TS : Type}.
Context `{!PlateauOps Plateau} `{!TrackOps Plateau} `{!ScannerOps DS}.
Context `{!ProviderOps SP DS} `{!TileSetOps TS} {sorting : SortOps}.

Local Abbreviation Det := (Detector Plateau SP TS).
Local Abbreviation Track := (CarriageTrack Plateau).
Local Abbreviation WalkT := (@Walk Plateau DS SP TS).
Local Abbreviation NetWalkT := (@NetWalk Plateau DS SP TS).

Implicit Types (d : Det) (ct : Track).

Lemma same3_refl d : same3 d d.
Proof. repeat split. Qed.

Lemma same3_trans d d' d'' : same3 d d' -> same3 d' d'' -> same3 d d''.
Proof. unfold same3. intuition congruence. Qed.

Lemma same3_evolves d d' : same3 d d' -> evolves d d'.
Proof.
  intros (Hc & Hf & Hs). repeat split; [ assumption | | left; assumption ].
  rewrite Hf. auto.
Qed.

Lemma evolves_refl d : evolves d d.
Proof. apply same3_evolves, same3_refl. Qed.

Lemma evolves_trans d d' d'' : evolves d d' -> evolves d' d'' -> evolves d d''.
Proof.
  intros (Hc & Hf & Hs) (Hc' & Hf' & Hs'). repeat split.
  - congruence.
  - auto.
  - destruct Hs' as [E | [E | [E F]]]; [ | auto | auto ].
    rewrite E. destruct Hs as [E' | [E' | [E' F']]]; auto.
Qed.

Lemma put_track_evolves (initial : bool) d ct :
  evolves d (put_track initial d ct).
Proof.
  destruct initial; [ apply same3_evolves; repeat split | ].
  split; [ reflexivity | split ]; [ intros _; cbn; eauto | left; reflexivity ].
Qed.

(** A status written with [set_status], with the track put back. *)
Lemma fail_evolves (initial : bool) d d0 ct (s : Z) :
  evolves d d0 -> tracked_failure s ->
  evolves d (set_status initial (put_track initial d0 ct) s).
Proof.
  intros Hev Hs. eapply evolves_trans; [ exact Hev | ].
  destruct initial; [ apply same3_evolves; repeat split | ].
  split; [ reflexivity | split ]; [ intros _; cbn; eauto | ].
  right; right. split; [ exact Hs | cbn; eauto ].
Qed.

Lemma collect_same3 d p1f p12 l12 pix :
  same3 d (snd (collect d p1f p12 l12 pix)).
Proof. unfold collect. destruct (collect_scan _ _ _ _ _ _ _). repeat split. Qed.

Lemma updatePosition_same3 d ok pos : same3 d (snd (updatePosition d ok pos)).
Proof.
  unfold updatePosition. destruct (update_register _ _ _ _ _) as [[? ?] ?].
  repeat split.
Qed.

Lemma updateHeight_same3 d ok ht : same3 d (snd (updateHeight d ok ht)).
Proof.
  unfold updateHeight. destruct (update_register _ _ _ _ _) as [[? ?] ?].
  repeat split.
Qed.

Lemma estimate_trends_same3 pl d : same3 d (snd (estimate_trends pl d)).
Proof.
  unfold estimate_trends.
  pose proof (updatePosition_same3 d (possible pl) (estimatedCenter pl)) as H1.
  destruct (updatePosition d _ _) as [dev d1]. cbn [snd] in H1.
  pose proof (updateHeight_same3 d1 (consistentHeight (setDeviation pl dev))
                                 (getMinHeight (setDeviation pl dev))) as H2.
  destruct (updateHeight d1 _ _) as [slo d2]. cbn [snd] in *.
  eapply same3_trans; eassumption.
Qed.

Lemma resetRegisters_same3 d ok pos ht : same3 d (resetRegisters d ok pos ht).
Proof. repeat split. Qed.

Lemma same3_moves (initial : bool) d d' : same3 d d' -> moves initial d d'.
Proof. intros (Hc & Hf & Hs). repeat split; auto. Qed.

Lemma moves_trans (initial : bool) d d' d'' :
  moves initial d d' -> moves initial d' d'' -> moves initial d d''.
Proof.
  intros (Hc & Hf & Hs) (Hc' & Hf' & Hs').
  split; [ congruence | split; [ congruence | ] ].
  destruct Hs' as [E | E]; [ | right; exact E ].
  rewrite E. exact Hs.
Qed.

Lemma set_status_moves (initial : bool) d (s : Z) :
  tracked_failure s -> moves initial d (set_status initial d s).
Proof.
  intros Hs. destruct initial; (split; [ reflexivity | split; [ reflexivity | ] ]);
    [ left; reflexivity | right; split; [ reflexivity | exact Hs ] ].
Qed.

(** The detector handed back by a step that worked on the track [ct] of
    the detection in progress. *)
Lemma moves_evolves (initial : bool) d d' ct :
  moves initial d d' -> evolves d (put_track initial d' ct).
Proof.
  intros (Hc & Hf & Hs). destruct initial.
  - apply same3_evolves. destruct Hs as [Hs | [Hs _]]; [ | discriminate ].
    repeat split; assumption.
  - split; [ exact Hc | split ]; [ intros _; cbn; eauto | ].
    destruct Hs as [Hs | [_ Hs]]; [ left; exact Hs | ].
    right; right. split; [ exact Hs | cbn; eauto ].
Qed.

(** The start bounds: the status of the detection in progress only. *)
Lemma bounds_update_moves (initial : bool) num pl search ct d s' ct' d' :
  bounds_update initial num pl search ct d = (s', ct', d') ->
  moves initial d d'.
Proof.
  unfold bounds_update.
  destruct (search && initial_unbounded d);
    [ destruct (bounded pl && isAccepted pl);
      [ | destruct ((num =? NOBOUNDS_TOLERANCE) || (num =? - NOBOUNDS_TOLERANCE)) ] | ];
    intros [= <- <- <-];
    try solve [ apply same3_moves; repeat split ].
  apply set_status_moves. right; right; left; reflexivity.
Qed.

Lemma net_bounds_update_moves (initial : bool) num pl search ct d s' ct' d' :
  net_bounds_update initial num pl search ct d = (s', ct', d') ->
  moves initial d d'.
Proof.
  unfold net_bounds_update.
  destruct (search && initial_unbounded d);
    [ destruct (bounded pl && isAccepted pl);
      [ | destruct ((num =? NOBOUNDS_TOLERANCE) || (num =? - NOBOUNDS_TOLERANCE)) ] | ];
    intros [= <- <- <-];
    try solve [ apply same3_moves; repeat split ].
  apply set_status_moves. right; right; left; reflexivity.
Qed.

Lemma track_scan_evolves (onright initial : bool) p1f p12 l12 scan_shift
    pix dispix (search : bool) (w : WalkT) s' nf cd refs d' :
  track_scan onright initial p1f p12 l12 scan_shift pix dispix search w
  = Some (s', nf, cd, refs, d') ->
  evolves (w_det w) d' /\ is_Some (get_track initial d').
Proof.
  unfold track_scan.
  pose proof (collect_same3 (w_det w) p1f p12 l12 pix) as Hcol.
  destruct (collect (w_det w) p1f p12 l12 pix) as [pts d1]. cbn [snd] in *.
  intros E. apply bind_Some in E as (ct & Hct & E).
  destruct (lack_update _ _ _ _) as [nbfail search1].
  destruct (bounds_update _ _ _ _ _ _) as [[search2 ct2] d2] eqn:Hb.
  apply bounds_update_moves in Hb.
  assert (Hend : forall pl refs0 d3, same3 d2 d3 ->
            ('(ct0, confdist) ← accept_update (w_num w) (w_confdist w)
                                  (ct_modify ct2 (w_num w) (fun _ => pl));
             Some (search2, nbfail, confdist, refs0, put_track initial d3 ct0))
            = Some (s', nf, cd, refs, d') ->
            evolves (w_det w) d' /\ is_Some (get_track initial d')).
  { intros pl refs0 d3 H3 E0.
    apply bind_Some in E0 as ([ct0 confdist] & _ & E0).
    injection E0 as <- <- <- <- <-. split.
    - apply moves_evolves.
      eapply moves_trans; [ apply same3_moves; exact Hcol | ].
      eapply moves_trans; [ exact Hb | apply same3_moves; exact H3 ].
    - destruct initial; cbn; eauto. }
  destruct search2.
  - pose proof (estimate_trends_same3
                  (fst (select_plateau (pfeat (cfg (w_det w))) scan_shift
                          (std_sort compIFurther pts) (w_refs w) (w_refe w)
                          (w_refh w) (w_confdist w))) d2) as Hest.
    destruct (estimate_trends _ d2) as [pl' d3]. cbn [snd] in Hest.
    eapply Hend; eassumption.
  - eapply Hend; [ apply same3_refl | eassumption ].
Qed.

Lemma track_step_evolves (onright reversed : bool) exlimit p1f p12 l12
    ss_p1 ss_p12 ss_l12 dss_n (w w' : WalkT) :
  is_Some (get_track (negb (exlimit =? 0)) (w_det w)) ->
  track_step onright reversed exlimit p1f p12 l12 ss_p1 ss_p12 ss_l12 dss_n w
  = Some w' ->
  evolves (w_det w) (w_det w') /\
  is_Some (get_track (negb (exlimit =? 0)) (w_det w')).
Proof.
  intros Hct. unfold track_step.
  destruct (next_scans _ _ _ _ _ _ _) as [[[[ds disp] pix] dispix] search].
  destruct pix as [|px pix].
  - intros [= <-]. cbn. split; [ apply evolves_refl | exact Hct ].
  - intros E. apply bind_Some in E as ([[[[s' nf] cd] refs] d'] & E & E').
    destruct refs as [[refs refe] refh]. injection E' as <-. cbn.
    eapply track_scan_evolves; eassumption.
Qed.

Lemma track_loop_evolves (fuel : nat) (onright reversed : bool) exlimit
    p1f p12 l12 ss_p1 ss_p12 ss_l12 dss_n : forall w w' : WalkT,
  is_Some (get_track (negb (exlimit =? 0)) (w_det w)) ->
  track_loop fuel onright reversed exlimit p1f p12 l12
             ss_p1 ss_p12 ss_l12 dss_n w = Some w' ->
  evolves (w_det w) (w_det w') /\
  is_Some (get_track (negb (exlimit =? 0)) (w_det w')).
Proof.
  induction fuel as [|fuel IH]; intros w w' Hct; cbn [track_loop];
    destruct (w_search w && negb (w_num w =? exlimit)); try discriminate;
    try (intros [= <-]; split; [ apply evolves_refl | exact Hct ]).
  intros E. apply bind_Some in E as (w1 & E1 & E).
  apply track_step_evolves in E1 as [Hev Hct1]; [ | exact Hct ].
  apply IH in E as [Hev' Hct']; [ | exact Hct1 ].
  split; [ eapply evolves_trans; eassumption | exact Hct' ].
Qed.

Lemma track_evolves (fuel : nat) (onright reversed : bool) exlimit
    (ds disp : DS) p1f p12 l12 refs refe refh d ds' disp' d' :
  track fuel onright reversed exlimit ds disp p1f p12 l12 refs refe refh d
  = Some (ds', disp', d') ->
  evolves d d' /\ is_Some (get_track (negb (exlimit =? 0)) d').
Proof.
  unfold track. intros E.
  assert (Hz : ((if onright then - exlimit else exlimit) =? 0) = (exlimit =? 0)).
  { destruct onright; [ | reflexivity ].
    destruct (Z.eqb_spec (- exlimit) 0), (Z.eqb_spec exlimit 0); lia. }
  rewrite Hz in E.
  apply bind_Some in E as (ct & Hct & E).
  destruct (getInputStroke _ _) as [ss_p1 ss_p2].
  apply bind_Some in E as (w & E & E'). injection E' as <- <- <-.
  apply track_loop_evolves in E as [Hev Hct'].
  - rewrite Hz in Hct'. split; [ | exact Hct' ].
    eapply evolves_trans; [ apply put_track_evolves | exact Hev ].
  - rewrite Hz. cbn. destruct (negb (exlimit =? 0)); cbn; eauto.
Qed.

Lemma net_accept_run_moves (initial : bool) num confdist back
    (search : bool) ct d s' ct' d' :
  net_accept_run initial num confdist back search ct d = Some (s', ct', d') ->
  moves initial d d'.
Proof.
  unfold net_accept_run. intros E.
  apply bind_Some in E as (pl & _ & E).
  destruct (connect_on (cfg d)).
  - apply bind_Some in E as (fpl & _ & E).
    destruct (fit_chain _ _ _ _ _ _ _) as [[|]|]; try discriminate;
      injection E as <- <- <-.
    + apply same3_moves, same3_refl.
    + apply set_status_moves. right; right; right; reflexivity.
  - apply bind_Some in E as (pl' & _ & E).
    apply bind_Some in E as (lpl & _ & E).
    apply bind_Some in E as (ct0 & _ & E).
    injection E as <- <- <-. apply same3_moves, same3_refl.
Qed.

Lemma net_accept_update_moves (initial : bool) num confdist
    (search : bool) ct d s' ct' cd d' :
  net_accept_update initial num confdist search ct d = Some (s', ct', cd, d') ->
  moves initial d d'.
Proof.
  unfold net_accept_update. intros E.
  apply bind_Some in E as (pl & _ & E).
  destruct ((getStatus pl =? PLATEAU_RES_OK) && reliable pl).
  - apply bind_Some in E as ([[s1 ct1] d1] & E1 & E).
    apply net_accept_run_moves in E1.
    apply bind_Some in E as (pl' & _ & E).
    apply bind_Some in E as (prev & _ & E).
    destruct (negb (isConnectedTo pl' prev)); injection E as <- <- <- <-.
    + eapply moves_trans; [ exact E1 | ].
      apply set_status_moves. right; right; right; reflexivity.
    + exact E1.
  - injection E as <- <- <- <-. apply same3_moves, same3_refl.
Qed.

Lemma net_track_scan_evolves (onright initial : bool) p1f p12 l12 scan_shift
    ref pix dispix (search : bool) (w : NetWalkT) s' nf cd d' :
  net_track_scan onright initial p1f p12 l12 scan_shift ref pix dispix search w
  = Some (s', nf, cd, d') ->
  evolves (n_det w) d' /\ is_Some (get_track initial d').
Proof.
  unfold net_track_scan.
  pose proof (collect_same3 (n_det w) p1f p12 l12 pix) as Hcol.
  destruct (collect (n_det w) p1f p12 l12 pix) as [pts d1]. cbn [snd] in *.
  intros E. apply bind_Some in E as (ct & Hct & E).
  destruct (lack_update _ _ _ _) as [nbfail search1].
  destruct (net_bounds_update _ _ _ _ _ _) as [[search2 ct2] d2] eqn:Hb.
  apply net_bounds_update_moves in Hb.
  assert (Hend : forall pl d3, same3 d2 d3 ->
            ('(search, ct0, confdist, d4) ←
               net_accept_update initial (n_num w) (n_confdist w) search2
                                 (ct_modify ct2 (n_num w) (fun _ => pl)) d3;
             Some (search, nbfail, confdist, put_track initial d4 ct0))
            = Some (s', nf, cd, d') ->
            evolves (n_det w) d' /\ is_Some (get_track initial d')).
  { intros pl d3 H3 E0.
    apply bind_Some in E0 as ([[[s4 ct0] confdist] d4] & Hacc & E0).
    apply net_accept_update_moves in Hacc.
    injection E0 as <- <- <- <-. split.
    - apply moves_evolves.
      eapply moves_trans; [ apply same3_moves; exact Hcol | ].
      eapply moves_trans; [ exact Hb | ].
      eapply moves_trans; [ apply same3_moves; exact H3 | exact Hacc ].
    - destruct initial; cbn; eauto. }
  destruct search2.
  - pose proof (estimate_trends_same3
                  (net_select_plateau (pfeat (cfg (n_det w))) scan_shift
                     (std_sort compIFurther pts) ref (n_confdist w)) d2) as Hest.
    destruct (estimate_trends _ d2) as [pl' d3]. cbn [snd] in Hest.
    eapply Hend; eassumption.
  - eapply Hend; [ apply same3_refl | eassumption ].
Qed.

Lemma net_track_step_evolves (onright reversed : bool) exlimit p1f p12 l12
    ss_p1 ss_p12 ss_l12 dss_n (w w' : NetWalkT) :
  net_track_step onright reversed exlimit p1f p12 l12 ss_p1 ss_p12 ss_l12 dss_n w
  = Some w' ->
  evolves (n_det w) (n_det w') /\
  is_Some (get_track (negb (exlimit =? 0)) (n_det w')).
Proof.
  unfold net_track_step. intros E.
  apply bind_Some in E as (ct & Hct & E).
  apply bind_Some in E as (ref & _ & E).
  destruct (next_scans _ _ _ _ _ _ _) as [[[[ds disp] pix] dispix] search].
  destruct pix as [|px pix].
  - injection E as <-. cbn. split; [ apply evolves_refl | eauto ].
  - apply bind_Some in E as ([[[s' nf] cd] d'] & E & E').
    injection E' as <-. cbn.
    eapply net_track_scan_evolves; eassumption.
Qed.

Lemma net_track_loop_evolves (fuel : nat) (onright reversed : bool) exlimit
    p1f p12 l12 ss_p1 ss_p12 ss_l12 dss_n : forall w w' : NetWalkT,
  is_Some (get_track (negb (exlimit =? 0)) (n_det w)) ->
  net_track_loop fuel onright reversed exlimit p1f p12 l12
                 ss_p1 ss_p12 ss_l12 dss_n w = Some w' ->
  evolves (n_det w) (n_det w') /\
  is_Some (get_track (negb (exlimit =? 0)) (n_det w')).
Proof.
  induction fuel as [|fuel IH]; intros w w' Hct; cbn [net_track_loop];
    destruct (n_search w && negb (n_num w =? exlimit)); try discriminate;
    try (intros [= <-]; split; [ apply evolves_refl | exact Hct ]).
  intros E. apply bind_Some in E as (w1 & E1 & E).
  apply net_track_step_evolves in E1 as [Hev Hct1].
  apply IH in E as [Hev' Hct']; [ | exact Hct1 ].
  split; [ eapply evolves_trans; eassumption | exact Hct' ].
Qed.

Lemma net_track_evolves (fuel : nat) (onright reversed : bool) exlimit
    (ds disp : DS) p1f p12 l12 refnum d ds' disp' d' :
  net_track fuel onright reversed exlimit ds disp p1f p12 l12 refnum d
  = Some (ds', disp', d') ->
  evolves d d' /\ is_Some (get_track (negb (exlimit =? 0)) d').
Proof.
  unfold net_track. intros E.
  assert (Hz : ((if onright then - exlimit else exlimit) =? 0) = (exlimit =? 0)).
  { destruct onright; [ | reflexivity ].
    destruct (Z.eqb_spec (- exlimit) 0), (Z.eqb_spec exlimit 0); lia. }
  rewrite Hz in E.
  apply bind_Some in E as (ct & Hct & E).
  destruct (getInputStroke _ _) as [ss_p1 ss_p2].
  apply bind_Some in E as (w & E & E'). injection E' as <- <- <-.
  apply net_track_loop_evolves in E as [Hev Hct'].
  - rewrite Hz in Hct'. split; [ | exact Hct' ].
    eapply evolves_trans; [ apply put_track_evolves | exact Hev ].
  - rewrite Hz. cbn. destruct (negb (exlimit =? 0)); cbn; eauto.
Qed.

Lemma side_walks_evolves (fuel : nat) exlimit (ds disp : DS) p1f p12 l12 d d' :
  side_walks fuel exlimit ds disp p1f p12 l12 d = Some d' -> evolves d d'.
Proof.
  unfold side_walks. intros E.
  apply bind_Some in E as (ct & _ & E). apply bind_Some in E as (cpl & _ & E).
  cbv zeta in E.
  apply bind_Some in E as ([[ds1 disp1] d1] & E1 & E).
  apply track_evolves in E1 as [Hev1 _].
  assert (H1 : evolves d d1).
  { eapply evolves_trans; [ | exact Hev1 ]. apply same3_evolves.
    destruct (bounded cpl); repeat split. }
  clear Hev1.
  apply bind_Some in E as (ct1 & _ & E). apply bind_Some in E as (cpl1 & _ & E).
  apply bind_Some in E as ([[ds2 disp2] d2] & E2 & E).
  apply track_evolves in E2 as [Hev2 _].
  assert (H2 : evolves d d2).
  { eapply evolves_trans; [ exact H1 | ].
    eapply evolves_trans; [ | exact Hev2 ]. apply same3_evolves. repeat split. }
  clear Hev2 H1.
  apply bind_Some in E as (d3 & E3 & E).
  assert (H3 : evolves d d3).
  { destruct (initial_unbounded d1 && negb (initial_unbounded d2)).
    - apply bind_Some in E3 as (ct2 & _ & E3).
      apply bind_Some in E3 as (cpl2 & _ & E3).
      apply bind_Some in E3 as ([[ds3 disp3] d3'] & E3 & E3').
      injection E3' as <-.
      apply track_evolves in E3 as [Hev3 _].
      eapply evolves_trans; [ exact H2 | ].
      eapply evolves_trans; [ | exact Hev3 ]. apply same3_evolves. repeat split.
    - injection E3 as <-. exact H2. }
  clear E3 H2.
  apply bind_Some in E as (ct3 & _ & E).
  destruct (negb (tailMinSize (pfeat (cfg d3)) =? 0)).
  - destruct (ct_prune ct3 _) as [ct4 failed]. destruct failed; injection E as <-.
    + apply fail_evolves; [ exact H3 | right; left; reflexivity ].
    + eapply evolves_trans; [ exact H3 | apply put_track_evolves ].
  - injection E as <-. exact H3.
Qed.

Lemma auto_track_evolves (fuel : nat) (onright reversed : bool)
    (ds disp : DS) p1f p12 l12 refnum d ds' disp' d' :
  auto_track fuel onright reversed ds disp p1f p12 l12 refnum d
  = Some (ds', disp', d') ->
  evolves d d'.
Proof.
  unfold auto_track. destruct (isNetBuildOn _); intros E.
  - apply net_track_evolves in E as [E _]. exact E.
  - apply track_evolves in E as [E _]. exact E.
Qed.

Lemma auto_side_walks_evolves (fuel : nat) (ds disp : DS) p1f p12 l12 d d' :
  auto_side_walks fuel ds disp p1f p12 l12 d = Some d' -> evolves d d'.
Proof.
  unfold auto_side_walks. intros E.
  apply bind_Some in E as (ct & _ & E). apply bind_Some in E as (cpl & _ & E).
  cbv zeta in E.
  apply bind_Some in E as ([[ds1 disp1] d1] & E1 & E).
  apply auto_track_evolves in E1.
  assert (H1 : evolves d d1).
  { eapply evolves_trans; [ | exact E1 ]. apply same3_evolves.
    destruct (bounded cpl); repeat split. }
  clear E1.
  apply bind_Some in E as (ct1 & _ & E). apply bind_Some in E as (cpl1 & _ & E).
  apply bind_Some in E as ([[ds2 disp2] d2] & E2 & E).
  apply auto_track_evolves in E2.
  assert (H2 : evolves d d2).
  { eapply evolves_trans; [ exact H1 | ].
    eapply evolves_trans; [ | exact E2 ]. apply same3_evolves. repeat split. }
  clear E2 H1.
  apply bind_Some in E as (d3 & E3 & E).
  assert (H3 : evolves d d3).
  { destruct (initial_unbounded d1 && negb (initial_unbounded d2)).
    - apply bind_Some in E3 as (ct2 & _ & E3).
      apply bind_Some in E3 as (cpl2 & _ & E3).
      apply bind_Some in E3 as ([[ds3 disp3] d3'] & E3 & E3').
      injection E3' as <-.
      apply auto_track_evolves in E3.
      eapply evolves_trans; [ exact H2 | ].
      eapply evolves_trans; [ | exact E3 ]. apply same3_evolves. repeat split.
    - injection E3 as <-. exact H2. }
  clear E3 H2.
  apply bind_Some in E as (ct3 & _ & E).
  destruct (negb (tailMinSize (pfeat (cfg d3)) =? 0)).
  - destruct (ct_prune ct3 _) as [ct4 failed]. destruct failed; injection E as <-.
    + apply (fail_evolves false); [ exact H3 | right; left; reflexivity ].
    + eapply evolves_trans; [ exact H3 | apply (put_track_evolves false) ].
  - injection E as <-. exact H3.
Qed.

Lemma central_scan_same3 d p1 p2 d' (ds disp : DS) pix :
  central_scan d p1 p2 = (d', ds, disp, pix) -> same3 d d'.
Proof.
  unfold central_scan.
  destruct (getScanner (scanp d) _ _ _) as [sp ds0].
  destruct (getScanner (discanp d) _ _ _) as [dsp disp0].
  destruct (repeat_scan _ ds_nextOnRight _ _ _) as [ds1 pix1].
  destruct (repeat_scan _ ds_nextOnLeft _ _ _) as [ds2 pix2].
  intros [= <- <- <- <-]. repeat split.
Qed.

Lemma detect_limited_evolves (fuel : nat) exlimit d d' :
  detect_limited fuel exlimit d = Some d' -> evolves d d'.
Proof.
  unfold detect_limited.
  destruct (getInputStroke d _) as [p1 p2].
  destruct (central_scan d p1 p2) as [[[d0 ds] disp] pix] eqn:Hcs.
  apply central_scan_same3 in Hcs.
  destruct pix as [|px pix].
  - intros [= <-]. eapply evolves_trans; [ apply same3_evolves; exact Hcs | ].
    destruct (negb (exlimit =? 0)); cbn.
    + apply same3_evolves. repeat split.
    + split; [ reflexivity | split; [ auto | right; left; reflexivity ] ].
  - pose proof (collect_same3 d0 (stroke_origin (csize (cfg d)) p1)
                  (stroke_vector (csize (cfg d)) p1 p2)
                  (stroke_length (stroke_vector (csize (cfg d)) p1 p2))
                  (px :: pix)) as Hcol.
    destruct (collect d0 _ _ _ _) as [cpts d1]. cbn [snd] in Hcol.
    destruct (central_plateau _ _ _) as [success cpl].
    assert (H1 : evolves d d1).
    { apply same3_evolves. eapply same3_trans; eassumption. }
    destruct success; intros E.
    + apply side_walks_evolves in E.
      eapply evolves_trans; [ exact H1 | ].
      eapply evolves_trans; [ apply put_track_evolves | exact E ].
    + injection E as <-. apply fail_evolves; [ exact H1 | left; reflexivity ].
Qed.

Lemma detect_auto_evolves (fuel : nat) d d' :
  detect_auto fuel d = Some d' -> evolves d d'.
Proof.
  unfold detect_auto.
  destruct (getInputStroke d _) as [p1 p2].
  destruct (central_scan d p1 p2) as [[[d0 ds] disp] pix] eqn:Hcs.
  apply central_scan_same3 in Hcs.
  destruct pix as [|px pix].
  - intros [= <-]. eapply evolves_trans; [ apply same3_evolves; exact Hcs | ].
    split; [ reflexivity | split; [ auto | right; left; reflexivity ] ].
  - pose proof (collect_same3 d0 (stroke_origin (csize (cfg d)) p1)
                  (stroke_vector (csize (cfg d)) p1 p2)
                  (stroke_length (stroke_vector (csize (cfg d)) p1 p2))
                  (px :: pix)) as Hcol.
    destruct (collect d0 _ _ _ _) as [cpts d1]. cbn [snd] in Hcol.
    destruct (auto_central _ _ _ _) as [cpl found].
    assert (H1 : evolves d d1).
    { apply same3_evolves. eapply same3_trans; eassumption. }
    destruct found; cbn [negb]; intros E.
    + apply auto_side_walks_evolves in E.
      eapply evolves_trans; [ exact H1 | ].
      eapply evolves_trans; [ apply (put_track_evolves false) | exact E ].
    + injection E as <-.
      apply (fail_evolves false); [ exact H1 | left; reflexivity ].
Qed.

Lemma alignInput_same3 d pts d' : alignInput d pts = Some d' -> same3 d d'.
Proof.
  unfold alignInput. destruct pts as [|p0 rest]; [ discriminate | ].
  destruct (fold_left _ rest _) as [[[xm ym] [xmin xmax]] [ymin ymax]].
  destruct (fold_left _ (rev (p0 :: rest)) _) as [[xv yv] xyv].
  destruct (if F32.gt _ _ then _ else _) as [[a b] c].
  intros [= <-]. repeat split.
Qed.

Lemma realign_evolves (fuel : nat) p1 p2 d d' :
  realign fuel p1 p2 d = Some d' -> evolves d d'.
Proof.
  unfold realign. destruct (ict d) as [it|]; [ | intros [= <-]; apply evolves_refl ].
  destruct (negb (istatus d =? RESULT_FAIL_NO_CENTRAL_PLATEAU));
    [ | intros [= <-]; apply evolves_refl ].
  intros E. apply bind_Some in E as (rpl & _ & E). cbv zeta in E.
  destruct (Z.of_nat _ >? _); [ | injection E as <-; apply evolves_refl ].
  apply bind_Some in E as (d1 & E1 & E).
  apply alignInput_same3 in E1. apply detect_limited_evolves in E.
  eapply evolves_trans; [ apply same3_evolves; exact E1 | exact E ].
Qed.

End DetectorFrames.
Section DetectorClaims.
Context {Plateau DS SP TS : Type}.
Context `{!PlateauOps Plateau} `{!TrackOps Plateau} `{!ScannerOps DS}.
Context `{!ProviderOps SP DS} `{!TileSetOps TS} {sorting : SortOps}.

Local Abbreviation Det := (Detector Plateau SP TS).
Local Abbreviation Track := (CarriageTrack Plateau).

Implicit Types (d : Det) (ct ft : Track).

Lemma detect_long_stroke_pruning (fuel : nat) p1 p2 d d' r :
  detect_long_stroke fuel p1 p2 d = Some (d', r) ->
  exists d2, evolves d d2 /\ final_pruning d2 = (d', r).
Proof.
  unfold detect_long_stroke. intros E.
  apply bind_Some in E as (d1 & E1 & E).
  apply bind_Some in E as (d2 & E2 & E).
  injection E as E. exists d2. split; [ | exact E ].
  apply realign_evolves in E2.
  eapply evolves_trans; [ | exact E2 ].
  destruct (auto_p (cfg d));
    [ apply detect_auto_evolves in E1 | apply detect_limited_evolves in E1 ];
    exact E1.
Qed.

(** After the detection proper, started without track nor status, a status
    of the detection proper other than "no available scan" comes with a
    final track, and no other status can be met. *)
Lemma evolved_status d d2 :
  fct d = None -> fstatus d = RESULT_NONE -> evolves d d2 ->
  fstatus d2 = RESULT_NONE \/ fstatus d2 = RESULT_FAIL_NO_AVAILABLE_SCAN \/
  (tracked_failure (fstatus d2) /\ is_Some (fct d2)).
Proof.
  intros Hf Hs (_ & _ & [E | [E | E]]); auto. left. congruence.
Qed.

(** The pruning by cases. *)
Lemma final_pruning_no_track d : fct d = None -> final_pruning d = (d, None).
Proof. unfold final_pruning. intros ->. reflexivity. Qed.

Lemma final_pruning_status d d' r :
  final_pruning d = (d', r) ->
  cfg d' = cfg d /\
  (fstatus d' = fstatus d \/ fstatus d' = RESULT_FAIL_TOO_HECTIC_PLATEAUX \/
   fstatus d' = RESULT_FAIL_TOO_SPARSE_PLATEAUX).
Proof.
  unfold final_pruning. destruct (fct d) as [ft|]; [ | intros [= <- <-]; auto ].
  destruct (fstatus d =? _); [ intros [= <- <-]; auto | ].
  destruct (_ && F32.gt _ _); [ intros [= <- <-]; auto | ].
  destruct (_ && (_ >? _)); intros [= <- <-]; auto.
Qed.

Lemma detect_narrow (fuel : nat) d p1 p2 :
  stroke_too_narrow (csize (cfg d)) p1 p2 = true ->
  exists d', detect fuel d p1 p2 = Some (d', None) /\
    fstatus d' = RESULT_FAIL_TOO_NARROW_INPUT /\
    (initial_track_extent (cfg d) <> 0 ->
     istatus d' = RESULT_FAIL_TOO_NARROW_INPUT) /\
    fct d' = None /\ ict d' = None.
Proof.
  intros Hn. unfold detect.
  change (csize (cfg (on_stroke d p1 p2))) with (csize (cfg d)). rewrite Hn.
  eexists. split; [ reflexivity | ].
  change (initial_track_extent (cfg (set_fstatus (on_stroke d p1 p2) _)))
    with (initial_track_extent (cfg d)).
  destruct (Z.eqb_spec (initial_track_extent (cfg d)) 0) as [E|E]; cbn;
    repeat split; try reflexivity. intros F. contradiction.
Qed.

Lemma detect_long (fuel : nat) d p1 p2 :
  stroke_too_narrow (csize (cfg d)) p1 p2 = false ->
  detect fuel d p1 p2 = detect_long_stroke fuel p1 p2 (on_stroke d p1 p2).
Proof.
  intros Hn. unfold detect.
  change (csize (cfg (on_stroke d p1 p2))) with (csize (cfg d)). rewrite Hn.
  reflexivity.
Qed.

Lemma detect_narrow_result (fuel : nat) d p1 p2 d' r :
  stroke_too_narrow (csize (cfg d)) p1 p2 = true ->
  detect fuel d p1 p2 = Some (d', r) ->
  r = None /\ fstatus d' = RESULT_FAIL_TOO_NARROW_INPUT /\ cfg d' = cfg d.
Proof.
  intros Hn. unfold detect.
  change (csize (cfg (on_stroke d p1 p2))) with (csize (cfg d)). rewrite Hn.
  intros [= <- <-]. split; [ reflexivity | ].
  destruct (negb _); split; reflexivity.
Qed.

(** Whatever [detect (p1, p2)] returns was either refused for its length or
    went through the pruning of a detector evolved from [on_stroke]. *)
Lemma detect_cases (fuel : nat) d p1 p2 d' r :
  detect fuel d p1 p2 = Some (d', r) ->
  (stroke_too_narrow (csize (cfg d)) p1 p2 = true /\ r = None /\
   fstatus d' = RESULT_FAIL_TOO_NARROW_INPUT /\ cfg d' = cfg d) \/
  (stroke_too_narrow (csize (cfg d)) p1 p2 = false /\
   exists d2, evolves (on_stroke d p1 p2) d2 /\ final_pruning d2 = (d', r)).
Proof.
  intros E. destruct (stroke_too_narrow (csize (cfg d)) p1 p2) eqn:Hn.
  - left. split; [ reflexivity | ].
    eapply detect_narrow_result; eassumption.
  - right. split; [ reflexivity | ].
    rewrite (detect_long fuel d p1 p2 Hn) in E.
    apply detect_long_stroke_pruning in E. exact E.
Qed.

(** C1, as the code has it.  [detect (p1, p2)] refuses the stroke, with
    status [TOO_NARROW_INPUT], a null result and no track allocated, when
    the computed length is strictly less than [MAX_TRACK_WIDTH] (6 m); it
    goes on with the detection otherwise, never to end with that status.  In
    particular a stroke of length exactly 6 m goes on, and, the length not
    being a NaN, the detection goes on if and only if the length is at
    least 6 m. *)
Theorem C1_stroke_below_six_meters_is_refused (fuel : nat) d (p1 p2 : Pt2i) :
  let cs := csize (cfg d) in
  let l12 := stroke_length (stroke_vector cs p1 p2) in
  (stroke_too_narrow cs p1 p2 = true ->
   exists d', detect fuel d p1 p2 = Some (d', None) /\
     fstatus d' = RESULT_FAIL_TOO_NARROW_INPUT /\
     (initial_track_extent (cfg d) <> 0 ->
      istatus d' = RESULT_FAIL_TOO_NARROW_INPUT) /\
     fct d' = None /\ ict d' = None) /\
  (stroke_too_narrow cs p1 p2 = false ->
   detect fuel d p1 p2 = detect_long_stroke fuel p1 p2 (on_stroke d p1 p2) /\
   forall d' r, detect fuel d p1 p2 = Some (d', r) ->
     fstatus d' <> RESULT_FAIL_TOO_NARROW_INPUT) /\
  (l12 = MAX_TRACK_WIDTH -> stroke_too_narrow cs p1 p2 = false) /\
  (F32.is_nan l12 = false ->
   (stroke_too_narrow cs p1 p2 = false <-> F32.le MAX_TRACK_WIDTH l12 = true)).
Proof.
  cbv zeta. split; [ apply detect_narrow | split; [ | split ] ].
  - intros Hn. split; [ apply detect_long; exact Hn | ].
    intros d' r E. apply detect_cases in E as [[F _] | [_ (d2 & Hev & E)]];
      [ congruence | ].
    apply (evolved_status (on_stroke d p1 p2)) in Hev; [ | reflexivity | reflexivity ].
    apply final_pruning_status in E as [_ E].
    unfold tracked_failure in Hev.
    intros F. rewrite F in E. cbv in E, Hev.
    destruct E as [E | [E | E]]; try discriminate.
    rewrite <- E in Hev.
    destruct Hev as [Hev | [Hev | [[Hev | [Hev | [Hev | Hev]]] _]]]; discriminate.
  - intros E. unfold stroke_too_narrow, F32.lt. rewrite E. apply SFltb_irrefl.
  - intros Hnan. unfold stroke_too_narrow, F32.lt, F32.le. split.
    + apply SFltb_false_SFleb; [ reflexivity | exact Hnan ].
    + apply SFleb_true_SFltb.
Qed.












End DetectorClaims.
(** ** The detector on the small worlds *)

(** A stroke of five cells of one meter is refused. *)
Lemma C1_stroke_below_six_meters_witness :
  stroke_too_narrow (csize (cfg (Toy.detector 0))) (mkPt2i 0 0) (mkPt2i 5 0)
  = true /\
  exists d',
    Toy.bounded_world (mkPt2i 0 0) (mkPt2i 5 0) = Some (d', None) /\
    fstatus d' = RESULT_FAIL_TOO_NARROW_INPUT /\
    fct d' = None /\ ict d' = None.
Proof.
  assert (Hn : stroke_too_narrow (csize (cfg (Toy.detector 0)))
                                 (mkPt2i 0 0) (mkPt2i 5 0) = true)
    by (vm_compute; reflexivity).
  split; [ exact Hn | ].
  destruct (proj1 (@C1_stroke_below_six_meters_is_refused
                     Toy.plateau nat unit (Z -> Z -> bool)
                     (Toy.plateau_ops (fun _ => Toy.good true 3))
                     (Toy.track_ops F32.zero 0 1 false)
                     Toy.scanner_ops (Toy.provider_ops 15)
                     Toy.tileset_ops Toy.sort_ops
                     40%nat (Toy.detector 0) (mkPt2i 0 0) (mkPt2i 5 0)) Hn)
    as (d' & E & Hs & _ & Hf & Hi).
  exists d'. repeat split; assumption.
Defined.

(** C1 as stated fails: a stroke of six cells of one meter has the length
    of 6 m exactly and is not refused; the detection goes on and returns a
    track of 15 plateaux on each side, with no failure status. *)
Lemma C1_counterexample_six_meter_stroke :
  stroke_length (stroke_vector (csize (cfg (Toy.detector 0)))
                               (mkPt2i 0 0) (mkPt2i 6 0))
  = MAX_TRACK_WIDTH /\
  exists d' ft,
    Toy.bounded_world (mkPt2i 0 0) (mkPt2i 6 0) = Some (d', Some ft) /\
    fstatus d' = RESULT_NONE /\
    length (ct_rights ft) = 15%nat /\ length (ct_lefts ft) = 15%nat.
Proof.
  split; [ vm_compute; reflexivity | ].
  destruct (Toy.bounded_world (mkPt2i 0 0) (mkPt2i 6 0))
    as [[d' [ft | ]] | ] eqn:E; [ | vm_compute in E; discriminate .. ].
  exists d', ft. split; [ reflexivity | ].
  vm_compute in E. injection E as <- <-. vm_compute. repeat split.
Qed.







(** ** Seed file: reading back *)

Section SeedReading.
Import Seeds.

(** Induction on a vector of points two by two. *)
Lemma pairs_ind (P : list Pt2i -> Prop) :
  P [] -> (forall a, P [a]) -> (forall a b r, P r -> P (a :: b :: r)) ->
  forall v, P v.
Proof.
  intros H0 H1 H2 v.
  enough (P v /\ forall a, P (a :: v)) as [H _] by exact H.
  induction v as [|b v [IH1 IH2]]; [ split; [ exact H0 | exact H1 ] | ].
  split; [ apply IH2 | ]. intros a. apply H2. exact IH1.
Qed.

Lemma filed_in_app tw th tsw tsh k (v u : list Pt2i) :
  filed_in tw th tsw tsh k v -> filed_in tw th tsw tsh k u ->
  filed_in tw th tsw tsh k (v ++ u).
Proof.
  revert v. apply (pairs_ind (fun v => filed_in tw th tsw tsh k v ->
    filed_in tw th tsw tsh k u -> filed_in tw th tsw tsh k (v ++ u))).
  - intros _ Hu. exact Hu.
  - intros a [].
  - intros a b r IH [Hk Hr] Hu. cbn [app filed_in]. split; [ exact Hk | auto ].
Qed.

Lemma write_pairs_filed tw th tsw tsh k (v : list Pt2i) :
  filed_in tw th tsw tsh k v -> write_pairs v = Some (map Point v).
Proof.
  revert v. apply (pairs_ind (fun v => filed_in tw th tsw tsh k v ->
    write_pairs v = Some (map Point v))).
  - reflexivity.
  - intros a [].
  - intros a b r IH [_ Hr]. cbn [write_pairs map]. rewrite (IH Hr). reflexivity.
Qed.

Lemma read_points_map (pts : list Pt2i) (rest : list field) :
  read_points (length pts) (map Point pts ++ rest) = Some pts.
Proof.
  induction pts as [|p pts IH]; [ reflexivity | ].
  cbn [length map app read_points]. rewrite IH. reflexivity.
Qed.

(** Filing the strokes of a well filed vector appends it to its tile. *)
Lemma file_strokes_filed tw th tsw tsh (k : nat) (more : list Pt2i) :
  tw <> 0 -> th <> 0 ->
  forall v seeds,
    filed_in tw th tsw tsh k v -> (k < length seeds)%nat ->
    file_strokes tw th tsw tsh (v ++ more) seeds
    = file_strokes tw th tsw tsh more (alter (fun u => u ++ v) k seeds).
Proof.
  intros Htw Hth v.
  apply (pairs_ind (fun v => forall seeds,
    filed_in tw th tsw tsh k v -> (k < length seeds)%nat ->
    file_strokes tw th tsw tsh (v ++ more) seeds
    = file_strokes tw th tsw tsh more (alter (fun u => u ++ v) k seeds))).
  - intros seeds _ _. cbn [app]. f_equal.
    symmetry. apply list_alter_id. intros u. apply app_nil_r.
  - intros a seeds [].
  - intros a b r IH seeds [Hk Hr] Hlen. cbn [app file_strokes].
    destruct (Z.eqb_spec tw 0); [ contradiction | ].
    destruct (Z.eqb_spec th 0); [ contradiction | ]. cbn [orb].
    rewrite Hk, Nat2Z.id.
    destruct (Z.leb_spec 0 (Z.of_nat k)); [ | lia ].
    destruct (Z.ltb_spec (Z.of_nat k) (Z.of_nat (length seeds))); [ | lia ].
    cbn [andb]. rewrite IH by (rewrite ?length_alter; assumption).
    f_equal. rewrite list_alter_alter_eq. apply list_alter_ext; [ | reflexivity ].
    intros u _. cbn. rewrite <- app_assoc. reflexivity.
Qed.

(** The body written for the tiles [idx], and its filing back. *)
Lemma write_tiles_filed tw th tsw tsh (arr : list (list Pt2i)) (idx : list nat) :
  (forall k v, arr !! k = Some v -> filed_in tw th tsw tsh k v) ->
  Forall (fun k => (k < length arr)%nat) idx ->
  write_tiles arr idx
  = Some (map Point (concat (map (fun k => default [] (arr !! k)) idx))).
Proof.
  intros Hf. induction 1 as [|k idx Hk _ IH]; [ reflexivity | ].
  cbn [write_tiles map concat].
  destruct (lookup_lt_is_Some_2 arr k Hk) as [v Ev]. rewrite Ev.
  cbn [mbind option_bind default].
  rewrite (write_pairs_filed _ _ _ _ _ _ (Hf k v Ev)), IH.
  cbn [mbind option_bind]. rewrite map_app. reflexivity.
Qed.

Lemma sum_sizes_concat (arr : list (list Pt2i)) (idx : list nat) :
  Forall (fun k => (k < length arr)%nat) idx ->
  sum_sizes arr idx
  = Some (Z.of_nat (length (concat (map (fun k => default [] (arr !! k)) idx)))).
Proof.
  induction 1 as [|k idx Hk _ IH]; [ reflexivity | ].
  cbn [sum_sizes map concat].
  destruct (lookup_lt_is_Some_2 arr k Hk) as [v Ev]. rewrite Ev, IH.
  cbn [mbind option_bind default]. rewrite length_app, Nat2Z.inj_add. reflexivity.
Qed.

Lemma file_strokes_tiles tw th tsw tsh (arr : list (list Pt2i)) :
  tw <> 0 -> th <> 0 ->
  (forall k v, arr !! k = Some v -> filed_in tw th tsw tsh k v) ->
  forall idx seeds,
    Forall (fun k => (k < length arr)%nat) idx -> length seeds = length arr ->
    file_strokes tw th tsw tsh
      (concat (map (fun k => default [] (arr !! k)) idx)) seeds
    = Some (fold_left
              (fun acc k => alter (fun u => u ++ default [] (arr !! k)) k acc)
              idx seeds).
Proof.
  intros Htw Hth Hf idx. induction idx as [|k idx IH]; intros seeds Hidx Hlen.
  - reflexivity.
  - apply Forall_cons in Hidx as [Hk Hidx]. cbn [map concat fold_left].
    destruct (lookup_lt_is_Some_2 arr k Hk) as [v Ev]. rewrite Ev. cbn [default].
    rewrite (file_strokes_filed _ _ _ _ k _ Htw Hth v seeds (Hf k v Ev))
      by (rewrite Hlen; exact Hk).
    apply IH; [ exact Hidx | rewrite length_alter; exact Hlen ].
Qed.

(** Appending to each tile of [idx], each met once, its vector of [arr]. *)
Lemma fold_alter_lookup (arr : list (list Pt2i)) (idx : list nat) :
  NoDup idx ->
  forall (seeds : list (list Pt2i)) (i : nat),
    fold_left (fun acc k => alter (fun u => u ++ default [] (arr !! k)) k acc)
              idx seeds !! i
    = (if decide (i ∈ idx)
       then (fun u => u ++ default [] (arr !! i)) <$> seeds !! i
       else seeds !! i).
Proof.
  induction 1 as [|k idx Hk Hnd IH]; intros seeds i; cbn [fold_left].
  - destruct (decide (i ∈ [])) as [Hin|]; [ | reflexivity ].
    apply elem_of_nil in Hin as [].
  - rewrite IH. destruct (decide (i = k)) as [->|Hne].
    + destruct (decide (k ∈ idx)); [ contradiction | ].
      destruct (decide (k ∈ k :: idx)) as [|Hn];
        [ apply list_lookup_alter_eq | ].
      exfalso. apply Hn. left.
    + rewrite list_lookup_alter_ne by congruence.
      destruct (decide (i ∈ idx)) as [Hin|Hin];
        destruct (decide (i ∈ k :: idx)) as [Hin'|Hin']; try reflexivity.
      * exfalso. apply Hin'. right. exact Hin.
      * apply elem_of_cons in Hin' as [->|Hin']; contradiction.
Qed.

Lemma fold_alter_all (arr : list (list Pt2i)) (idx : list nat) :
  Permutation idx (seq 0 (length arr)) ->
  fold_left (fun acc k => alter (fun u => u ++ default [] (arr !! k)) k acc)
            idx (replicate (length arr) [])
  = arr.
Proof.
  intros Hp. apply list_eq. intros i.
  rewrite fold_alter_lookup by (rewrite Hp; apply NoDup_seq).
  destruct (decide (i ∈ idx)) as [Hin|Hin].
  - rewrite Hp in Hin. apply elem_of_seq in Hin as [_ Hi]. cbn in Hi.
    rewrite lookup_replicate_2 by exact Hi.
    destruct (lookup_lt_is_Some_2 arr i Hi) as [v Ev]. rewrite Ev. reflexivity.
  - rewrite Hp in Hin.
    assert (Hi : (length arr <= i)%nat).
    { destruct (le_lt_dec (length arr) i) as [|Hlt]; [ assumption | ].
      exfalso. apply Hin. apply elem_of_seq. lia. }
    rewrite (lookup_ge_None_2 arr i Hi).
    apply lookup_replicate_None. exact Hi.
Qed.

(** X1.  Reading back a file written in plain mode.  For a grid of at least one
    tile, with tile sizes that are not zero and one vector per tile, each
    holding strokes filed by their middle as [processSeeds] files them,
    [saveSeeds] succeeds and [loadSeeds] restores from its file the raster
    size, the cell size and every vector of seeds as it was; it leaves the
    tile grid and the configuration of the reader alone. *)
Theorem X1_loadSeeds_restores_the_saved_seeds (t t0 : state) :
  let cot := columnsOfTiles t in
  let rot := rowsOfTiles t in
  isHalfSizeSeedsOn t = false ->
  0 < rot -> 0 < cot ->
  vm_width t ÷ cot <> 0 -> vm_height t ÷ rot <> 0 ->
  length (out_seeds t) = (Z.to_nat rot * Z.to_nat cot)%nat ->
  (forall k v, out_seeds t !! k = Some v ->
     filed_in (vm_width t ÷ cot) (vm_height t ÷ rot) cot rot k v) ->
  exists file,
    saveSeeds t = Some file /\
    loadSeeds t0 file
    = Some (mk (vm_width t) (vm_height t) (csize t)
               (rowsOfTiles t0) (columnsOfTiles t0) (isHalfSizeSeedsOn t0)
               (out_seeds t)).
Proof.
  intros cot rot Hhalf Hrot Hcot Htw Hth Hlen Hf.
  pose proof (tile_order_perm (Z.to_nat rot) (Z.to_nat cot)) as Hp.
  rewrite <- Hlen in Hp.
  assert (Hidx : Forall (fun k => (k < length (out_seeds t))%nat)
                        (tile_order (Z.to_nat rot) (Z.to_nat cot))).
  { apply Forall_forall. intros k Hk. rewrite Hp in Hk.
    apply elem_of_seq in Hk. lia. }
  assert (Hseq : Forall (fun k => (k < length (out_seeds t))%nat)
                        (seq 0 (length (out_seeds t)))).
  { apply Forall_forall. intros k Hk. apply elem_of_seq in Hk. lia. }
  set (pts := concat (map (fun k => default [] (out_seeds t !! k))
                          (tile_order (Z.to_nat rot) (Z.to_nat cot)))).
  exists ([Int32 (vm_width t); Int32 (vm_height t); Float32 (csize t);
           Int32 cot; Int32 rot; Int32 (Z.of_nat (length pts))]
          ++ map Point pts).
  split.
  - unfold saveSeeds. rewrite Hhalf. fold cot rot.
    replace (Z.to_nat (cot * rot)) with (length (out_seeds t))
      by (rewrite Hlen; lia).
    rewrite (sum_sizes_perm _ _ _ (Permutation_sym Hp)).
    rewrite (sum_sizes_concat _ _ Hidx).
    rewrite (write_tiles_filed _ _ _ _ _ _ Hf Hidx).
    reflexivity.
  - cbn [app loadSeeds].
    destruct (Z.ltb_spec (Z.of_nat (length pts)) 0); [ lia | ].
    destruct (Z.ltb_spec (rot * cot) 0); [ lia | ].
    destruct (Z.eqb_spec cot 0); [ lia | ].
    destruct (Z.eqb_spec rot 0); [ lia | ]. cbn [orb].
    rewrite Nat2Z.id.
    rewrite <- (app_nil_r (map Point pts)), read_points_map.
    cbn [mbind option_bind].
    replace (Z.to_nat (rot * cot)) with (length (out_seeds t))
      by (rewrite Hlen; lia).
    unfold pts.
    rewrite (file_strokes_tiles _ _ _ _ _ Htw Hth Hf _ _ Hidx)
      by apply length_replicate.
    cbn [mbind option_bind]. rewrite (fold_alter_all _ _ Hp). reflexivity.
Qed.


Lemma clamp_tile_range (tile ts : Z) : 0 < ts -> 0 <= clamp_tile tile ts < ts.
Proof.
  intros Hts. unfold clamp_tile.
  destruct (Z.ltb_spec tile 0); [ lia | ].
  destruct (Z.geb_spec tile ts); lia.
Qed.

Lemma tile_index_range tw th tsw tsh pt1 pt2 :
  0 < tsw -> 0 < tsh -> 0 <= tile_index tw th tsw tsh pt1 pt2 < tsh * tsw.
Proof.
  intros Hw Hh. unfold tile_index.
  pose proof (clamp_tile_range (((p2i_x pt1 + p2i_x pt2) ÷ 2) ÷ tw) tsw Hw).
  pose proof (clamp_tile_range (((p2i_y pt1 + p2i_y pt2) ÷ 2) ÷ th) tsh Hh).
  nia.
Qed.

Lemma concat_alter_app (x : list Pt2i) : forall (seeds : list (list Pt2i)) k,
  (k < length seeds)%nat ->
  Permutation (concat (alter (fun u => u ++ x) k seeds)) (concat seeds ++ x).
Proof.
  induction seeds as [|v seeds IH]; intros k Hk; [ cbn in Hk; lia | ].
  destruct k as [|k]; cbn [alter list_alter concat].
  - rewrite <- !app_assoc. apply Permutation_app_head, Permutation_app_comm.
  - rewrite IH by (cbn in Hk; lia). rewrite app_assoc. reflexivity.
Qed.

(** What the filing loop keeps: one vector per tile, every stroke in the
    tile of its middle, and all the points read. *)
Lemma file_strokes_keeps tw th tsw tsh :
  tw <> 0 -> th <> 0 -> 0 < tsw -> 0 < tsh ->
  forall pts, Nat.Even (length pts) ->
  forall seeds,
    length seeds = Z.to_nat (tsh * tsw) ->
    (forall k v, seeds !! k = Some v -> filed_in tw th tsw tsh k v) ->
    exists seeds',
      file_strokes tw th tsw tsh pts seeds = Some seeds' /\
      length seeds' = Z.to_nat (tsh * tsw) /\
      (forall k v, seeds' !! k = Some v -> filed_in tw th tsw tsh k v) /\
      Permutation (concat seeds') (concat seeds ++ pts).
Proof.
  intros Htw Hth Hw Hh pts.
  apply (pairs_ind (fun pts => Nat.Even (length pts) ->
    forall seeds,
      length seeds = Z.to_nat (tsh * tsw) ->
      (forall k v, seeds !! k = Some v -> filed_in tw th tsw tsh k v) ->
      exists seeds',
        file_strokes tw th tsw tsh pts seeds = Some seeds' /\
        length seeds' = Z.to_nat (tsh * tsw) /\
        (forall k v, seeds' !! k = Some v -> filed_in tw th tsw tsh k v) /\
        Permutation (concat seeds') (concat seeds ++ pts))).
  - intros _ seeds Hlen Hf. exists seeds. rewrite app_nil_r. auto.
  - intros a [n Hn]. cbn in Hn. lia.
  - intros a b r IH Hev seeds Hlen Hf.
    assert (Hr : Nat.Even (length r)).
    { destruct Hev as [n Hn]. cbn [length] in Hn. exists (n - 1)%nat. lia. }
    cbn [file_strokes].
    destruct (Z.eqb_spec tw 0); [ contradiction | ].
    destruct (Z.eqb_spec th 0); [ contradiction | ]. cbn [orb].
    pose proof (tile_index_range tw th tsw tsh a b Hw Hh) as Hk.
    set (k := tile_index tw th tsw tsh a b) in *.
    destruct (Z.leb_spec 0 k); [ | lia ].
    destruct (Z.ltb_spec k (Z.of_nat (length seeds))); [ | lia ]. cbn [andb].
    destruct (IH Hr (alter (fun v => v ++ [a; b]) (Z.to_nat k) seeds))
      as (seeds' & E & Hlen' & Hf' & Hp).
    + rewrite length_alter. exact Hlen.
    + intros j v. rewrite list_lookup_alter.
      destruct (decide (Z.to_nat k = j)) as [<-|]; [ | apply Hf ].
      destruct (seeds !! Z.to_nat k) as [u|] eqn:Eu; [ | discriminate ].
      intros [= <-]. apply filed_in_app; [ apply Hf; exact Eu | ].
      cbn [filed_in]. split; [ fold k; lia | exact I ].
    + exists seeds'. repeat split; try assumption.
      rewrite Hp, concat_alter_app by lia.
      rewrite <- app_assoc. reflexivity.
Qed.

Lemma X1_loadSeeds_restores_witness :
  exists file,
    saveSeeds (Fixtures.three_strokes false) = Some file /\
    loadSeeds Fixtures.one_stroke file
    = Some (mk 100 100 (F32.of_ratio 1 2) 1 1 false
               (out_seeds (Fixtures.three_strokes false))).
Proof.
  apply (X1_loadSeeds_restores_the_saved_seeds
           (Fixtures.three_strokes false) Fixtures.one_stroke);
    try reflexivity; try (vm_compute; congruence).
  intros k v E.
  destruct k as [|[|[|[|k]]]]; cbn in E; try discriminate;
    injection E as <-; vm_compute; auto.
Defined.

(** X2.  [loadSeeds] loses no stroke.  From a file with a grid of at least
    one tile, tile sizes that are not zero and an even count, followed by
    as many points at least, it builds one vector per tile, files every
    stroke in the tile of its middle, strokes whose middle is outside of
    the raster going to the nearest border tile, and keeps all the points
    counted, and only them. *)
Theorem X2_loadSeeds_files_every_stroke (t : state) (w h tsw tsh : Z)
    (cs : spec_float) (pts : list Pt2i) (rest : list field) :
  0 < tsw -> 0 < tsh -> w ÷ tsw <> 0 -> h ÷ tsh <> 0 ->
  Nat.Even (length pts) ->
  exists seeds,
    loadSeeds t ([Int32 w; Int32 h; Float32 cs; Int32 tsw; Int32 tsh;
                  Int32 (Z.of_nat (length pts))] ++ map Point pts ++ rest)
    = Some (mk w h cs (rowsOfTiles t) (columnsOfTiles t)
               (isHalfSizeSeedsOn t) seeds) /\
    length seeds = Z.to_nat (tsh * tsw) /\
    (forall k v, seeds !! k = Some v ->
       filed_in (w ÷ tsw) (h ÷ tsh) tsw tsh k v) /\
    Permutation (concat seeds) pts.
Proof.
  intros Hw Hh Htw Hth Hev.
  destruct (file_strokes_keeps _ _ tsw tsh Htw Hth Hw Hh pts Hev
              (replicate (Z.to_nat (tsh * tsw)) []))
    as (seeds & E & Hlen & Hf & Hp).
  - apply length_replicate.
  - intros k v Ek. apply lookup_replicate_1 in Ek as [-> _]. exact I.
  - exists seeds. split; [ | split; [ exact Hlen | split; [ exact Hf | ] ] ].
    + cbn [app loadSeeds].
      destruct (Z.ltb_spec (Z.of_nat (length pts)) 0); [ lia | ].
      destruct (Z.ltb_spec (tsh * tsw) 0); [ nia | ].
      destruct (Z.eqb_spec tsw 0); [ lia | ].
      destruct (Z.eqb_spec tsh 0); [ lia | ]. cbn [orb].
      rewrite Nat2Z.id, read_points_map. cbn [mbind option_bind].
      rewrite E. reflexivity.
    + rewrite Hp. clear. induction (Z.to_nat (tsh * tsw)) as [|n IH];
        [ reflexivity | exact IH ].
Qed.

Lemma X2_loadSeeds_files_witness :
  exists seeds,
    loadSeeds Fixtures.one_stroke
      [Int32 100; Int32 100; Float32 F32.half; Int32 2; Int32 2; Int32 2;
       Point (mkPt2i 90 10); Point (mkPt2i 130 10)]
    = Some (mk 100 100 F32.half 1 1 false seeds) /\
    length seeds = 4%nat /\
    Permutation (concat seeds) [mkPt2i 90 10; mkPt2i 130 10].
Proof.
  destruct (X2_loadSeeds_files_every_stroke Fixtures.one_stroke 100 100 2 2
              F32.half [mkPt2i 90 10; mkPt2i 130 10] [])
    as (seeds & E & Hlen & _ & Hp);
    try lia; try (vm_compute; congruence); [ exists 1%nat; reflexivity | ].
  exists seeds. repeat split; assumption.
Defined.

End SeedReading.

(** ** Seed file: half-size retiling *)

Section SeedRetiling.
Import Seeds.

(** X3.  Half-size mode, one stroke.  A stroke whose middle falls outside
    of the finer grid of [2 cot] by [2 rot] tiles is dropped.  Any other one
    is appended to one tile of the array of [4 rot cot] vectors, with both
    ends doubled and the larger end (the second one when equal) moved by
    one more in each coordinate: the pixels [min .. max] of the stroke
    become the half-size pixels [2 min .. 2 max + 1], and the direction of
    the stroke is kept. *)
Theorem X3_half_size_stroke_covers_the_doubled_span
    (tw th cot rot : Z) (reseeds : list (list Pt2i)) (pt1 pt2 : Pt2i) :
  let kx := ((p2i_x pt1 + p2i_x pt2) ÷ 2) ÷ tw in
  let ky := ((p2i_y pt1 + p2i_y pt2) ÷ 2) ÷ th in
  let inside := (0 <=? kx) && (0 <=? ky) && (kx <? 2 * cot) && (ky <? 2 * rot) in
  (inside = false -> retile_stroke tw th cot rot reseeds pt1 pt2 = reseeds) /\
  (inside = true ->
   exists q1 q2,
     retile_stroke tw th cot rot reseeds pt1 pt2
     = alter (fun v => v ++ [q1; q2]) (Z.to_nat (ky * cot * 2 + kx)) reseeds /\
     0 <= ky * cot * 2 + kx < rot * cot * 4 /\
     Z.min (p2i_x q1) (p2i_x q2) = 2 * Z.min (p2i_x pt1) (p2i_x pt2) /\
     Z.max (p2i_x q1) (p2i_x q2) = 2 * Z.max (p2i_x pt1) (p2i_x pt2) + 1 /\
     Z.min (p2i_y q1) (p2i_y q2) = 2 * Z.min (p2i_y pt1) (p2i_y pt2) /\
     Z.max (p2i_y q1) (p2i_y q2) = 2 * Z.max (p2i_y pt1) (p2i_y pt2) + 1 /\
     (p2i_x q2 < p2i_x q1 <-> p2i_x pt2 < p2i_x pt1) /\
     (p2i_y q2 < p2i_y q1 <-> p2i_y pt2 < p2i_y pt1)).
Proof.
  cbv zeta. unfold retile_stroke.
  set (kx := ((p2i_x pt1 + p2i_x pt2) ÷ 2) ÷ tw).
  set (ky := ((p2i_y pt1 + p2i_y pt2) ÷ 2) ÷ th).
  destruct (Z.ltb_spec kx 0), (Z.ltb_spec ky 0),
           (Z.geb_spec kx (2 * cot)), (Z.geb_spec ky (2 * rot)),
           (Z.leb_spec 0 kx), (Z.leb_spec 0 ky),
           (Z.ltb_spec kx (2 * cot)), (Z.ltb_spec ky (2 * rot));
    try lia; cbn [orb andb]; (split; [ intros E; try discriminate; reflexivity | ]);
    intros E; try discriminate.
  destruct pt1 as [x1 y1], pt2 as [x2 y2]. cbn [p2i_x p2i_y].
  eexists _, _. split; [ reflexivity | ]. split; [ nia | ].
  destruct (Z.ltb_spec (x2 * 2) (x1 * 2)); cbn [p2i_x p2i_y];
    destruct (Z.ltb_spec (y2 * 2) (y1 * 2)); cbn [p2i_x p2i_y];
    repeat split; lia.
Qed.

Lemma X3_half_size_stroke_witness :
  exists q1 q2,
    retile_stroke 25 25 2 2 (replicate 16%nat []) (mkPt2i 30 80) (mkPt2i 42 80)
    = alter (fun v => v ++ [q1; q2]) 13%nat (replicate 16%nat []) /\
    Z.min (p2i_x q1) (p2i_x q2) = 60 /\ Z.max (p2i_x q1) (p2i_x q2) = 85 /\
    Z.min (p2i_y q1) (p2i_y q2) = 160 /\ Z.max (p2i_y q1) (p2i_y q2) = 161.
Proof.
  destruct (proj2 (X3_half_size_stroke_covers_the_doubled_span
                     25 25 2 2 (replicate 16%nat []) (mkPt2i 30 80) (mkPt2i 42 80))
                  eq_refl) as (q1 & q2 & E & _ & Hx1 & Hx2 & Hy1 & Hy2 & _).
  exists q1, q2. split; [ exact E | ].
  cbn [p2i_x p2i_y] in Hx1, Hx2, Hy1, Hy2. lia.
Defined.

End SeedRetiling.

(** ** Adaptive directional scanner: pattern pointers and shape of a scan *)

Section ScannerShape.
Import AdaptiveScannerO2.

Implicit Types (s : t) (scan : list Pt2i).

Lemma fwd_inside s st : 0 < nbs s -> 0 <= st < nbs s -> 0 <= fwd s st < nbs s.
Proof. intros Hn Hst. unfold fwd. destruct (Z.geb_spec (st + 1) (nbs s)); lia. Qed.

Lemma bwd_inside s st : 0 < nbs s -> 0 <= st <= nbs s -> 0 <= bwd s st < nbs s.
Proof. intros Hn Hst. unfold bwd. destruct (Z.ltb_spec (st - 1) 0); lia. Qed.

Lemma back_loop_inside s fuel : forall cx cy st cx' cy' st',
  0 < nbs s -> 0 <= st < nbs s ->
  back_loop s fuel cx cy st = Some (cx', cy', st') -> 0 <= st' < nbs s.
Proof.
  induction fuel as [|fuel IH]; intros cx cy st cx' cy' st' Hn Hst;
    cbn [back_loop];
    destruct ((cx >? xmin s) && (cy <? ymax s) && (val s cx cy >? dlc1 s));
    try discriminate; try (intros [= <- <- <-]; exact Hst).
  apply IH; [ exact Hn | apply fwd_inside; assumption ].
Qed.

Lemma forth_loop_inside s fuel : forall cx cy st cx' cy' st',
  0 < nbs s -> 0 <= st < nbs s ->
  forth_loop s fuel cx cy st = Some (cx', cy', st') -> 0 <= st' < nbs s.
Proof.
  induction fuel as [|fuel IH]; intros cx cy st cx' cy' st' Hn Hst;
    cbn [forth_loop];
    destruct ((cx <? xmax s - 1) && (cy >=? ymin s) && (val s cx cy <? dlc1 s));
    try discriminate; try (intros [= <- <- <-]; exact Hst).
  apply IH; [ exact Hn | apply bwd_inside; lia ].
Qed.

(** X4.  The pattern pointers never leave the pattern.  On a scanner whose
    pattern has its [nbs > 0] steps and whose two pointers are inside it,
    each of the operations that move a cursor, and [bindTo], gives a scanner
    with the same pattern and both pointers inside it. *)
Theorem X4_pattern_pointers_stay_inside (fuel : nat) s scan (skip a b c : Z) :
  pointers_inside s -> 0 < nbs s ->
  (forall s' scan', skipLeft fuel s scan skip = Some (s', scan') ->
     steps s' = steps s /\ pointers_inside s') /\
  (forall s' scan', skipRight fuel s scan skip = Some (s', scan') ->
     steps s' = steps s /\ pointers_inside s') /\
  (forall s' scan', nextOnLeft fuel s scan = Some (s', scan') ->
     steps s' = steps s /\ pointers_inside s') /\
  (forall s' scan', nextOnRight fuel s scan = Some (s', scan') ->
     steps s' = steps s /\ pointers_inside s') /\
  pointers_inside (skipLeftOnly s skip) /\
  pointers_inside (skipRightOnly s skip) /\
  pointers_inside (bindTo s a b c).
Proof.
  intros (Hlen & Hl & Hr) Hn.
  assert (HL : forall k s' scan', skipLeft fuel s scan k = Some (s', scan') ->
             steps s' = steps s /\ pointers_inside s').
  { intros k s' scan'. unfold skipLeft.
    destruct (back_loop _ _ _ _ _) as [[[cx cy] st]|] eqn:E1; [ | discriminate ].
    destruct (forth_loop _ _ _ _ _) as [[[cx' cy'] st']|] eqn:E2; [ | discriminate ].
    destruct (scan_from _ _ _ _ _ _); [ | discriminate ].
    intros [= <- <-]. split; [ reflexivity | ].
    apply back_loop_inside in E1; [ | assumption .. ].
    apply forth_loop_inside in E2; [ | assumption .. ].
    repeat split; cbn; lia. }
  assert (HR : forall k s' scan', skipRight fuel s scan k = Some (s', scan') ->
             steps s' = steps s /\ pointers_inside s').
  { intros k s' scan'. unfold skipRight.
    destruct (back_loop _ _ _ _ _) as [[[cx cy] st]|] eqn:E1; [ | discriminate ].
    destruct (forth_loop _ _ _ _ _) as [[[cx' cy'] st']|] eqn:E2; [ | discriminate ].
    destruct (scan_from _ _ _ _ _ _); [ | discriminate ].
    intros [= <- <-]. split; [ reflexivity | ].
    apply back_loop_inside in E1; [ | assumption .. ].
    apply forth_loop_inside in E2; [ | assumption .. ].
    repeat split; cbn; lia. }
  split; [ apply HL | ]. split; [ apply HR | ].
  split; [ apply HL | ]. split; [ apply HR | ].
  repeat split; cbn; lia.
Qed.

Lemma X4_pattern_pointers_witness :
  pointers_inside Fixtures.scanner_2_1 /\
  exists s' scan',
    nextOnLeft 20 Fixtures.scanner_2_1 [] = Some (s', scan') /\
    pointers_inside s'.
Proof.
  assert (H : pointers_inside Fixtures.scanner_2_1)
    by (unfold pointers_inside; cbn; lia).
  split; [ exact H | ].
  destruct (nextOnLeft 20 Fixtures.scanner_2_1 []) as [[s' scan']|] eqn:E;
    [ | vm_compute in E; discriminate ].
  exists s', scan'. split; [ reflexivity | ].
  apply (proj1 (proj2 (proj2 (X4_pattern_pointers_stay_inside
           20 Fixtures.scanner_2_1 [] 1 0 0 0 H ltac:(cbn; lia))))
         s' scan' E).
Defined.

Lemma emit_loop_run s fuel : forall x y nst scan scan',
  emit_loop s fuel x y nst scan = Some scan' ->
  exists new, scan' = scan ++ new /\ run_from s x y new.
Proof.
  induction fuel as [|fuel IH]; intros x y nst scan scan'; cbn [emit_loop];
    destruct ((val s x y >=? dlc2 s) && (y <? ymax s) && (x >=? xmin s)) eqn:C;
    try discriminate.
  1,3: intros [= <-]; exists []; rewrite app_nil_r; split; [ reflexivity | ];
    rewrite !andb_false_iff, !Z.geb_leb, !Z.leb_gt, Z.ltb_ge in C;
    repeat split; cbn; try discriminate; unfold stops_at; lia.
  intros E.
  apply andb_prop in C as [C Cx]. apply andb_prop in C as [Cv Cy].
  rewrite Z.geb_leb in Cv, Cx. apply Z.leb_le in Cv, Cx. apply Z.ltb_lt in Cy.
  set (y1 := if step_at s nst then y + 1 else y) in *.
  assert (Hy1 : y1 = y \/ y1 = y + 1) by (subst y1; destruct (step_at s nst); auto).
  apply IH in E as (new & -> & Hch & Hhd & Hlen & Hlast).
  exists (mkPt2i x y :: new). split; [ rewrite <- app_assoc; reflexivity | ].
  repeat split.
  - destruct new as [|q new]; [ exact I | ].
    subst q. cbn [chained p2i_x p2i_y].
    split; [ reflexivity | split; [ lia | exact Hch ] ].
  - cbn [length]. lia.
  - intros p Hp. destruct new as [|q new].
    + injection Hp as <-. cbn [p2i_x p2i_y]. exists y1. split; assumption.
    + apply Hlast. rewrite last_cons_cons in Hp. exact Hp.
Qed.

Lemma scan_from_run s fuel x y nst scan scan' :
  scan_from s fuel x y nst scan = Some scan' ->
  exists new x' y', scan' = scan ++ new /\ run_from s x' y' new /\
    Z.of_nat (length new) <= Z.max 0 (xmax s - xmin s).
Proof.
  unfold scan_from.
  destruct (skip_loop s fuel x y nst) as [[[x' y'] nst']|] eqn:E; [ | discriminate ].
  intros E2. pose proof E2 as E3.
  apply emit_loop_run in E2 as (new & -> & Hrun).
  exists new, x', y'. split; [ reflexivity | split; [ exact Hrun | ] ].
  apply skip_loop_exit in E as [[Hy Hx] | Hv].
  - destruct Hrun as (_ & _ & Hlen & _). lia.
  - rewrite emit_loop_stops in E3 by assumption. injection E3 as E3.
    apply (f_equal (@length _)) in E3. rewrite length_app in E3. lia.
Qed.

(** X5.  The shape of a scan.  The pixels that [first], [nextOnLeft],
    [nextOnRight], [skipLeft] or [skipRight] add to the vector form one
    chain: from each pixel to the next [x] decreases by one and [y] stays
    or increases by one.  The chain has at most [xmax - xmin] pixels, and
    it is not cut short: past its last pixel, the next one would be below
    the lower line or out of the rectangle. *)
Theorem X5_scan_is_a_maximal_chain (fuel : nat) s scan (skip : Z) :
  let shape s' scan0 scan' :=
    exists new, scan' = scan0 ++ new /\ chained new /\
      Z.of_nat (length new) <= Z.max 0 (xmax s' - xmin s') /\
      (forall p, last new = Some p ->
         exists y', (y' = p2i_y p \/ y' = p2i_y p + 1) /\
                    stops_at s' (p2i_x p - 1) y') in
  let scan0 := if clearance s then [] else scan in
  (forall scan', first fuel s scan = Some scan' -> shape s scan scan') /\
  (forall s' scan', nextOnLeft fuel s scan = Some (s', scan') ->
     shape s' scan0 scan') /\
  (forall s' scan', nextOnRight fuel s scan = Some (s', scan') ->
     shape s' scan0 scan') /\
  (forall s' scan', skipLeft fuel s scan skip = Some (s', scan') ->
     shape s' scan0 scan') /\
  (forall s' scan', skipRight fuel s scan skip = Some (s', scan') ->
     shape s' scan0 scan').
Proof.
  cbv zeta.
  assert (H0 : forall s0 x y nst sc sc',
             scan_from s0 fuel x y nst sc = Some sc' ->
             exists new, sc' = sc ++ new /\ chained new /\
               Z.of_nat (length new) <= Z.max 0 (xmax s0 - xmin s0) /\
               (forall p, last new = Some p ->
                  exists y', (y' = p2i_y p \/ y' = p2i_y p + 1) /\
                             stops_at s0 (p2i_x p - 1) y')).
  { intros s0 x y nst sc sc' E.
    apply scan_from_run in E as (new & x' & y' & -> & (Hch & _ & _ & Hlast) & Hlen).
    exists new. auto. }
  assert (HL : forall k s' scan', skipLeft fuel s scan k = Some (s', scan') ->
             exists new, scan' = (if clearance s then [] else scan) ++ new /\
               chained new /\
               Z.of_nat (length new) <= Z.max 0 (xmax s' - xmin s') /\
               (forall p, last new = Some p ->
                  exists y', (y' = p2i_y p \/ y' = p2i_y p + 1) /\
                             stops_at s' (p2i_x p - 1) y')).
  { intros k s' scan'. unfold skipLeft.
    destruct (back_loop _ _ _ _ _) as [[[cx cy] st]|]; [ | discriminate ].
    destruct (forth_loop _ _ _ _ _) as [[[cx' cy'] st']|]; [ | discriminate ].
    destruct (scan_from _ _ _ _ _ _) as [sc|] eqn:E; [ | discriminate ].
    intros [= <- <-]. apply H0 in E. exact E. }
  assert (HR : forall k s' scan', skipRight fuel s scan k = Some (s', scan') ->
             exists new, scan' = (if clearance s then [] else scan) ++ new /\
               chained new /\
               Z.of_nat (length new) <= Z.max 0 (xmax s' - xmin s') /\
               (forall p, last new = Some p ->
                  exists y', (y' = p2i_y p \/ y' = p2i_y p + 1) /\
                             stops_at s' (p2i_x p - 1) y')).
  { intros k s' scan'. unfold skipRight.
    destruct (back_loop _ _ _ _ _) as [[[cx cy] st]|]; [ | discriminate ].
    destruct (forth_loop _ _ _ _ _) as [[[cx' cy'] st']|]; [ | discriminate ].
    destruct (scan_from _ _ _ _ _ _) as [sc|] eqn:E; [ | discriminate ].
    intros [= <- <-]. apply H0 in E. exact E. }
  split; [ intros scan'; apply H0 | ].
  split; [ apply HL | ]. split; [ apply HR | ].
  split; [ apply HL | apply HR ].
Qed.

Lemma X5_scan_is_a_maximal_chain_witness :
  exists new,
    [mkPt2i 7 4; mkPt2i 6 5; mkPt2i 5 5; mkPt2i 4 6] = [] ++ new /\
    chained new /\ Z.of_nat (length new) <= 10.
Proof.
  destruct (proj1 (X5_scan_is_a_maximal_chain 20 Fixtures.scanner_2_1 [] 1)
              [mkPt2i 7 4; mkPt2i 6 5; mkPt2i 5 5; mkPt2i 4 6] eq_refl)
    as (new & E & Hch & Hlen & _).
  exists new. repeat split; assumption.
Defined.

End ScannerShape.

(** ** Adaptive directional scanner: how the operations compose *)

Section ScannerComposition.
Import AdaptiveScannerO2.

Implicit Types (s : t) (scan : list Pt2i).

Ltac frame H :=
  destruct H as (Hxmin & Hymin & Hxmax & Hymax & Hnbs & Hsteps
                 & Hdla & Hdlb & Hdlc1 & Hdlc2).

Lemma back_loop_frame s1 s2 fuel : same_frame s1 s2 -> forall cx cy st,
  back_loop s1 fuel cx cy st = back_loop s2 fuel cx cy st.
Proof.
  intros H. frame H.
  induction fuel as [|fuel IH]; intros cx cy st; cbn [back_loop];
    unfold val, step_at, fwd; rewrite ?Hxmin, ?Hymax, ?Hdla, ?Hdlb, ?Hdlc1,
      ?Hsteps, ?Hnbs; [ reflexivity | ].
  destruct (_ && _ && _); [ | reflexivity ].
  apply IH.
Qed.

Lemma forth_loop_frame s1 s2 fuel : same_frame s1 s2 -> forall cx cy st,
  forth_loop s1 fuel cx cy st = forth_loop s2 fuel cx cy st.
Proof.
  intros H. frame H.
  induction fuel as [|fuel IH]; intros cx cy st; cbn [forth_loop];
    unfold val, step_at, bwd; rewrite ?Hxmax, ?Hymin, ?Hdla, ?Hdlb, ?Hdlc1,
      ?Hsteps, ?Hnbs; [ reflexivity | ].
  destruct (_ && _ && _); [ | reflexivity ].
  apply IH.
Qed.

Lemma skip_loop_frame s1 s2 fuel : same_frame s1 s2 -> forall x y nst,
  skip_loop s1 fuel x y nst = skip_loop s2 fuel x y nst.
Proof.
  intros H. frame H.
  induction fuel as [|fuel IH]; intros x y nst; cbn [skip_loop];
    unfold val, step_at, fwd; rewrite ?Hxmax, ?Hymin, ?Hdla, ?Hdlb, ?Hdlc2,
      ?Hsteps, ?Hnbs; [ reflexivity | ].
  destruct (_ && _); [ | reflexivity ].
  apply IH.
Qed.

Lemma emit_loop_frame s1 s2 fuel : same_frame s1 s2 -> forall x y nst scan,
  emit_loop s1 fuel x y nst scan = emit_loop s2 fuel x y nst scan.
Proof.
  intros H. frame H.
  induction fuel as [|fuel IH]; intros x y nst scan; cbn [emit_loop];
    unfold val, step_at, fwd; rewrite ?Hxmin, ?Hymax, ?Hdla, ?Hdlb, ?Hdlc2,
      ?Hsteps, ?Hnbs; [ reflexivity | ].
  destruct (_ && _ && _); [ | reflexivity ].
  apply IH.
Qed.

Lemma scan_from_frame s1 s2 fuel x y nst scan :
  same_frame s1 s2 ->
  scan_from s1 fuel x y nst scan = scan_from s2 fuel x y nst scan.
Proof.
  intros H. unfold scan_from. rewrite (skip_loop_frame s1 s2 fuel H).
  destruct (skip_loop s2 fuel x y nst) as [[[x' y'] nst']|]; [ | reflexivity ].
  apply emit_loop_frame. exact H.
Qed.

(** X6.  A skip without scan followed by the next scan is the skipped scan:
    [skipLeft (skip)] then [nextOnLeft (scan)] gives the scanner and the
    vector of [skipLeft (scan, skip)], and so on the right; and the two
    sides do not interfere: a skip on one side leaves the cursor of the
    other side where it was. *)
Theorem X6_skip_then_next_is_the_skipped_scan (fuel : nat) s scan (skip : Z) :
  nextOnLeft fuel (skipLeftOnly s skip) scan = skipLeft fuel s scan skip /\
  nextOnRight fuel (skipRightOnly s skip) scan = skipRight fuel s scan skip /\
  (forall s' scan', skipLeft fuel s scan skip = Some (s', scan') ->
     rcx s' = rcx s /\ rcy s' = rcy s /\ rst2 s' = rst2 s) /\
  (forall s' scan', skipRight fuel s scan skip = Some (s', scan') ->
     lcx s' = lcx s /\ lcy s' = lcy s /\ lst2 s' = lst2 s).
Proof.
  assert (HfL : same_frame (skipLeftOnly s skip) s) by (repeat split).
  assert (HfR : same_frame (skipRightOnly s skip) s) by (repeat split).
  split; [ | split; [ | split ] ].
  - unfold nextOnLeft, skipLeft.
    rewrite (back_loop_frame _ _ fuel HfL). cbn [skipLeftOnly set_left lcx lcy lst2 clearance].
    replace (lcy s - (skip - 1) - 1) with (lcy s - skip) by lia.
    destruct (back_loop s fuel (lcx s) (lcy s - skip) (lst2 s)) as [[[cx cy] st]|];
      [ | reflexivity ].
    rewrite (forth_loop_frame _ _ fuel HfL).
    destruct (forth_loop s fuel cx cy st) as [[[cx' cy'] st']|]; [ | reflexivity ].
    rewrite (scan_from_frame _ (set_left s cx' cy' st')) by (repeat split).
    reflexivity.
  - unfold nextOnRight, skipRight.
    rewrite (back_loop_frame _ _ fuel HfR). cbn [skipRightOnly set_right rcx rcy rst2 clearance].
    replace (rcy s + (skip - 1) + 1) with (rcy s + skip) by lia.
    destruct (back_loop s fuel (rcx s) (rcy s + skip) (rst2 s)) as [[[cx cy] st]|];
      [ | reflexivity ].
    rewrite (forth_loop_frame _ _ fuel HfR).
    destruct (forth_loop s fuel cx cy st) as [[[cx' cy'] st']|]; [ | reflexivity ].
    rewrite (scan_from_frame _ (set_right s cx' cy' st')) by (repeat split).
    reflexivity.
  - intros s' scan'. unfold skipLeft.
    destruct (back_loop _ _ _ _ _) as [[[cx cy] st]|]; [ | discriminate ].
    destruct (forth_loop _ _ _ _ _) as [[[cx' cy'] st']|]; [ | discriminate ].
    destruct (scan_from _ _ _ _ _ _); [ | discriminate ].
    intros [= <- <-]. repeat split.
  - intros s' scan'. unfold skipRight.
    destruct (back_loop _ _ _ _ _) as [[[cx cy] st]|]; [ | discriminate ].
    destruct (forth_loop _ _ _ _ _) as [[[cx' cy'] st']|]; [ | discriminate ].
    destruct (scan_from _ _ _ _ _ _); [ | discriminate ].
    intros [= <- <-]. repeat split.
Qed.

Lemma X6_skip_then_next_witness :
  exists s' scan',
    skipLeft 20 Fixtures.scanner_2_1 [] 2 = Some (s', scan') /\
    nextOnLeft 20 (skipLeftOnly Fixtures.scanner_2_1 2) [] = Some (s', scan') /\
    rcx s' = 7 /\ rcy s' = 4.
Proof.
  destruct (skipLeft 20 Fixtures.scanner_2_1 [] 2) as [[s' scan']|] eqn:E;
    [ | vm_compute in E; discriminate ].
  exists s', scan'. split; [ reflexivity | ].
  destruct (X6_skip_then_next_is_the_skipped_scan 20 Fixtures.scanner_2_1 [] 2)
    as (H1 & _ & H3 & _).
  split; [ rewrite H1; exact E | ].
  destruct (H3 s' scan' E) as (Hx & Hy & _). split; assumption.
Defined.

(** X9.  [bindTo] reads the template, never the line bound before, and
    does not change the template: of two bindings in a row the last one
    wins.  The line [a x + b y = c] and the line [-a x - b y = -c] are bound
    alike when [a] is not zero: the direction stored has [a > 0]. *)
Theorem X9_bindTo_depends_on_the_template_only (s : t) (a b c a0 b0 c0 : Z) :
  templ_a (bindTo s a b c) = templ_a s /\
  templ_b (bindTo s a b c) = templ_b s /\
  templ_nu (bindTo s a b c) = templ_nu s /\
  bindTo (bindTo s a0 b0 c0) a b c = bindTo s a b c /\
  (a <> 0 -> bindTo s (- a) (- b) (- c) = bindTo s a b c /\
             0 < dla (bindTo s a b c)).
Proof.
  split; [ reflexivity | ]. split; [ reflexivity | ]. split; [ reflexivity | ].
  split; [ reflexivity | ].
  intros Ha.
  assert (Habs : forall z, (if z <? 0 then - z else z) = Z.abs z)
    by (intros z; destruct (Z.ltb_spec z 0); lia).
  split.
  - unfold bindTo. rewrite !Habs, !Z.abs_opp.
    destruct (Z.ltb_spec a 0), (Z.ltb_spec (- a) 0); try lia;
      rewrite ?Z.opp_involutive; reflexivity.
  - unfold bindTo, set_line. cbn [dla]. rewrite Habs. lia.
Qed.

Lemma X9_bindTo_witness :
  bindTo Fixtures.scanner_1_0 (- 1) (- 1) (- 7) = bindTo Fixtures.scanner_1_0 1 1 7 /\
  0 < dla (bindTo Fixtures.scanner_1_0 1 1 7).
Proof.
  apply (proj2 (proj2 (proj2 (proj2
           (X9_bindTo_depends_on_the_template_only
              Fixtures.scanner_1_0 1 1 7 0 0 0))))).
  lia.
Defined.

End ScannerComposition.

(** ** Adaptive directional scanner: constructors *)

Section ScannerConstructors.
Import AdaptiveScannerO2.

Implicit Types (s : t).

Lemma bwd_inside_le s st : 0 < nbs s -> 0 <= st <= nbs s -> 0 <= bwd s st < nbs s.
Proof. intros Hn Hst. unfold bwd. destruct (Z.ltb_spec (st - 1) 0); lia. Qed.

Lemma start_loop_mono s (c1 : Z) : forall fuel fuel' cx cy st r,
  (fuel <= fuel')%nat ->
  start_loop s c1 fuel cx cy st = Some r -> start_loop s c1 fuel' cx cy st = Some r.
Proof.
  induction fuel as [|fuel IH]; intros fuel' cx cy st r Hle; [ discriminate | ].
  destruct fuel' as [|fuel']; [ lia | ]. cbn [start_loop].
  destruct (_ <? _); [ apply IH; lia | auto ].
Qed.

Lemma start_loop_total s (c1 : Z) : 0 < dla s -> dlb s <= 0 ->
  forall fuel cx cy st,
    c1 - val s cx cy <= Z.of_nat fuel -> (0 < fuel)%nat ->
    exists cx' cy' st',
      start_loop s c1 fuel cx cy st = Some (cx', cy', st') /\
      cx < cx' /\ cy' <= cy /\ c1 <= val s cx' cy' /\
      (0 < nbs s -> 0 <= st <= nbs s -> 0 <= st' < nbs s).
Proof.
  intros Ha Hb. induction fuel as [|fuel IH]; intros cx cy st Hf Hpos; [ lia | ].
  cbn [start_loop].
  set (st1 := bwd s st). set (cy1 := if step_at s st1 then cy - 1 else cy).
  assert (Hcy : cy - 1 <= cy1 <= cy) by (subst cy1; destruct (step_at s st1); lia).
  assert (Hv : val s cx cy + 1 <= val s (cx + 1) cy1) by (unfold val in *; nia).
  destruct (Z.ltb_spec (val s (cx + 1) cy1) c1) as [Hlt|Hge].
  - destruct (IH (cx + 1) cy1 st1) as (cx' & cy' & st' & E & Hx & Hy & Hc & Hst);
      [ lia | lia | ].
    exists cx', cy', st'. split; [ exact E | ].
    split; [ lia | ]. split; [ lia | ]. split; [ exact Hc | ].
    intros Hn Hr. apply Hst; [ exact Hn | ].
    pose proof (bwd_inside_le s st Hn Hr). subst st1. lia.
  - exists (cx + 1), cy1, st1. split; [ reflexivity | ].
    split; [ lia | ]. split; [ lia | ]. split; [ exact Hge | ].
    intros Hn Hr. apply bwd_inside_le; assumption.
Qed.

(** X7.  The constructor from centre and bounds.  For a direction of the
    octant ([a > 0], [b <= 0]) the search of the start of the central scan
    ends, whatever the order in which the two bounds are given: the strip
    has [dlc2 <= dlc1], the larger and the smaller of the two bounds, a
    template thickness [dlc1 - dlc2 >= 0], both cursors on the same pixel,
    right of the centre and not above it, on or beyond the upper line, and
    both pattern pointers inside a pattern of [nbs > 0] steps. *)
Theorem X7_constructor_from_bounds_starts_on_the_upper_line
    (xmin ymin xmax ymax a b c1 c2 nbs : Z) (steps : list bool) (cx cy : Z) :
  0 < a -> b <= 0 ->
  exists fuel0, forall fuel, (fuel0 <= fuel)%nat ->
    exists s,
      create_from_bounds fuel xmin ymin xmax ymax a b c1 c2 nbs steps cx cy
      = Some s /\
      dlc1 s = Z.max c1 c2 /\ dlc2 s = Z.min c1 c2 /\
      templ_nu s = dlc1 s - dlc2 s /\ 0 <= templ_nu s /\
      dla s = a /\ dlb s = b /\ templ_a s = a /\ templ_b s = b /\
      rcx s = lcx s /\ rcy s = lcy s /\ rst2 s = lst2 s /\
      cx < lcx s /\ lcy s <= cy /\
      dlc1 s <= val s (lcx s) (lcy s) /\
      (0 < nbs -> Z.of_nat (length steps) = nbs -> pointers_inside s).
Proof.
  intros Ha Hb.
  set (hi := if c2 >? c1 then c2 else c1).
  set (lo := if c2 >? c1 then c1 else c2).
  assert (Hhi : hi = Z.max c1 c2) by (subst hi; destruct (Z.gtb_spec c2 c1); lia).
  assert (Hlo : lo = Z.min c1 c2) by (subst lo; destruct (Z.gtb_spec c2 c1); lia).
  set (s0 := mk xmin ymin xmax ymax nbs steps cx cy cx cy 0 0 true
                a b hi lo a b (hi - lo)).
  set (fuel0 := S (Z.to_nat (hi - val s0 cx cy))).
  destruct (start_loop_total s0 hi Ha Hb fuel0 cx cy nbs)
    as (lx & ly & st & E & Hx & Hy & Hc & Hst); [ subst fuel0; lia | subst fuel0; lia | ].
  exists fuel0. intros fuel Hf.
  apply (start_loop_mono _ _ _ fuel) in E; [ | exact Hf ].
  unfold create_from_bounds. fold hi lo s0. rewrite E.
  eexists. split; [ reflexivity | ]. cbn.
  do 14 (split; [ first [ reflexivity | lia | exact Hc ] | ]).
  intros Hn Hl. unfold pointers_inside. cbn.
  assert (0 <= st < nbs) by (apply Hst; cbn; lia).
  repeat split; lia.
Qed.

Lemma X7_constructor_from_bounds_witness :
  exists fuel0, forall fuel, (fuel0 <= fuel)%nat ->
    exists s,
      create_from_bounds fuel 0 0 10 10 2 (-1) 2 10 2 [true; false] 4 2
      = Some s /\
      dlc1 s = 10 /\ dlc2 s = 2 /\ 4 < lcx s /\ lcy s <= 2 /\
      10 <= val s (lcx s) (lcy s) /\ pointers_inside s.
Proof.
  destruct (X7_constructor_from_bounds_starts_on_the_upper_line
              0 0 10 10 2 (-1) 2 10 2 [true; false] 4 2) as [fuel0 H];
    [ lia | lia | ].
  exists fuel0. intros fuel Hf.
  destruct (H fuel Hf) as (s & E & H1 & H2 & _ & _ & _ & _ & _ & _ & _ & _ & _
                            & Hx & Hy & Hv & Hp).
  exists s. split; [ exact E | ].
  split; [ rewrite H1; reflexivity | ]. split; [ rewrite H2; reflexivity | ].
  split; [ exact Hx | ]. split; [ exact Hy | ].
  split; [ rewrite H1 in Hv; exact Hv | ].
  apply Hp; [ lia | reflexivity ].
Defined.

Lemma walk_up_spec s : forall n cx cy st lx ly st',
  walk_up s n cx cy st = (lx, ly, st') ->
  lx = cx + Z.of_nat n /\ cy - Z.of_nat n <= ly <= cy /\
  (0 < nbs s -> 0 <= st <= nbs s -> st' = st \/ 0 <= st' < nbs s).
Proof.
  induction n as [|n IH]; intros cx cy st lx ly st'; cbn [walk_up].
  - intros [= <- <- <-]. repeat split; lia.
  - intros E. apply IH in E as (Hx & Hy & Hst).
    split; [ lia | ]. split; [ destruct (step_at s (bwd s st)); lia | ].
    intros Hn Hr. pose proof (bwd_inside_le s st Hn Hr) as Hb.
    right. destruct (Hst Hn) as [-> | H]; [ lia | exact Hb | exact H ].
Qed.

Lemma walk_down_spec s : forall n cx cy st ex ey st',
  walk_down s n cx cy st = (ex, ey, st') ->
  ex = cx - Z.of_nat n /\ cy <= ey <= cy + Z.of_nat n.
Proof.
  induction n as [|n IH]; intros cx cy st ex ey st'; cbn [walk_down].
  - intros [= <- <- <-]. lia.
  - intros E. apply IH in E as (Hx & Hy).
    split; [ lia | ]. destruct (step_at s st); lia.
Qed.

(** X8.  The constructor from centre and length.  With
    [w = (length + 1) / 2] steps on each side of the centre (none for a
    length that is not positive), both cursors are put [w] pixels right of
    the centre.  For a direction of the octant ([a >= 0], [b <= 0]) the
    strip holds the centre, [dlc2 <= a cx + b cy <= dlc1], and its
    thickness, which is the template thickness, is at least [2 a w]; a
    length that is not positive gives the strip of thickness 0 through
    the centre. *)
Theorem X8_constructor_from_length_strip_holds_the_centre
    (xmin ymin xmax ymax a b nbs : Z) (steps : list bool) (cx cy length : Z) :
  let s := create_from_length xmin ymin xmax ymax a b nbs steps cx cy length in
  let w := Z.max 0 ((length + 1) ÷ 2) in
  lcx s = cx + w /\ cy - w <= lcy s <= cy /\
  rcx s = lcx s /\ rcy s = lcy s /\ rst2 s = lst2 s /\
  templ_nu s = dlc1 s - dlc2 s /\
  dlc1 s = val s (lcx s) (lcy s) /\
  (length <= 0 -> dlc1 s = a * cx + b * cy /\ dlc2 s = a * cx + b * cy) /\
  (0 <= a -> b <= 0 ->
   dlc2 s <= a * cx + b * cy <= dlc1 s /\ 2 * a * w <= templ_nu s).
Proof.
  cbv zeta. unfold create_from_length.
  set (s0 := mk xmin ymin xmax ymax nbs steps cx cy cx cy 0 0 true
                a b 0 0 a b 0).
  set (n := Z.to_nat ((length + 1) ÷ 2)).
  assert (Hn : Z.of_nat n = Z.max 0 ((length + 1) ÷ 2)) by (subst n; lia).
  destruct (walk_up s0 n cx cy nbs) as [[lx ly] st] eqn:Eu.
  destruct (walk_down s0 n cx cy 0) as [[ex ey] st2] eqn:Ed.
  apply walk_up_spec in Eu as (Hx & Hy & _).
  apply walk_down_spec in Ed as (Hex & Hey).
  cbn. rewrite <- Hn.
  do 7 (split; [ first [ reflexivity | lia ] | ]).
  split.
  - intros Hl.
    assert (Hq : (length + 1) ÷ 2 <= 0).
    { apply (Z.quot_le_mono (length + 1) 1 2); lia. }
    assert (n = 0%nat) by lia. subst n.
    assert (lx = cx /\ ly = cy /\ ex = cx /\ ey = cy) as (-> & -> & -> & ->) by lia.
    split; reflexivity.
  - intros Ha Hb. nia.
Qed.

Lemma X8_constructor_from_length_witness :
  let s := create_from_length 0 0 20 20 2 (-1) 2 [true; false] 10 10 5 in
  dlc2 s <= 2 * 10 + (-1) * 10 <= dlc1 s /\ 2 * 2 * 3 <= templ_nu s.
Proof.
  apply (proj2 (proj2 (proj2 (proj2 (proj2 (proj2 (proj2 (proj2
           (X8_constructor_from_length_strip_holds_the_centre
              0 0 20 20 2 (-1) 2 [true; false] 10 10 5))))))))); lia.
Defined.

End ScannerConstructors.

(** ** Floating-point order *)

Lemma SFltb_rank (x y : spec_float) :
  SFltb x y = true <->
  F32.is_nan x = false /\ F32.is_nan y = false /\ rank_lt (SFrank x) (SFrank y).
Proof.
  unfold SFltb, SFcompare, rank_lt, SFrank, F32.is_nan.
  destruct x as [sx|sx| |sx mx ex], y as [sy|sy| |sy my ey];
    try destruct sx; try destruct sy;
    try (split; [ discriminate | intros (? & ? & ?); try discriminate; lia ]);
    try (split; [ intros _; repeat split; lia | reflexivity ]).
  all: change (Pos.compare_cont Eq mx my) with (Pos.compare mx my);
    destruct (Z.compare_spec ex ey); destruct (Pos.compare_spec mx my);
    cbn [CompOpp];
    (split; [ intros E; try discriminate; repeat split; lia
            | intros (_ & _ & E); try reflexivity; lia ]).
Qed.

Lemma SFeqb_rank (x y : spec_float) :
  SFeqb x y = true <->
  F32.is_nan x = false /\ F32.is_nan y = false /\ SFrank x = SFrank y.
Proof.
  unfold SFeqb, SFcompare, SFrank, F32.is_nan.
  destruct x as [sx|sx| |sx mx ex], y as [sy|sy| |sy my ey];
    try destruct sx; try destruct sy;
    try (split; [ discriminate | intros (? & ? & ?); discriminate ]);
    try (split; [ intros _; repeat split; reflexivity | reflexivity ]).
  all: change (Pos.compare_cont Eq mx my) with (Pos.compare mx my);
    destruct (Z.compare_spec ex ey); destruct (Pos.compare_spec mx my);
    cbn [CompOpp];
    (split; [ intros E; try discriminate; repeat split; congruence
            | intros (_ & _ & E); try reflexivity; injection E; lia ]).
Qed.

Lemma rank_lt_trans a b c : rank_lt a b -> rank_lt b c -> rank_lt a c.
Proof.
  destruct a as [[a1 a2] a3], b as [[b1 b2] b3], c as [[c1 c2] c3].
  unfold rank_lt. lia.
Qed.

Lemma rank_lt_asym a b : rank_lt a b -> rank_lt b a -> False.
Proof.
  destruct a as [[a1 a2] a3], b as [[b1 b2] b3]. unfold rank_lt. lia.
Qed.

Lemma rank_total a b : rank_lt a b \/ a = b \/ rank_lt b a.
Proof.
  destruct a as [[a1 a2] a3], b as [[b1 b2] b3]. unfold rank_lt.
  destruct (Z.lt_total a1 b1) as [|[->|]]; [ lia | | lia ].
  destruct (Z.lt_total a2 b2) as [|[->|]]; [ lia | | lia ].
  destruct (Z.lt_total a3 b3) as [|[->|]]; [ lia | auto | lia ].
Qed.

(** ** Point classes: orders and distances *)

(** X11.  [Pt3i::greaterThan] is the strict lexicographic order of the
    three coordinates: no point is greater than itself, the relation is
    transitive, and of two points exactly one holds: the first is greater,
    the second is greater, or they have the same coordinates.  The counter
    [nb] plays no part. *)
Theorem X11_Pt3i_greaterThan_is_a_strict_total_order (p q r : Pt3i) :
  Pt3i_greaterThan p p = false /\
  (Pt3i_greaterThan p q = true -> Pt3i_greaterThan q r = true ->
   Pt3i_greaterThan p r = true) /\
  (Pt3i_greaterThan p q = true -> Pt3i_greaterThan q p = false) /\
  (Pt3i_greaterThan p q = false -> Pt3i_greaterThan q p = false ->
   p3i_x p = p3i_x q /\ p3i_y p = p3i_y q /\ p3i_z p = p3i_z q) /\
  (p3i_x p = p3i_x q -> p3i_y p = p3i_y q -> p3i_z p = p3i_z q ->
   Pt3i_greaterThan p q = false /\ Pt3i_greaterThan q p = false).
Proof.
  assert (H : forall a b : Pt3i, Pt3i_greaterThan a b = true <->
            p3i_x a > p3i_x b \/ (p3i_x a = p3i_x b /\
              (p3i_y a > p3i_y b \/ (p3i_y a = p3i_y b /\ p3i_z a > p3i_z b)))).
  { intros a b. unfold Pt3i_greaterThan.
    destruct (Z.gtb_spec (p3i_x a) (p3i_x b)); [ split; [ lia | reflexivity ] | ].
    destruct (Z.ltb_spec (p3i_x a) (p3i_x b)); [ split; [ discriminate | lia ] | ].
    destruct (Z.gtb_spec (p3i_y a) (p3i_y b)); [ split; [ lia | reflexivity ] | ].
    destruct (Z.ltb_spec (p3i_y a) (p3i_y b)); [ split; [ discriminate | lia ] | ].
    destruct (Z.gtb_spec (p3i_z a) (p3i_z b)); split; try discriminate; lia. }
  assert (N : forall a b : Pt3i, Pt3i_greaterThan a b = false <->
            ~ (p3i_x a > p3i_x b \/ (p3i_x a = p3i_x b /\
              (p3i_y a > p3i_y b \/ (p3i_y a = p3i_y b /\ p3i_z a > p3i_z b))))).
  { intros a b. rewrite <- H. destruct (Pt3i_greaterThan a b); split;
      congruence. }
  rewrite !N, !H. lia.
Qed.

Lemma X11_Pt3i_greaterThan_witness :
  Pt3i_greaterThan (mkPt3i 3 1 0 7) (mkPt3i 1 9 9 0) = true.
Proof.
  apply (proj1 (proj2 (X11_Pt3i_greaterThan_is_a_strict_total_order
                         (mkPt3i 3 1 0 7) (mkPt3i 2 5 5 0) (mkPt3i 1 9 9 0))));
    reflexivity.
Defined.

(** The comparisons of [Pt3f::greaterThan], coordinate by coordinate. *)
Lemma Pt3f_greaterThan_rank (p q : Pt3f) :
  F32.is_nan (p3f_x p) = false -> F32.is_nan (p3f_y p) = false ->
  F32.is_nan (p3f_z p) = false ->
  F32.is_nan (p3f_x q) = false -> F32.is_nan (p3f_y q) = false ->
  F32.is_nan (p3f_z q) = false ->
  (Pt3f_greaterThan p q = true <->
   rank_lt (SFrank (p3f_x q)) (SFrank (p3f_x p)) \/
   (SFrank (p3f_x q) = SFrank (p3f_x p) /\
    (rank_lt (SFrank (p3f_y q)) (SFrank (p3f_y p)) \/
     (SFrank (p3f_y q) = SFrank (p3f_y p) /\
      rank_lt (SFrank (p3f_z q)) (SFrank (p3f_z p)))))).
Proof.
  intros Npx Npy Npz Nqx Nqy Nqz.
  assert (L : forall x y, F32.is_nan x = false -> F32.is_nan y = false ->
            (SFltb x y = true <-> rank_lt (SFrank x) (SFrank y))).
  { intros x y Nx Ny. rewrite SFltb_rank. tauto. }
  unfold Pt3f_greaterThan, F32.gt, F32.lt.
  pose proof (L (p3f_x q) (p3f_x p) Nqx Npx) as Hx1.
  pose proof (L (p3f_x p) (p3f_x q) Npx Nqx) as Hx2.
  pose proof (L (p3f_y q) (p3f_y p) Nqy Npy) as Hy1.
  pose proof (L (p3f_y p) (p3f_y q) Npy Nqy) as Hy2.
  pose proof (L (p3f_z q) (p3f_z p) Nqz Npz) as Hz1.
  pose proof (rank_total (SFrank (p3f_x q)) (SFrank (p3f_x p))) as Tx.
  pose proof (rank_total (SFrank (p3f_y q)) (SFrank (p3f_y p))) as Ty.
  pose proof (rank_lt_asym (SFrank (p3f_x q)) (SFrank (p3f_x p))) as Ax.
  pose proof (rank_lt_asym (SFrank (p3f_y q)) (SFrank (p3f_y p))) as Ay.
  assert (Ix : forall a, rank_lt a a -> False) by (intros a Ha; exact (rank_lt_asym a a Ha Ha)).
  destruct (SFltb (p3f_x q) (p3f_x p)); [ split; [ intros _; left; tauto | reflexivity ] | ].
  destruct (SFltb (p3f_x p) (p3f_x q)).
  { split; [ discriminate | ]. intros [H | [E _]].
    - exfalso. apply Ax; tauto.
    - exfalso. rewrite E in Hx2. apply (Ix (SFrank (p3f_x p))). tauto. }
  assert (Ex : SFrank (p3f_x q) = SFrank (p3f_x p)).
  { destruct Tx as [H | [H | H]]; [ | exact H | ].
    - apply Hx1 in H. discriminate.
    - apply Hx2 in H. discriminate. }
  destruct (SFltb (p3f_y q) (p3f_y p)); [ split; [ intros _; right; tauto | reflexivity ] | ].
  destruct (SFltb (p3f_y p) (p3f_y q)).
  { split; [ discriminate | ]. intros [H | [_ [H | [E _]]]].
    - apply Hx1 in H. discriminate.
    - exfalso. apply Ay; tauto.
    - exfalso. rewrite E in Hy2. apply (Ix (SFrank (p3f_y p))). tauto. }
  assert (Ey : SFrank (p3f_y q) = SFrank (p3f_y p)).
  { destruct Ty as [H | [H | H]]; [ | exact H | ].
    - apply Hy1 in H. discriminate.
    - apply Hy2 in H. discriminate. }
  rewrite Hz1. split; [ tauto | ].
  intros [H | [_ [H | [_ H]]]]; [ | | exact H ].
  - apply Hx1 in H. discriminate.
  - apply Hy1 in H. discriminate.
Qed.

Lemma SFltb_asym (x y : spec_float) : SFltb x y = true -> SFltb y x = false.
Proof.
  intros H. destruct (SFltb y x) eqn:E; [ | reflexivity ].
  apply SFltb_rank in H as (_ & _ & H). apply SFltb_rank in E as (_ & _ & E).
  destruct (rank_lt_asym _ _ H E).
Qed.

(** X12.  [Pt3f::greaterThan] on floating-point coordinates.  No point is
    greater than itself, and two points are never each greater than the
    other, NaN coordinates included.  On points without NaN coordinate the
    relation is transitive; with a NaN coordinate it need not be. *)
Theorem X12_Pt3f_greaterThan_is_a_strict_order_without_nan (p q r : Pt3f) :
  Pt3f_greaterThan p p = false /\
  (Pt3f_greaterThan p q = true -> Pt3f_greaterThan q p = false) /\
  (Pt3f_no_nan p -> Pt3f_no_nan q -> Pt3f_no_nan r ->
   Pt3f_greaterThan p q = true -> Pt3f_greaterThan q r = true ->
   Pt3f_greaterThan p r = true) /\
  (let a := mkPt3f (F32.of_Z 1) (F32.of_Z 1) F32.zero in
   let b := mkPt3f S754_nan F32.zero F32.zero in
   let c := mkPt3f (F32.of_Z 2) (F32.of_Z (-1)) F32.zero in
   Pt3f_greaterThan a b = true /\ Pt3f_greaterThan b c = true /\
   Pt3f_greaterThan a c = false).
Proof.
  split; [ | split; [ | split ] ].
  - unfold Pt3f_greaterThan, F32.gt, F32.lt. rewrite !SFltb_irrefl. reflexivity.
  - unfold Pt3f_greaterThan, F32.gt, F32.lt.
    pose proof (SFltb_asym (p3f_x q) (p3f_x p)) as Ax.
    pose proof (SFltb_asym (p3f_x p) (p3f_x q)) as Ax'.
    pose proof (SFltb_asym (p3f_y q) (p3f_y p)) as Ay.
    pose proof (SFltb_asym (p3f_y p) (p3f_y q)) as Ay'.
    pose proof (SFltb_asym (p3f_z q) (p3f_z p)) as Az.
    destruct (SFltb (p3f_x q) (p3f_x p)), (SFltb (p3f_x p) (p3f_x q));
      try (specialize (Ax eq_refl)); try discriminate; auto.
    destruct (SFltb (p3f_y q) (p3f_y p)), (SFltb (p3f_y p) (p3f_y q));
      try (specialize (Ay eq_refl)); try discriminate; auto.
  - intros (Npx & Npy & Npz) (Nqx & Nqy & Nqz) (Nrx & Nry & Nrz).
    rewrite !Pt3f_greaterThan_rank by assumption.
    destruct (SFrank (p3f_x p)) as [[a1 a2] a3], (SFrank (p3f_y p)) as [[b1 b2] b3],
             (SFrank (p3f_z p)) as [[c1 c2] c3],
             (SFrank (p3f_x q)) as [[d1 d2] d3], (SFrank (p3f_y q)) as [[e1 e2] e3],
             (SFrank (p3f_z q)) as [[f1 f2] f3],
             (SFrank (p3f_x r)) as [[g1 g2] g3], (SFrank (p3f_y r)) as [[h1 h2] h3],
             (SFrank (p3f_z r)) as [[i1 i2] i3].
    unfold rank_lt.
    intros [H1 | [E1 [H1 | [E1' H1]]]] [H2 | [E2 [H2 | [E2' H2]]]];
      try (injection E1 as -> -> ->); try (injection E2 as -> -> ->);
      try (injection E1' as -> -> ->); try (injection E2' as -> -> ->);
      first [ left; lia
            | right; split; [ reflexivity | left; lia ]
            | right; split; [ reflexivity | right; split; [ reflexivity | lia ] ] ].
  - vm_compute. auto.
Qed.

Lemma X12_Pt3f_greaterThan_witness :
  Pt3f_greaterThan (mkPt3f (F32.of_Z 3) F32.zero F32.zero)
                   (mkPt3f (F32.of_Z 1) F32.zero F32.zero) = true.
Proof.
  apply (proj1 (proj2 (proj2
           (X12_Pt3f_greaterThan_is_a_strict_order_without_nan
              (mkPt3f (F32.of_Z 3) F32.zero F32.zero)
              (mkPt3f (F32.of_Z 2) F32.zero F32.zero)
              (mkPt3f (F32.of_Z 1) F32.zero F32.zero)))));
    try (repeat split; reflexivity); reflexivity.
Defined.

(** *** Differences and distances *)

Lemma binary_round_opp (prec emax : Z) (s : bool) (m : positive) (e : Z) :
  binary_round prec emax (negb s) m e = SFopp (binary_round prec emax s m e).
Proof.
  unfold binary_round. destruct (shl_align m e _) as [mz ez].
  apply binary_round_aux_opp.
Qed.

(** The two differences of two numbers are opposite, or are both zeros. *)
Lemma SFsub_swap (prec emax : Z) (x y : spec_float) :
  SFsub prec emax y x = SFopp (SFsub prec emax x y) \/
  (exists s s', SFsub prec emax x y = S754_zero s /\
                SFsub prec emax y x = S754_zero s').
Proof.
  destruct x as [[]|[]| |sx mx ex], y as [[]|[]| |sy my ey]; cbn [SFsub SFopp negb];
    try (left; reflexivity); try (right; eauto; fail);
    try (left; rewrite ?negb_involutive; reflexivity).
  rewrite (Z.min_comm ey ex).
  set (a := cond_Zopp sx (Zpos (fst (shl_align mx ex (Z.min ex ey))))).
  set (b := cond_Zopp sy (Zpos (fst (shl_align my ey (Z.min ex ey))))).
  replace (b - a) with (- (a - b)) by lia.
  destruct (a - b) as [|d|d]; cbn [Z.opp binary_normalize].
  - right. eauto.
  - left. apply (binary_round_opp prec emax false).
  - left. apply (binary_round_opp prec emax true).
Qed.

Lemma SFmul_square_opp (prec emax : Z) (d : spec_float) :
  SFmul prec emax (SFopp d) (SFopp d) = SFmul prec emax d d.
Proof.
  destruct d as [s|s| |s m e]; cbn [SFopp SFmul]; try reflexivity;
    destruct s; reflexivity.
Qed.

Lemma SFsub_swap_square (prec emax : Z) (x y : spec_float) :
  SFmul prec emax (SFsub prec emax y x) (SFsub prec emax y x)
  = SFmul prec emax (SFsub prec emax x y) (SFsub prec emax x y).
Proof.
  destruct (SFsub_swap prec emax x y) as [-> | (s & s' & -> & ->)].
  - apply SFmul_square_opp.
  - destruct s, s'; reflexivity.
Qed.

Lemma SFsub_diag_finite (prec emax : Z) (x : spec_float) :
  F32.is_finite x = true -> SFsub prec emax x x = S754_zero false.
Proof.
  destruct x as [s|s| |s m e]; try discriminate; intros _; cbn [SFsub].
  - destruct s; reflexivity.
  - rewrite Z.sub_diag. reflexivity.
Qed.

(** X13.  [Pt2f::distance] and [Pt3f::distance] are symmetric, whatever the
    coordinates, exactly: the two differences of a coordinate are opposite
    numbers or zeros, and have the same square.  The distance from a point
    with finite coordinates to itself is zero. *)
Theorem X13_distance_is_symmetric (p q : Pt2f) (u v : Pt3f) :
  Pt2f_distance p q = Pt2f_distance q p /\
  Pt3f_distance u v = Pt3f_distance v u /\
  (Pt2f_finite p -> Pt2f_distance p p = F32.zero) /\
  (Pt3f_finite u -> Pt3f_distance u u = F32.zero).
Proof.
  unfold Pt2f_distance, Pt3f_distance, F32.mul, F32.sub.
  split; [ | split; [ | split ] ].
  - cbv zeta. rewrite (SFsub_swap_square _ _ (p2f_x q) (p2f_x p)),
      (SFsub_swap_square _ _ (p2f_y q) (p2f_y p)). reflexivity.
  - cbv zeta. rewrite (SFsub_swap_square _ _ (p3f_x v) (p3f_x u)),
      (SFsub_swap_square _ _ (p3f_y v) (p3f_y u)),
      (SFsub_swap_square _ _ (p3f_z v) (p3f_z u)). reflexivity.
  - intros [Hx Hy]. cbv zeta. rewrite !SFsub_diag_finite by assumption. reflexivity.
  - intros (Hx & Hy & Hz). cbv zeta. rewrite !SFsub_diag_finite by assumption.
    reflexivity.
Qed.

Lemma X13_distance_witness :
  Pt2f_distance (mkPt2f (F32.of_Z 3) (F32.of_Z 4))
                (mkPt2f (F32.of_Z 3) (F32.of_Z 4)) = F32.zero.
Proof.
  apply (proj1 (proj2 (proj2
           (X13_distance_is_symmetric
              (mkPt2f (F32.of_Z 3) (F32.of_Z 4)) (mkPt2f F32.zero F32.zero)
              (mkPt3f F32.zero F32.zero F32.zero)
              (mkPt3f F32.zero F32.zero F32.zero))))).
  split; reflexivity.
Defined.

(** ** The comparator of the scanned points *)

Lemma compIFurther_rank (p q : Pt2f) :
  compIFurther p q = true <->
  (F32.is_nan (milli (p2f_x p)) = false /\ F32.is_nan (milli (p2f_x q)) = false /\
   (rank_lt (SFrank (milli (p2f_x p))) (SFrank (milli (p2f_x q))) \/
    (SFrank (milli (p2f_x q)) = SFrank (milli (p2f_x p)) /\
     F32.is_nan (milli (p2f_y p)) = false /\ F32.is_nan (milli (p2f_y q)) = false /\
     rank_lt (SFrank (milli (p2f_y p))) (SFrank (milli (p2f_y q)))))).
Proof.
  unfold compIFurther. rewrite orb_true_iff, andb_true_iff.
  rewrite !SFltb_rank, SFeqb_rank. tauto.
Qed.

(** X14.  [compIFurther], the comparator given to [sort] for the points of
    a scan, is a strict order on all points, NaN coordinates included: no
    point is further than itself, two points are never each further than
    the other, and the relation is transitive. *)
Theorem X14_compIFurther_is_a_strict_order (p q r : Pt2f) :
  compIFurther p p = false /\
  (compIFurther p q = true -> compIFurther q p = false) /\
  (compIFurther p q = true -> compIFurther q r = true ->
   compIFurther p r = true).
Proof.
  assert (Hirr : forall a, compIFurther a a = false).
  { intros a. unfold compIFurther. rewrite !SFltb_irrefl, andb_false_r. reflexivity. }
  assert (Htr : forall a b c, compIFurther a b = true -> compIFurther b c = true ->
                              compIFurther a c = true).
  { intros a b c. rewrite !compIFurther_rank.
    destruct (SFrank (milli (p2f_x a))) as [[a1 a2] a3],
             (SFrank (milli (p2f_y a))) as [[a4 a5] a6],
             (SFrank (milli (p2f_x b))) as [[b1 b2] b3],
             (SFrank (milli (p2f_y b))) as [[b4 b5] b6],
             (SFrank (milli (p2f_x c))) as [[c1 c2] c3],
             (SFrank (milli (p2f_y c))) as [[c4 c5] c6].
    unfold rank_lt.
    intros (Na & Nb & [H1 | (E1 & Nya & Nyb & H1)])
           (_ & Nc & [H2 | (E2 & _ & Nyc & H2)]);
      try (injection E1 as -> -> ->); try (injection E2 as -> -> ->);
      (split; [ exact Na | split; [ exact Nc | ] ]);
      first [ left; lia
            | right; split; [ reflexivity | ];
              split; [ exact Nya | split; [ exact Nyc | lia ] ] ]. }
  split; [ apply Hirr | split; [ | apply Htr ] ].
  intros H. destruct (compIFurther q p) eqn:E; [ | reflexivity ].
  rewrite <- (Hirr p). symmetry. exact (Htr p q p H E).
Qed.

Lemma X14_compIFurther_witness :
  compIFurther (mkPt2f (F32.of_Z 1) F32.zero) (mkPt2f (F32.of_Z 3) F32.zero)
  = true.
Proof.
  apply (proj2 (proj2 (X14_compIFurther_is_a_strict_order
           (mkPt2f (F32.of_Z 1) F32.zero) (mkPt2f (F32.of_Z 2) F32.zero)
           (mkPt2f (F32.of_Z 3) F32.zero)))); vm_compute; reflexivity.
Defined.

